(** * color_sentence: a sentence is turned into an RGB colour

    Shallow embedding of the Python package [color_sentence]
    (core/normalization.py, core/color_math.py, core/overrides.py,
    core/engine.py and the config modules they read).

    Conventions.
    - A Python [str] is a list of Unicode code points ([Z]); a Python [int]
      is a [Z].
    - A Python [float] is a value of a type [F] that carries the operations
      the code uses (class [Arith]); every function is written once, for any
      [F].  The arithmetic of the program is the instance [binary64]:
      IEEE-754 doubles, what CPython computes with.  A statement is either
      proved for any [F] or proved on [binary64].
    - The value of a finite double is a rational ([is_val]); each operation
      on finite doubles is proved to return the double nearest to the exact
      result, ties to even ([rnd]), from the specification of the primitive
      floats in the Standard Library.
    - [round] is Python 3's: to nearest, ties to even.
    - A raised exception is the constructor [Raise] of [result].
    - Text-to-speech has no influence on the returned record and is left
      out; the remote name lookup is a capability of the environment.
    - Of the modules around the engine, the two pure helpers are embedded:
      [_normalize_hex] (net/color_api.py), with [None] for its [ValueError],
      and [_prepare_text_for_gtts] (tts/tts_gtts.py). *)

From Stdlib Require Import ZArith QArith Qminmax Qabs Qpower Qround Lia Lqa.
From Stdlib Require Import Bool List String Ascii.
From Stdlib Require Import Floats.
Import ListNotations.

Local Open Scope Z_scope.

(** ** Python values *)

Definition char := Z.
Definition str := list char.

(** Code points of an ASCII literal. *)
Definition str_of (lit : string) : str :=
  map (fun a => Z.of_N (N_of_ascii a)) (list_ascii_of_string lit).

Inductive exn := TypeError | KeyError.

Inductive result (A : Type) : Type :=
| Ok (a : A)
| Raise (e : exn).
Arguments Ok {A} a.
Arguments Raise {A} e.

Definition bind {A B} (r : result A) (k : A -> result B) : result B :=
  match r with
  | Ok a => k a
  | Raise e => Raise e
  end.

Notation "x <- r ;; k" := (bind r (fun x => k))
  (at level 61, r at next level, right associativity).

(** ** Floating-point arithmetic as an interface *)

Class Arith (F : Type) : Type := {
  of_Z : Z -> F;            (* float(n), also an integer or x.0 literal *)
  fadd : F -> F -> F;
  fsub : F -> F -> F;
  fmul : F -> F -> F;
  fdiv : F -> F -> F;       (* only used with a divisor the code has tested *)
  fltb : F -> F -> bool;
  fleb : F -> F -> bool;
  feqb : F -> F -> bool;
  fround : F -> Z           (* int(round(x)) *)
}.

Declare Scope py_scope.
Delimit Scope py_scope with py.
Infix "+!" := fadd (at level 50, left associativity) : py_scope.
Infix "-!" := fsub (at level 50, left associativity) : py_scope.
Infix "*!" := fmul (at level 40, left associativity) : py_scope.
Infix "/!" := fdiv (at level 40, left associativity) : py_scope.
Infix "<!" := fltb (at level 70, no associativity) : py_scope.
Infix "<=!" := fleb (at level 70, no associativity) : py_scope.
Infix "==!" := feqb (at level 70, no associativity) : py_scope.
Local Open Scope py_scope.

(** A decimal literal [n/d] with [d] a power of ten, e.g. [dec 15 100] for
    [0.15].  Division is correctly rounded, so on doubles this is the double
    nearest to the decimal, which is what the Python parser produces. *)
Definition dec {F} `{Arith F} (n : Z) (d : positive) : F :=
  of_Z n /! of_Z (Zpos d).

Definition fgtb {F} `{Arith F} (x y : F) : bool := y <! x.
Infix ">!" := fgtb (at level 70, no associativity) : py_scope.

(** Python's [round] on an exact value: nearest integer, ties to even. *)
Definition round_half_even (q : Q) : Z :=
  let n := Qnum q in
  let d := Zpos (Qden q) in
  let lo := n / d in
  match 2 * (n mod d) ?= d with
  | Lt => lo
  | Gt => lo + 1
  | Eq => if Z.even lo then lo else lo + 1
  end.

(** [x < y] on rationals, as a boolean. *)
Definition Qltb (x y : Q) : bool :=
  match Qcompare x y with Lt => true | _ => false end.

(** *** IEEE-754 binary64 *)

(** The value of a finite double; [None] for infinities and NaN. *)
Definition SF2Q (x : spec_float) : option Q :=
  match x with
  | S754_zero _ => Some (0 # 1)
  | S754_finite sg m e =>
      let z := if sg then Zneg m else Zpos m in
      Some (match e with
            | Z0 => z # 1
            | Zpos p => (z * 2 ^ Zpos p) # 1
            | Zneg p => z # (2 ^ p)
            end)
  | _ => None
  end.

(** [int(round(x))]; Python raises on an infinity or a NaN, values that no
    guarded division of this program produces, and [0] stands for them. *)
Definition float_round (x : float) : Z :=
  match SF2Q (Prim2SF x) with
  | Some q => round_half_even q
  | None => 0
  end.

(** [float(n)]: the double nearest to the integer [n], ties to even. *)
Definition float_of_Z (n : Z) : float :=
  SF2Prim (binary_normalize 53 1024 n 0 false).

#[export] Instance binary64 : Arith float := {
  of_Z := float_of_Z;
  fadd := PrimFloat.add;
  fsub := PrimFloat.sub;
  fmul := PrimFloat.mul;
  fdiv := PrimFloat.div;
  fltb := PrimFloat.ltb;
  fleb := PrimFloat.leb;
  feqb := PrimFloat.eqb;
  fround := float_round
}.

(** ** config/types.py *)

Definition RGB := (Z * Z * Z)%type.

Module Denominator.
Inductive t := VISIBLE | LETTERS | RGB_HITS.
End Denominator.

Module ComputeMode.
Inductive t := FREQ | ANCHOR.
End ComputeMode.

Record ComputeResult := {
  rgb : RGB;
  hex : string;
  name : string
}.

(** ** config/config.py *)

Record LengthFloorConfig := {
  short_visible_max : Z;
  long_visible_min : Z;
  bright_at_short : Z;
  bright_at_long : Z;
  linear_step : Z
}.

Definition LENGTH_FLOOR : LengthFloorConfig := {|
  short_visible_max := 6;
  long_visible_min := 30;
  bright_at_short := 200;
  bright_at_long := 80;
  linear_step := 5
|}.

Record PunctuationConfig (F : Type) := {
  weight_exclamation : Z;
  weight_question : Z;
  end_bonus : Z;
  score_min : Z;
  score_max : Z;
  bright_per_score : F;
  sat_per_score : F
}.
Arguments weight_exclamation {F}.
Arguments weight_question {F}.
Arguments end_bonus {F}.
Arguments score_min {F}.
Arguments score_max {F}.
Arguments bright_per_score {F}.
Arguments sat_per_score {F}.

Definition PUNCT {F} `{Arith F} : PunctuationConfig F := {|
  weight_exclamation := 2;
  weight_question := -1;
  end_bonus := 1;
  score_min := -3;
  score_max := 3;
  bright_per_score := dec 15 100;
  sat_per_score := dec 10 100
|}.

Record AnchorConfig := {
  index_r : Z;
  index_g : Z;
  index_b : Z
}.

Definition ANCHOR : AnchorConfig := {| index_r := 17; index_g := 6; index_b := 1 |}.

(** The fields of [ComputeConfig] that the computation reads. *)
Record ComputeConfig := {
  denominator : Denominator.t;
  punctuation_mods : bool;
  apply_length_floor : bool;
  mode : ComputeMode.t
}.

Definition default_config : ComputeConfig := {|
  denominator := Denominator.VISIBLE;
  punctuation_mods := true;
  apply_length_floor := true;
  mode := ComputeMode.FREQ
|}.

(** ** Python built-ins the code calls *)

Definition in_range (lo hi c : Z) : bool := (lo <=? c) && (c <=? hi).

Definition is_ascii_upper (c : char) : bool := in_range 65 90 c.
Definition is_ascii_lower (c : char) : bool := in_range 97 122 c.
Definition is_ascii_letter (c : char) : bool := is_ascii_upper c || is_ascii_lower c.
Definition is_ascii_digit (c : char) : bool := in_range 48 57 c.

(** [ch.isspace()]: the white-space code points of CPython's Unicode
    database. *)
Definition isspace (c : char) : bool :=
  in_range 9 13 c || in_range 28 32 c || (c =? 133) || (c =? 160)
  || (c =? 5760) || in_range 8192 8202 c || (c =? 8232) || (c =? 8233)
  || (c =? 8239) || (c =? 8287) || (c =? 12288).

(** [ch.lower()].  ASCII capitals go to their small letters.  Two code
    points outside ASCII have a lower-case form that starts with an ASCII
    letter: U+212A KELVIN SIGN gives "k" and U+0130 LATIN CAPITAL LETTER I
    WITH DOT ABOVE gives the two code points "i", U+0307.  Every other code
    point outside ASCII lower-cases to code points outside ASCII; they are
    left as they are, which no comparison with "a".."z" can tell apart. *)
Definition py_lower (c : char) : str :=
  if is_ascii_upper c then [c + 32]
  else if c =? 8490 then [107]
  else if c =? 304 then [105; 775]
  else [c].

Definition str_lower (t : str) : str := flat_map py_lower t.

Fixpoint str_eqb (a b : str) : bool :=
  match a, b with
  | [], [] => true
  | x :: a', y :: b' => (x =? y) && str_eqb a' b'
  | _, _ => false
  end.

(** [a <= b] on strings: lexicographic on code points. *)
Fixpoint str_leb (a b : str) : bool :=
  match a, b with
  | [], _ => true
  | _ :: _, [] => false
  | x :: a', y :: b' => (x <? y) || ((x =? y) && str_leb a' b')
  end.

(** [ord(t)]: defined on strings of length one. *)
Definition ord (t : str) : result Z :=
  match t with
  | [c] => Ok c
  | _ => Raise TypeError
  end.

Definition count_char (c : char) (t : str) : Z :=
  Z.of_nat (List.length (filter (Z.eqb c) t)).

(** [t.rstrip()], through the reversed string. *)
Fixpoint lstrip (t : str) : str :=
  match t with
  | c :: t' => if isspace c then lstrip t' else t
  | [] => []
  end.

Definition rstrip (t : str) : str := rev (lstrip (rev t)).

(** [t.endswith(c)] for a one-character [c]. *)
Definition endswith (t : str) (c : char) : bool :=
  match rev t with
  | x :: _ => x =? c
  | [] => false
  end.

(** [d.get(k, default)] and [d[k]] on a dict kept in insertion order. *)
Fixpoint dict_get {K V} (eqb : K -> K -> bool) (d : list (K * V)) (k : K) (default : V) : V :=
  match d with
  | [] => default
  | (k', v) :: d' => if eqb k' k then v else dict_get eqb d' k default
  end.

Fixpoint dict_item {K V} (eqb : K -> K -> bool) (d : list (K * V)) (k : K) : result V :=
  match d with
  | [] => Raise KeyError
  | (k', v) :: d' => if eqb k' k then Ok v else dict_item eqb d' k
  end.

(** ** core/normalization.py *)

Definition translit_mapping : list (char * str) :=
  [ (228, str_of "ae");   (* ä *)
    (246, str_of "oe");   (* ö *)
    (252, str_of "ue");   (* ü *)
    (196, str_of "Ae");   (* Ä *)
    (214, str_of "Oe");   (* Ö *)
    (220, str_of "Ue");   (* Ü *)
    (223, str_of "ss") ]. (* ß *)

Definition transliterate_de (text : str) : str :=
  let output_chars :=
    fold_left (fun out ch => out ++ [dict_get Z.eqb translit_mapping ch [ch]]) text [] in
  List.concat output_chars.

Definition visible_len (text : str) : Z :=
  fold_left (fun count ch => if negb (isspace ch) then count + 1 else count) text 0.

(** [re.findall("[A-Za-z]", text)]. *)
(* The source returns a list of one-character strings; it is only counted
   and searched, never read as a text again, and each of its items is given
   here by its code point. *)
Definition letters_only (text : str) : list char :=
  filter is_ascii_letter text.

(** ** core/color_math.py *)

Definition MIN_BYTE : Z := 0.
Definition MAX_BYTE : Z := 255.

Definition clamp_byte (value : Z) : Z :=
  if value <? MIN_BYTE then MIN_BYTE
  else if value >? MAX_BYTE then MAX_BYTE
  else value.

Definition hex_digit (d : Z) : ascii :=
  if d <? 10 then ascii_of_N (Z.to_N (48 + d)) else ascii_of_N (Z.to_N (55 + d)).

(** The upper-case hexadecimal digits of [n >= 0], most significant first;
    no digit for [0]. *)
Fixpoint hex_digits (fuel : nat) (n : Z) (acc : string) : string :=
  match fuel with
  | O => acc
  | S fuel' =>
      if n =? 0 then acc
      else hex_digits fuel' (n / 16) (String (hex_digit (n mod 16)) acc)
  end.

(** [format(n, "02X")]: sign, then the digits padded with zeros to a total
    width of two. *)
Definition format_02X (n : Z) : string :=
  let m := Z.abs n in
  let digits := if m =? 0 then "0"%string else hex_digits (S (Z.to_nat (Z.log2 m))) m EmptyString in
  if n <? 0 then String "-" digits
  else if Nat.ltb (String.length digits) 2 then String "0" digits
  else digits.

Definition rgb_to_hex (red green blue : Z) : string :=
  String "#" (format_02X red ++ format_02X green ++ format_02X blue).

(** ** config/color_naming_config.py *)

Record HueBand (F : Type) := {
  start_inclusive : F;
  end_exclusive : F;
  band_name : string
}.
Arguments start_inclusive {F}.
Arguments end_exclusive {F}.
Arguments band_name {F}.

Definition DEFAULT_HUE_NAME : string := "pinkish".

Section ColorMath.
Context {F : Type} {A : Arith F}.

Definition HSV_BLACK_VALUE_MAX : F := dec 12 100.
Definition HSV_WHITE_VALUE_MIN : F := dec 92 100.
Definition HSV_WHITE_SAT_MAX : F := dec 15 100.
Definition HSV_GRAY_SAT_MAX : F := dec 12 100.
Definition DEGREES_FULL_CIRCLE : F := of_Z 360.

Definition band (lo hi : Z) (n : string) : HueBand F :=
  {| start_inclusive := of_Z lo; end_exclusive := of_Z hi; band_name := n |}.

Definition HUE_BANDS : list (HueBand F) :=
  [ band 0 12 "red";
    band 12 35 "orange";
    band 35 55 "yellow";
    band 55 85 "lime";
    band 85 165 "green";
    band 165 200 "cyan";
    band 200 250 "blue";
    band 250 285 "indigo";
    band 285 320 "purple";
    band 320 350 "magenta" ].

(** [max(a, b, c)] and [min(a, b, c)] on floats: the first extremal item. *)
Definition fmax3 (a b c : F) : F :=
  let m := if b >! a then b else a in
  if c >! m then c else m.

Definition fmin3 (a b c : F) : F :=
  let m := if b <! a then b else a in
  if c <! m then c else m.

(** [x % 1.0] for [-1 < x < 1], the only values [rgb_to_hsv] applies it to:
    the remainder takes the sign of the divisor. *)
Definition mod_one (x : F) : F :=
  if x <! of_Z 0 then x +! of_Z 1 else x.

(** [colorsys.rgb_to_hsv] of the Python standard library. *)
Definition rgb_to_hsv (r g b : F) : F * F * F :=
  let maxc := fmax3 r g b in
  let minc := fmin3 r g b in
  let rangec := maxc -! minc in
  let v := maxc in
  if minc ==! maxc then (of_Z 0, of_Z 0, v)
  else
    let sat := rangec /! maxc in
    let rc := (maxc -! r) /! rangec in
    let gc := (maxc -! g) /! rangec in
    let bc := (maxc -! b) /! rangec in
    let h :=
      if r ==! maxc then bc -! gc
      else if g ==! maxc then of_Z 2 +! rc -! bc
      else of_Z 4 +! gc -! rc in
    (mod_one (h /! of_Z 6), sat, v).

(** The loop over the bands: the first band that holds the hue names it. *)
Fixpoint hue_band_name (bands : list (HueBand F)) (hue_degrees : F) : string :=
  match bands with
  | [] => DEFAULT_HUE_NAME
  | b :: bands' =>
      if (start_inclusive b <=! hue_degrees) && (hue_degrees <! end_exclusive b)
      then band_name b
      else hue_band_name bands' hue_degrees
  end.

Definition hue_degrees_of (red green blue : Z) : F :=
  let '(hue_fraction, _, _) :=
    rgb_to_hsv (of_Z red /! of_Z MAX_BYTE) (of_Z green /! of_Z MAX_BYTE)
               (of_Z blue /! of_Z MAX_BYTE) in
  hue_fraction *! DEGREES_FULL_CIRCLE.

Definition approx_color_name (red green blue : Z) : string :=
  let red_norm := of_Z red /! of_Z MAX_BYTE in
  let green_norm := of_Z green /! of_Z MAX_BYTE in
  let blue_norm := of_Z blue /! of_Z MAX_BYTE in
  let '(hue_fraction, saturation, value) := rgb_to_hsv red_norm green_norm blue_norm in
  let hue_degrees := hue_fraction *! DEGREES_FULL_CIRCLE in
  if value <! HSV_BLACK_VALUE_MAX then "black"%string
  else if (value >! HSV_WHITE_VALUE_MIN) && (saturation <! HSV_WHITE_SAT_MAX)
  then "white"%string
  else if saturation <! HSV_GRAY_SAT_MAX then "gray"%string
  else hue_band_name HUE_BANDS hue_degrees.

Definition apply_saturation (c : RGB) (saturation_multiplier : F) : RGB :=
  let '(red_in, green_in, blue_in) := c in
  let mean_value := of_Z (red_in + green_in + blue_in) /! of_Z 3 in
  let adjust (channel : Z) : Z :=
    let adjusted_float := mean_value +! (of_Z channel -! mean_value) *! saturation_multiplier in
    let adjusted_int := fround adjusted_float in
    clamp_byte adjusted_int in
  (adjust red_in, adjust green_in, adjust blue_in).

Definition apply_brightness (c : RGB) (brightness_multiplier : F) : RGB :=
  let '(red_in, green_in, blue_in) := c in
  let adjust (channel : Z) : Z :=
    let adjusted_float := of_Z channel *! brightness_multiplier in
    let adjusted_int := fround adjusted_float in
    clamp_byte adjusted_int in
  (adjust red_in, adjust green_in, adjust blue_in).

End ColorMath.

(** ** config/overrides_config.py *)

Definition OVERRIDE_COLOR_RGB : list (string * RGB) :=
  [ ("rot", (255, 0, 0)); ("gruen", (0, 255, 0)); ("blau", (0, 0, 255));
    ("gelb", (255, 255, 0)); ("orange", (255, 165, 0)); ("lila", (180, 0, 255));
    ("violett", (148, 0, 211)); ("magenta", (255, 0, 255)); ("pink", (255, 105, 180));
    ("tuerkis", (64, 224, 208)); ("cyan", (0, 255, 255)); ("braun", (150, 75, 0));
    ("grau", (128, 128, 128)); ("weiss", (255, 255, 255)); ("schwarz", (0, 0, 0));
    ("gold", (212, 175, 55)); ("silber", (192, 192, 192)); ("bronze", (205, 127, 50));
    ("kupfer", (184, 115, 51)); ("messing", (181, 166, 66));
    ("beige", (245, 245, 220)); ("oliv", (128, 128, 0)); ("mint", (170, 255, 195));
    ("khaki", (195, 176, 145)) ]%string.

Definition OVERRIDE_COLOR_STEMS : list (string * list string) :=
  [ ("rot", ["rot"; "roet"]); ("gruen", ["gruen"]); ("blau", ["blau"; "blaeu"]);
    ("gelb", ["gelb"]); ("braun", ["braun"; "braeun"]); ("orange", ["orange"]);
    ("lila", ["lila"]); ("violett", ["violett"]); ("magenta", ["magenta"]);
    ("pink", ["pink"]); ("tuerkis", ["tuerkis"]); ("cyan", ["cyan"]);
    ("grau", ["grau"]); ("weiss", ["weiss"]); ("schwarz", ["schwarz"]);
    ("gold", ["gold"]); ("silber", ["silber"; "silbern"]);
    ("bronze", ["bronze"; "bronzen"]); ("kupfer", ["kupfer"]);
    ("messing", ["messing"]); ("beige", ["beige"]); ("oliv", ["oliv"]);
    ("mint", ["mint"]); ("khaki", ["khaki"]) ]%string.

Definition BASE_WORD_SUFFIX_KEY : str := [].

Definition OVERRIDE_SUFFIX_WEIGHTS {F} `{Arith F} : list (str * F) :=
  [ (str_of "", dec 70 100);
    (str_of "farben", dec 60 100);
    (str_of "farbig", dec 60 100);
    (str_of "stichig", dec 50 100);
    (str_of "lich", dec 35 100) ].

(** ** The environment of a call

    What the code takes from outside the repository and this file does not
    fix: the Unicode tables of the [re] module beyond ASCII, and the remote
    name lookup. *)

Inductive lookup_outcome (F : Type) : Type :=
| Info (display_name : string) (distance : F)   (* a ColorNameInfo *)
| ApiError.                                     (* ValueError, RuntimeError, HTTPError *)
Arguments Info {F} display_name distance.
Arguments ApiError {F}.

Record Runtime (F : Type) := {
  (* does [\w] hold of this code point >= 128 ? *)
  re_word : char -> bool;
  (* does this pattern letter match this code point >= 128 under IGNORECASE ? *)
  re_fold : char -> char -> bool;
  (* [get_color_name_from_hex], [None] when its import fails *)
  pizza_lookup : option (string -> lookup_outcome F)
}.
Arguments re_word {F}.
Arguments re_fold {F}.
Arguments pizza_lookup {F}.

(** ** core/overrides.py *)

Section Overrides.
Context {F : Type} {A : Arith F}.
Variable env : Runtime F.

Definition ascii_lower (c : char) : char := if is_ascii_upper c then c + 32 else c.

(** [\w] *)
Definition is_word (c : char) : bool :=
  if c <? 128 then is_ascii_letter c || is_ascii_digit c || (c =? 95)
  else re_word env c.

(** A letter of a stem or suffix against one character of the text, under
    [re.IGNORECASE]. *)
Definition ci_match (p c : char) : bool :=
  if c <? 128 then ascii_lower c =? ascii_lower p else re_fold env p c.

(** A literal at the head of the text: what is left after it. *)
Fixpoint match_literal (pat text : str) : option str :=
  match pat, text with
  | [], _ => Some text
  | p :: pat', c :: text' => if ci_match p c then match_literal pat' text' else None
  | _ :: _, [] => None
  end.

Definition SUFFIX_ALTERNATIVES : list str :=
  [ str_of "farben"; str_of "farbig"; str_of "stichig"; str_of "lich" ].

(** The optional group [(farben|farbig|stichig|lich)?]: the text it
    captured, if any, and what is left. *)
Fixpoint match_group (alts : list str) (text : str) : option str * str :=
  match alts with
  | [] => (None, text)
  | alt :: alts' =>
      match match_literal alt text with
      | Some rest => (Some (firstn (List.length alt) text), rest)
      | None => match_group alts' text
      end
  end.

(** [\w*] *)
Fixpoint word_run (text : str) : nat :=
  match text with
  | c :: text' => if is_word c then S (word_run text') else O
  | [] => O
  end.

(** [stem(farben|farbig|stichig|lich)?\w*] at the head of the text: group 1
    and the length of the match. *)
Definition match_here (stem text : str) : option (option str * nat) :=
  match match_literal stem text with
  | None => None
  | Some after_stem =>
      let '(group1, after_group) := match_group SUFFIX_ALTERNATIVES after_stem in
      Some (group1,
            (List.length text - List.length after_group + word_run after_group)%nat)
  end.

Definition is_word_opt (c : option char) : bool :=
  match c with Some x => is_word x | None => false end.

(** [pattern.finditer(text)] for [\b<stem>(...)?\w*]: group 1 of each match,
    left to right.  [prev] is the character before the head of [text],
    [skip] the number of characters the last match still covers. *)
Fixpoint finditer_from (stem : str) (prev : option char) (skip : nat) (text : str)
  : list (option str) :=
  match text with
  | [] => []
  | c :: rest =>
      match skip with
      | S k => finditer_from stem (Some c) k rest
      | O =>
          if xorb (is_word_opt prev) (is_word c) then
            match match_here stem text with
            | Some (group1, len) => group1 :: finditer_from stem (Some c) (Nat.pred len) rest
            | None => finditer_from stem (Some c) O rest
            end
          else finditer_from stem (Some c) O rest
      end
  end.

Definition finditer (stem text : str) : list (option str) :=
  finditer_from stem None O text.

(** [_compile_color_patterns]: one pattern per stem, in dict order. *)
Definition _compile_color_patterns (stems_by_key : list (string * list string))
  : list (string * str) :=
  flat_map (fun '(color_key, stems) => map (fun stem => (color_key, str_of stem)) stems)
           stems_by_key.

Definition _COLOR_PATTERNS : list (string * str) :=
  _compile_color_patterns OVERRIDE_COLOR_STEMS.

Record Sums := {
  sum_red : F;
  sum_green : F;
  sum_blue : F;
  sum_weight : F;
  match_count : Z
}.

(** The body of the inner loop of [find_override_and_weight]. *)
Definition accumulate (color_key : string) (acc : Sums) (raw_suffix : option str)
  : result Sums :=
  let suffix := match raw_suffix with
                | Some t => str_lower t
                | None => BASE_WORD_SUFFIX_KEY
                end in
  base <- dict_item str_eqb OVERRIDE_SUFFIX_WEIGHTS BASE_WORD_SUFFIX_KEY ;;
  let weight_for_match := dict_get str_eqb OVERRIDE_SUFFIX_WEIGHTS suffix base in
  rgb_for_match <- dict_item String.eqb OVERRIDE_COLOR_RGB color_key ;;
  let '(r, g, b) := rgb_for_match in
  Ok {| sum_red := sum_red acc +! of_Z r;
        sum_green := sum_green acc +! of_Z g;
        sum_blue := sum_blue acc +! of_Z b;
        sum_weight := sum_weight acc +! weight_for_match;
        match_count := match_count acc + 1 |}.

Fixpoint for_each {X S} (body : S -> X -> result S) (items : list X) (st : S) : result S :=
  match items with
  | [] => Ok st
  | x :: items' => st' <- body st x ;; for_each body items' st'
  end.

Definition find_override_and_weight (text_trans : str) : result (option (RGB * F)) :=
  let start := {| sum_red := of_Z 0; sum_green := of_Z 0; sum_blue := of_Z 0;
                  sum_weight := of_Z 0; match_count := 0 |} in
  sums <- for_each (fun acc '(color_key, stem) =>
                      for_each (accumulate color_key) (finditer stem text_trans) acc)
                   _COLOR_PATTERNS start ;;
  if match_count sums =? 0 then Ok None
  else
    let avg_red := fround (sum_red sums /! of_Z (match_count sums)) in
    let avg_green := fround (sum_green sums /! of_Z (match_count sums)) in
    let avg_blue := fround (sum_blue sums /! of_Z (match_count sums)) in
    let avg_weight := sum_weight sums /! of_Z (match_count sums) in
    base_weight <- dict_item str_eqb OVERRIDE_SUFFIX_WEIGHTS BASE_WORD_SUFFIX_KEY ;;
    let avg_weight :=
      if avg_weight <! of_Z 0 then of_Z 0
      else if avg_weight >! base_weight then base_weight
      else avg_weight in
    Ok (Some ((avg_red, avg_green, avg_blue), avg_weight)).

End Overrides.

(** ** core/engine.py *)

Section Engine.
Context {F : Type} {A : Arith F}.
Variable env : Runtime F.

Definition _to_byte_0_1 (value : F) : Z :=
  let clamped := if value <! of_Z 0 then of_Z 0
                 else if value >! of_Z 1 then of_Z 1 else value in
  let scaled := clamped *! of_Z 255 in
  fround scaled.

Definition _length_floor_target (visible_count : Z) : Z :=
  if visible_count <=? short_visible_max LENGTH_FLOOR then bright_at_short LENGTH_FLOOR
  else if visible_count >=? long_visible_min LENGTH_FLOOR then bright_at_long LENGTH_FLOOR
  else
    let delta := visible_count - short_visible_max LENGTH_FLOOR in
    (* int(round(n)) of an integer n is n *)
    bright_at_short LENGTH_FLOOR - linear_step LENGTH_FLOOR * delta.

Definition _apply_length_floor (c : RGB) (base_count : Z) (cfg : ComputeConfig) : RGB :=
  if negb (apply_length_floor cfg) || (base_count <=? 0) then c
  else
    let '(red, green, blue) := c in
    let current_max := Z.max (Z.max red green) blue in
    let target_max := _length_floor_target base_count in
    if (current_max <=? 0) || (current_max >=? target_max) then c
    else
      let factor := of_Z target_max /! of_Z current_max in
      let red_out := Z.min 255 (fround (of_Z red *! factor)) in
      let green_out := Z.min 255 (fround (of_Z green *! factor)) in
      let blue_out := Z.min 255 (fround (of_Z blue *! factor)) in
      (red_out, green_out, blue_out).

Definition _luminance_255 (c : RGB) : F :=
  let '(r, g, b) := c in
  let red := of_Z r in
  let green := of_Z g in
  let blue := of_Z b in
  dec 2126 10000 *! red +! dec 7152 10000 *! green +! dec 722 10000 *! blue.

Definition punctuation_score (original_text : str) : Z :=
  let count_excl := count_char 33 original_text in
  let count_quest := count_char 63 original_text in
  let score := weight_exclamation PUNCT * count_excl + weight_question PUNCT * count_quest in
  let tail := rstrip original_text in
  let score :=
    if endswith tail 33 then score + end_bonus PUNCT
    else if endswith tail 63 then score - end_bonus PUNCT
    else score in
  if score <? score_min PUNCT then score_min PUNCT
  else if score >? score_max PUNCT then score_max PUNCT
  else score.

Definition _punctuation_multipliers (original_text : str) : F * F :=
  let score := punctuation_score original_text in
  let brightness_multiplier := of_Z 1 +! bright_per_score PUNCT *! of_Z score in
  let saturation_multiplier := of_Z 1 +! sat_per_score PUNCT *! of_Z score in
  (brightness_multiplier, saturation_multiplier).

Definition count_in (set : str) (letters : list char) : Z :=
  Z.of_nat (List.length (filter (fun ch => existsb (Z.eqb ch) set) letters)).

Definition _compute_rgb_freq (text_trans : str) (den : Denominator.t) : RGB * Z :=
  let '(letters, base_count) :=
    match den with
    | Denominator.VISIBLE => (letters_only text_trans, visible_len text_trans)
    | Denominator.LETTERS =>
        let letters := letters_only text_trans in
        (letters, Z.of_nat (List.length letters))
    | Denominator.RGB_HITS =>
        let letters := letters_only text_trans in
        let hits := count_in (str_of "rRgGbB") letters in
        (letters, Z.max 1 hits)
    end in
  let red_count := count_in (str_of "rR") letters in
  let green_count := count_in (str_of "gG") letters in
  let blue_count := count_in (str_of "bB") letters in
  let ratio (n : Z) : F := if base_count >? 0 then of_Z n /! of_Z base_count else of_Z 0 in
  ((_to_byte_0_1 (ratio red_count), _to_byte_0_1 (ratio green_count),
    _to_byte_0_1 (ratio blue_count)), base_count).

Definition _letter_index (letter : char) : result (option Z) :=
  let lower := py_lower letter in
  if str_leb (str_of "a") lower && str_leb lower (str_of "z") then
    code <- ord lower ;; Ok (Some (code - 97))
  else Ok None.

Inductive anchor_key := R | G | B.

Definition anchor_key_eqb (a b : anchor_key) : bool :=
  match a, b with
  | R, R | G, G | B, B => true
  | _, _ => false
  end.

Definition _nearest_anchor_keys (alpha_index : Z) : list anchor_key :=
  let distances :=
    map (fun '(key, idx) =>
           let forward := (alpha_index - idx) mod 26 in
           let backward := (idx - alpha_index) mod 26 in
           let distance := if forward <? backward then forward else backward in
           (key, distance))
        [ (R, index_r ANCHOR); (G, index_g ANCHOR); (B, index_b ANCHOR) ] in
  let best_distance := match map snd distances with
                       | d :: ds => fold_left Z.min ds d
                       | [] => 0
                       end in
  map fst (filter (fun '(_, d) => d =? best_distance) distances).

(** The dict [counts]. *)
Record Counts := { count_R : F; count_G : F; count_B : F }.

Definition add_share (counts : Counts) (key : anchor_key) (share : F) : Counts :=
  match key with
  | R => {| count_R := count_R counts +! share; count_G := count_G counts; count_B := count_B counts |}
  | G => {| count_R := count_R counts; count_G := count_G counts +! share; count_B := count_B counts |}
  | B => {| count_R := count_R counts; count_G := count_G counts; count_B := count_B counts +! share |}
  end.

(** The body of the loop over the characters. *)
Definition anchor_step (counts : Counts) (ch : char) : result Counts :=
  idx_opt <- _letter_index ch ;;
  match idx_opt with
  | None => Ok counts
  | Some idx =>
      let winners := _nearest_anchor_keys idx in
      let share := of_Z 1 /! of_Z (Z.of_nat (List.length winners)) in
      Ok (fold_left (fun cs key => add_share cs key share) winners counts)
  end.

Definition anchor_counts (text_trans : str) : result Counts :=
  for_each anchor_step text_trans
           {| count_R := of_Z 0; count_G := of_Z 0; count_B := of_Z 0 |}.

Definition _compute_rgb_anchor (text_trans : str) : result RGB :=
  counts <- anchor_counts text_trans ;;
  let red_sum := count_R counts in
  let green_sum := count_G counts in
  let blue_sum := count_B counts in
  let maximum := fmax3 red_sum green_sum blue_sum in
  if maximum ==! of_Z 0 then Ok (0, 0, 0)
  else
    let scale := of_Z 255 /! maximum in
    let red := fround (red_sum *! scale) in
    let green := fround (green_sum *! scale) in
    let blue := fround (blue_sum *! scale) in
    Ok (red, green, blue).

Definition _blend_override (c : RGB) (text_trans : str) : result RGB :=
  found <- find_override_and_weight env text_trans ;;
  match found with
  | None => Ok c
  | Some (override_rgb, weight) =>
      let '(r, g, b) := c in
      let '(o_r, o_g, o_b) := override_rgb in
      let red := fround ((of_Z 1 -! weight) *! of_Z r +! weight *! of_Z o_r) in
      let green := fround ((of_Z 1 -! weight) *! of_Z g +! weight *! of_Z o_g) in
      let blue := fround ((of_Z 1 -! weight) *! of_Z b +! weight *! of_Z o_b) in
      Ok (red, green, blue)
  end.

Definition _apply_punctuation (c : RGB) (original_text : str) (cfg : ComputeConfig) : RGB :=
  if negb (punctuation_mods cfg) then c
  else
    let base_luminance := _luminance_255 c in
    let '(brightness_multiplier, saturation_multiplier) :=
      _punctuation_multipliers original_text in
    let after_sat := apply_saturation c saturation_multiplier in
    let after_bright := apply_brightness after_sat brightness_multiplier in
    let new_luminance := _luminance_255 after_bright in
    if (brightness_multiplier <! of_Z 1) && (new_luminance >! base_luminance)
       && (new_luminance >! of_Z 0)
    then
      let scale_down := base_luminance /! new_luminance in
      apply_brightness after_bright scale_down
    else if (brightness_multiplier >! of_Z 1) && (base_luminance >! new_luminance)
            && (new_luminance >! of_Z 0)
    then
      let scale_up := base_luminance /! new_luminance in
      apply_brightness after_bright scale_up
    else after_bright.

Definition api_distance_max : F := of_Z 20.

Definition _resolve_display_name (hex_code : string) (c : RGB) : string :=
  let '(r, g, b) := c in
  match pizza_lookup env with
  | None => approx_color_name r g b
  | Some lookup =>
      match lookup hex_code with
      | Info display_name distance =>
          if distance <=! api_distance_max then display_name
          else approx_color_name r g b
      | ApiError => approx_color_name r g b
      end
  end.

Definition compute_color (text : str) (cfg : ComputeConfig) : result ComputeResult :=
  let original_text := text in
  let text_trans := transliterate_de text in
  base_rgb <-
    match mode cfg with
    | ComputeMode.FREQ =>
        let '(base_rgb, base_count) := _compute_rgb_freq text_trans (denominator cfg) in
        Ok (_apply_length_floor base_rgb base_count cfg)
    | ComputeMode.ANCHOR => _compute_rgb_anchor text_trans
    end ;;
  with_override <- _blend_override base_rgb text_trans ;;
  let with_punct := _apply_punctuation with_override original_text cfg in
  let '(r, g, b) := with_punct in
  let hex_code := rgb_to_hex r g b in
  let display_name := _resolve_display_name hex_code with_punct in
  Ok {| rgb := with_punct; hex := hex_code; name := display_name |}.

End Engine.

(** ** net/color_api.py *)

(** [t.strip()], which this module and tts/tts_gtts.py call. *)
Definition strip (t : str) : str := rstrip (lstrip t).

Definition HEX_DIGITS : str := str_of "0123456789abcdefABCDEF".

(** [t.upper()] on the strings [_normalize_hex] applies it to: they hold
    hexadecimal digits only. *)
Definition ascii_upper (c : char) : char := if is_ascii_lower c then c - 32 else c.

(** [None] stands for the [ValueError] the function raises. *)
Definition _normalize_hex (hex_code : str) : option str :=
  let raw := strip hex_code in
  let cleaned := match raw with
                 | 35 :: rest => rest   (* raw[1:] if raw.startswith("#") *)
                 | _ => raw
                 end in
  let cleaned := strip cleaned in
  if negb (Nat.eqb (List.length cleaned) 6)
     || existsb (fun ch => negb (existsb (Z.eqb ch) HEX_DIGITS)) cleaned
  then None
  else Some (35 :: map ascii_upper cleaned).

(** ** tts/tts_gtts.py *)

Section Gtts.
(* [ch.isalnum()] for a code point >= 128 *)
Variable uni_alnum : char -> bool.

Definition isalnum (c : char) : bool :=
  if c <? 128 then is_ascii_letter c || is_ascii_digit c else uni_alnum c.

Definition _prepare_text_for_gtts (text : str) : str :=
  let stripped := strip text in
  let has_alnum := existsb isalnum stripped in
  if negb (Nat.eqb (List.length stripped) 0) && has_alnum then stripped
  else str_of "Hallo.".

End Gtts.

(** * Vocabulary of the properties *)

(** A channel value of one byte, and a colour of three. *)
Definition byte (z : Z) : Prop := 0 <= z <= 255.
Definition bytes (c : RGB) : Prop :=
  let '(r, g, b) := c in byte r /\ byte g /\ byte b.

Definition red_of (c : RGB) : Z := fst (fst c).
Definition green_of (c : RGB) : Z := snd (fst c).
Definition blue_of (c : RGB) : Z := snd c.

(** The colour of a result, or the exception. *)
Definition rgb_of (r : result ComputeResult) : result RGB :=
  res <- r ;; Ok (rgb res).

(** A configuration with the punctuation switch set. *)
Definition with_punctuation (b : bool) (cfg : ComputeConfig) : ComputeConfig :=
  {| denominator := denominator cfg;
     punctuation_mods := b;
     apply_length_floor := apply_length_floor cfg;
     mode := mode cfg |}.

(** What reaches the punctuation stage: steps 1 to 4 of [compute_color]. *)
Definition before_punctuation {F} {A : Arith F} (env : Runtime F) (text : str)
  (cfg : ComputeConfig) : result RGB :=
  let text_trans := transliterate_de text in
  base_rgb <-
    match mode cfg with
    | ComputeMode.FREQ =>
        let '(base_rgb, base_count) := _compute_rgb_freq text_trans (denominator cfg) in
        Ok (_apply_length_floor base_rgb base_count cfg)
    | ComputeMode.ANCHOR => _compute_rgb_anchor text_trans
    end ;;
  _blend_override env base_rgb text_trans.

(** An environment without remote lookup, enough for ASCII texts. *)
Definition plain_env {F} : Runtime F :=
  {| re_word := fun _ => false; re_fold := fun _ _ => false; pizza_lookup := None |}.

Definition run64 (env : Runtime float) (text : str) (cfg : ComputeConfig)
  : result ComputeResult :=
  compute_color (A := binary64) env text cfg.

(** *** Normalizer *)

(** What the specification says of one character: the seven accented
    letters have a two-letter ASCII image, any other character is its own
    image. *)
Definition translit_image (c : char) : str :=
  if c =? 228 then str_of "ae"
  else if c =? 246 then str_of "oe"
  else if c =? 252 then str_of "ue"
  else if c =? 196 then str_of "Ae"
  else if c =? 214 then str_of "Oe"
  else if c =? 220 then str_of "Ue"
  else if c =? 223 then str_of "ss"
  else [c].

(** *** Hex encoding *)

(** The sixteen upper-case hexadecimal digits. *)
Definition hex_alphabet : string := "0123456789ABCDEF".

Definition hex_char (d : Z) : ascii :=
  match String.get (Z.to_nat d) hex_alphabet with
  | Some a => a
  | None => "?"%char
  end.

(** A channel as two hexadecimal digits, the high one first. *)
Definition two_hex_digits (c : Z) : string :=
  String (hex_char (c / 16)) (String (hex_char (c mod 16)) EmptyString).

(** The "#RRGGBB" encoding of a colour. *)
Definition RRGGBB (c : RGB) : string :=
  let '(r, g, b) := c in
  String "#" (two_hex_digits r ++ two_hex_digits g ++ two_hex_digits b).

(** *** Hue bands *)

Definition in_band {F} {A : Arith F} (b : HueBand F) (h : F) : bool :=
  (start_inclusive b <=! h) && (h <! end_exclusive b).

(** The three tests that [approx_color_name] makes before the hue lookup
    all fail: the colour is neither black, nor white, nor gray. *)
Definition reaches_hue_lookup {F} {A : Arith F} (red green blue : Z) : bool :=
  let '(_, saturation, value) :=
    rgb_to_hsv (of_Z red /! of_Z MAX_BYTE) (of_Z green /! of_Z MAX_BYTE)
               (of_Z blue /! of_Z MAX_BYTE) in
  negb (value <! HSV_BLACK_VALUE_MAX)
  && negb ((value >! HSV_WHITE_VALUE_MIN) && (saturation <! HSV_WHITE_SAT_MAX))
  && negb (saturation <! HSV_GRAY_SAT_MAX).

(** *** Anchor mode *)

(** Does the anchor scan count this character as a letter? *)
Definition anchor_letter (c : char) : bool :=
  match _letter_index c with
  | Ok (Some _) => true
  | _ => false
  end.

Definition letters_seen (t : str) : Z := Z.of_nat (List.length (filter anchor_letter t)).

(** *** Override resolver *)

(** Every match of every pattern, in the order the loops visit them: the
    colour key of the pattern and group 1 of the match.  Nothing is removed:
    a word that occurs twice is matched twice, and two stems that match the
    same word give two matches. *)
Definition all_matches {F} (env : Runtime F) (text_trans : str)
  : list (string * option str) :=
  flat_map (fun '(color_key, stem) =>
              map (fun group1 => (color_key, group1)) (finditer env stem text_trans))
           _COLOR_PATTERNS.

(** The target colour of a colour key. *)
Definition target_of (color_key : string) : RGB :=
  match dict_item String.eqb OVERRIDE_COLOR_RGB color_key with
  | Ok c => c
  | Raise _ => (0, 0, 0)
  end.

(** The blend weight of a match, from the text its suffix group captured:
    0.70 for the bare word. *)
Definition suffix_weight {F} {A : Arith F} (group1 : option str) : F :=
  let suffix := match group1 with
                | Some t => str_lower t
                | None => BASE_WORD_SUFFIX_KEY
                end in
  dict_get str_eqb OVERRIDE_SUFFIX_WEIGHTS suffix (dec 70 100).

(** The sum of a list of floats as a loop [s += x] from [0.0] computes it. *)
Definition fsum {F} {A : Arith F} (l : list F) : F := fold_left fadd l (of_Z 0).

(** The mean of a non-empty list of floats: that sum divided by the count. *)
Definition fmean {F} {A : Arith F} (l : list F) : F :=
  fsum l /! of_Z (Z.of_nat (List.length l)).

Definition reds {F} {A : Arith F} (ms : list (string * option str)) : list F :=
  map (fun m => of_Z (red_of (target_of (fst m)))) ms.

Definition greens {F} {A : Arith F} (ms : list (string * option str)) : list F :=
  map (fun m => of_Z (green_of (target_of (fst m)))) ms.

Definition blues {F} {A : Arith F} (ms : list (string * option str)) : list F :=
  map (fun m => of_Z (blue_of (target_of (fst m)))) ms.

Definition weights {F} {A : Arith F} (ms : list (string * option str)) : list F :=
  map (fun m => suffix_weight (snd m)) ms.

(** [x] clamped to [0, 0.70]. *)
Definition clamp_weight {F} {A : Arith F} (x : F) : F :=
  if x <! of_Z 0 then of_Z 0
  else if x >! dec 70 100 then dec 70 100
  else x.

(** The colour and the weight the claim describes, for a non-empty list of
    matches. *)
Definition mean_override {F} {A : Arith F} (ms : list (string * option str)) : RGB * F :=
  ((fround (fmean (reds ms)), fround (fmean (greens ms)), fround (fmean (blues ms))),
   clamp_weight (fmean (weights ms))).

Definition known_key (color_key : string) : bool :=
  match dict_item String.eqb OVERRIDE_COLOR_RGB color_key with
  | Ok (r, g, b) => in_range 0 255 r && in_range 0 255 g && in_range 0 255 b
  | Raise _ => false
  end.

(** *** Inputs of the concrete runs *)

(** The text "magenta r!" *)
Definition magenta_r_bang : str := str_of "magenta r!".

Definition anchor_config : ComputeConfig :=
  {| denominator := Denominator.VISIBLE;
     punctuation_mods := true;
     apply_length_floor := true;
     mode := ComputeMode.ANCHOR |}.

(** The text "rxxx" followed by thirty hyphens: 34 visible characters, 4
    letters. *)
Definition rxxx_dashes : str := str_of "rxxx" ++ repeat 45 30.

Definition letters_floor_config : ComputeConfig :=
  {| denominator := Denominator.LETTERS;
     punctuation_mods := false;
     apply_length_floor := true;
     mode := ComputeMode.FREQ |}.

(** *** Vocabulary of the further properties *)

(** One of the seven letters of the transliteration table. *)
Definition accented (c : char) : bool :=
  existsb (Z.eqb c) [228; 246; 252; 196; 214; 220; 223].

Definition count_accented (t : str) : Z := Z.of_nat (List.length (filter accented t)).

(** The last character of a text that is not white space, if any: the head
    of the reversed text once its white space is stripped. *)
Definition last_visible (t : str) : option char :=
  match lstrip (rev t) with
  | x :: _ => Some x
  | [] => None
  end.

(** The largest channel, as [_apply_length_floor] takes it. *)
Definition peak (c : RGB) : Z := let '(r, g, b) := c in Z.max (Z.max r g) b.

(** The names [approx_color_name] can give. *)
Definition LOCAL_NAMES : list string :=
  [ "black"; "white"; "gray"; "red"; "orange"; "yellow"; "lime"; "green"; "cyan"; "blue";
    "indigo"; "purple"; "magenta"; "pinkish" ]%string.

(** The three channel projections. *)
Definition channels : list (RGB -> Z) := [red_of; green_of; blue_of].

(** No pair of channels changes its order from [c] to [c']. *)
Definition order_kept (c c' : RGB) : Prop :=
  forall p q, In p channels -> In q channels -> p c <= q c -> p c' <= q c'.

(** The name of the gray with channel value [v]. *)
Definition gray_name (v : Z) : string :=
  if v <=? 30 then "black" else if 235 <=? v then "white" else "gray".

(** The upper-case hexadecimal digits, as code points. *)
Definition upper_hex (c : char) : bool := in_range 48 57 c || in_range 65 70 c.

(** "#" and six upper-case hexadecimal digits. *)
Definition canonical_hex (h : str) : Prop :=
  exists digits : str, h = 35 :: digits /\ List.length digits = 6%nat
                 /\ Forall (fun c => upper_hex c = true) digits.

(** A text with its ASCII capitals made small. *)
Definition fold_case (t : str) : str := map ascii_lower t.

(** *** Doubles and their values *)

Definition p2 (e : Z) : Q := (2 ^ e)%Q.

Definition fexp64 (k : Z) : Z := Z.max (k - 53) (-1074).

(** [located m l y]: the integer [m] and the location [l] describe the
    non-negative rational [y]: [m <= y < m + 1], and [l] says where. *)
Definition located (m : Z) (l : location) (y : Q) : Prop :=
  match l with
  | loc_Exact => (y == inject_Z m)%Q
  | loc_Inexact c =>
      (inject_Z m < y)%Q /\ (y < inject_Z m + 1)%Q /\ (y ?= inject_Z m + (1 # 2))%Q = c
  end.

Definition rec_located (r : shr_record) (y : Q) : Prop :=
  0 <= shr_m r /\ located (shr_m r) (loc_of_shr_record r) y.

(** The value [x] scaled by [2^-e]. *)
Definition scaled (x : Q) (e : Z) : Q := (x * p2 (- e))%Q.

(** The integer significand and the rounded value of a positive [x] of
    magnitude [k] (that is [2^(k-1) <= x < 2^k]). *)
Definition mant (k : Z) (x : Q) : Z := round_half_even (scaled x (fexp64 k)).

Definition rnd_at (k : Z) (x : Q) : Q := (inject_Z (mant k x) * p2 (fexp64 k))%Q.

Definition encode (s : bool) (m3 e3 : Z) : spec_float :=
  match m3 with
  | Z0 => S754_zero s
  | Zpos p => if e3 <=? 971 then S754_finite s p e3 else S754_infinity s
  | Zneg _ => S754_nan
  end.

Definition signed (s : bool) (q : Q) : Q := if s then (- q)%Q else q.

Definition mag (x : Q) : Z :=
  let c := Z.log2 (Qnum x) - Z.log2 (Zpos (Qden x)) in
  if Qle_bool (p2 c) x then c + 1 else c.

Definition rnd_pos (x : Q) : Q := rnd_at (mag x) x.

(** Round to the nearest double, ties to even, without overflow. *)
Definition rnd (x : Q) : Q :=
  match Qnum x with
  | Z0 => 0%Q
  | Zpos _ => rnd_pos x
  | Zneg _ => (- rnd_pos (- x))%Q
  end.

Definition finite_val (f : spec_float) (q : Q) : Prop :=
  exists q', SF2Q f = Some q' /\ (q' == q)%Q.

(** [is_val x q]: the double [x] is finite and its value is [q]. *)
Definition is_val (x : float) (q : Q) : Prop := finite_val (Prim2SF x) q.

(** The sum of a list of integers. *)
Definition Zsum (l : list Z) : Z := fold_right Z.add 0 l.

(** The arithmetic mean of a list of integers, rounded to the nearest
    integer. *)
Definition rounded_mean (l : list Z) : Z :=
  round_half_even (inject_Z (Zsum l) / inject_Z (Z.of_nat (List.length l))).

(** The colour whose channels are the rounded means of the targets of the
    matches. *)
Definition mean_colour (ms : list (string * option str)) : RGB :=
  (rounded_mean (map (fun m => red_of (target_of (fst m))) ms),
   rounded_mean (map (fun m => green_of (target_of (fst m))) ms),
   rounded_mean (map (fun m => blue_of (target_of (fst m))) ms)).

(** A count: a finite double that is zero or at least one half, and at most
    [2^53], where adding a share does not change it any more. *)
Definition count_ok (x : float) (q : Q) : Prop :=
  is_val x q /\ ((q == 0)%Q \/ (1 # 2 <= q)%Q) /\ (q <= inject_Z (2 ^ 53))%Q.

(** The three counts, and whether a letter has been counted. *)
Definition counts_ok (cs : Counts (F := float)) (seen : bool) : Prop :=
  exists qR qG qB,
    count_ok (count_R cs) qR /\ count_ok (count_G cs) qG /\ count_ok (count_B cs) qB
    /\ (seen = true -> (1 # 2 <= qR)%Q \/ (1 # 2 <= qG)%Q \/ (1 # 2 <= qB)%Q)
    /\ (seen = false -> (qR == 0)%Q /\ (qG == 0)%Q /\ (qB == 0)%Q).

(** Texts of up to [2^39] (about 5.5e11) characters.  On much longer texts
    the sums of the override resolver leave the range in which doubles hold
    integers exactly, and the mean of bytes need not be a byte any more. *)
Definition MAX_TEXT : Z := 2 ^ 39.

(** * Properties *)

Ltac double_arith :=
  cbn [of_Z fadd fsub fmul fdiv fltb fleb feqb fround binary64] in *.

(** ** Rounding and comparison on exact rationals *)

Lemma round_half_even_lower (q : Q) (a : Z) :
  (inject_Z a <= q)%Q -> a <= round_half_even q.
Proof.
  destruct q as [n d]; unfold Qle, round_half_even; cbn [Qnum Qden inject_Z]; intros H.
  assert (a <= n / Zpos d) by (apply Z.div_le_lower_bound; lia).
  destruct (2 * (n mod Zpos d) ?= Zpos d); [destruct (Z.even _)|..]; lia.
Qed.

Lemma round_half_even_upper (q : Q) (b : Z) :
  (q <= inject_Z b)%Q -> round_half_even q <= b.
Proof.
  destruct q as [n d]; unfold Qle, round_half_even; cbn [Qnum Qden inject_Z]; intros H.
  pose proof (Z.div_mod n (Zpos d) ltac:(lia)) as E.
  pose proof (Z.mod_pos_bound n (Zpos d) ltac:(lia)) as Hm.
  assert (n / Zpos d <= b) by (apply Z.div_le_upper_bound; lia).
  assert (n / Zpos d = b -> n mod Zpos d = 0) by nia.
  destruct (Z.compare_spec (2 * (n mod Zpos d)) (Zpos d)); [destruct (Z.even _)|..]; lia.
Qed.

Lemma round_half_even_inject (z : Z) : round_half_even (inject_Z z) = z.
Proof.
  unfold round_half_even; cbn [Qnum Qden inject_Z]. rewrite Z.mod_1_r, Z.div_1_r. reflexivity.
Qed.

Lemma round_half_even_compat (p q : Q) :
  (p == q)%Q -> round_half_even p = round_half_even q.
Proof.
  destruct p as [n d], q as [n' d']; unfold Qeq, round_half_even; cbn [Qnum Qden]; intros H.
  assert (Hdiv : n / Zpos d = n' / Zpos d').
  { rewrite <- (Z.div_mul_cancel_r n (Zpos d) (Zpos d')) by lia.
    rewrite H, (Z.mul_comm (Zpos d)). apply Z.div_mul_cancel_r; lia. }
  pose proof (Z.div_mod n (Zpos d) ltac:(lia)) as E.
  pose proof (Z.div_mod n' (Zpos d') ltac:(lia)) as E'.
  rewrite <- Hdiv in *.
  assert (Hmod : (n mod Zpos d) * Zpos d' = (n' mod Zpos d') * Zpos d) by nia.
  destruct (Z.compare_spec (2 * (n mod Zpos d)) (Zpos d)),
           (Z.compare_spec (2 * (n' mod Zpos d')) (Zpos d')); try reflexivity; exfalso; nia.
Qed.

Lemma round_half_even_integer (q : Q) (z : Z) :
  (q == inject_Z z)%Q -> round_half_even q = z.
Proof. intros H. rewrite (round_half_even_compat _ _ H). apply round_half_even_inject. Qed.

Lemma Qltb_true (x y : Q) : Qltb x y = true <-> (x < y)%Q.
Proof.
  unfold Qltb. rewrite Qlt_alt. destruct (x ?= y)%Q; split; congruence.
Qed.

Lemma Qltb_false (x y : Q) : Qltb x y = false <-> (y <= x)%Q.
Proof.
  rewrite <- not_true_iff_false, Qltb_true. split; [apply Qnot_lt_le | apply Qle_not_lt].
Qed.

Lemma Qadd_nonneg (a b : Q) : (0 <= a)%Q -> (0 <= b)%Q -> (0 <= a + b)%Q.
Proof.
  intros Ha Hb. setoid_replace 0%Q with (0 + 0)%Q by reflexivity.
  now apply Qplus_le_compat.
Qed.

Lemma clamp_byte_byte (z : Z) : byte (clamp_byte z).
Proof.
  unfold clamp_byte, byte, MIN_BYTE, MAX_BYTE.
  destruct (Z.ltb_spec z 0); [lia|]. destruct (Z.gtb_spec z 255); lia.
Qed.

Lemma clamp_byte_id (z : Z) : byte z -> clamp_byte z = z.
Proof.
  unfold clamp_byte, byte, MIN_BYTE, MAX_BYTE. intros H.
  destruct (Z.ltb_spec z 0); [lia|]. destruct (Z.gtb_spec z 255); lia.
Qed.

Lemma round_byte (q : Q) : (0 <= q)%Q -> (q <= 255)%Q -> byte (round_half_even q).
Proof.
  intros H0 H1. split.
  - apply round_half_even_lower. exact H0.
  - apply round_half_even_upper. exact H1.
Qed.

(** ** Normalizer *)

Lemma mapping_get_image (c : char) :
  dict_get Z.eqb translit_mapping c [c] = translit_image c.
Proof.
  unfold translit_image, translit_mapping, dict_get.
  rewrite !(Z.eqb_sym _ c). reflexivity.
Qed.

Lemma output_chars_fold (text : str) (out : list str) :
  fold_left (fun out ch => out ++ [dict_get Z.eqb translit_mapping ch [ch]]) text out
  = out ++ map translit_image text.
Proof.
  revert out; induction text as [|c text IH]; intros out; cbn [fold_left map].
  - now rewrite app_nil_r.
  - rewrite IH, mapping_get_image, <- app_assoc. reflexivity.
Qed.

Lemma transliterate_de_flat_map (text : str) :
  transliterate_de text = flat_map translit_image text.
Proof.
  unfold transliterate_de. rewrite output_chars_fold. simpl.
  now rewrite flat_map_concat_map.
Qed.

Lemma translit_image_other (c : char) :
  ~ In c [228; 246; 252; 196; 214; 220; 223] -> translit_image c = [c].
Proof.
  intros Hc. unfold translit_image.
  repeat match goal with
         | |- context [c =? ?k] =>
             destruct (Z.eqb_spec c k) as [->|_]; [exfalso; apply Hc; simpl; tauto|]
         end.
  reflexivity.
Qed.

(** C8: the transliteration is the concatenation, in the order of the input,
    of the images of its characters; the images of the seven accented letters
    are ae, oe, ue, Ae, Oe, Ue and ss, and every other character is its own
    image. *)
Theorem transliterate_de_images :
  (forall text, transliterate_de text = flat_map translit_image text)
  /\ translit_image 228 = str_of "ae" /\ translit_image 246 = str_of "oe"
  /\ translit_image 252 = str_of "ue" /\ translit_image 196 = str_of "Ae"
  /\ translit_image 214 = str_of "Oe" /\ translit_image 220 = str_of "Ue"
  /\ translit_image 223 = str_of "ss"
  /\ (forall c, ~ In c [228; 246; 252; 196; 214; 220; 223] -> translit_image c = [c]).
Proof.
  split; [exact transliterate_de_flat_map|].
  repeat (split; [reflexivity|]). exact translit_image_other.
Qed.

Lemma transliterate_de_images_witness :
  ~ In 98 [228; 246; 252; 196; 214; 220; 223]
  /\ translit_image 98 = [98]
  /\ transliterate_de [98; 108; 228; 117] = flat_map translit_image [98; 108; 228; 117].
Proof.
  destruct transliterate_de_images as (Hall & _ & _ & _ & _ & _ & _ & _ & Hother).
  assert (H : ~ In 98 [228; 246; 252; 196; 214; 220; 223]) by (simpl; intuition discriminate).
  split; [exact H|]. split; [exact (Hother 98 H) | exact (Hall _)].
Defined.

Example transliterate_blaeulich :
  transliterate_de [98; 108; 228; 117; 108; 105; 99; 104] = str_of "blaeulich"
  /\ transliterate_de [220; 98; 101; 114; 32; 83; 116; 114; 97; 223; 101]
     = str_of "Ueber Strasse".
Proof. split; reflexivity. Qed.

(** ** Length floor *)

Lemma length_floor_target_cases (n : Z) :
  (n <= 6 -> _length_floor_target n = 200)
  /\ (30 <= n -> _length_floor_target n = 80)
  /\ (6 < n < 30 -> _length_floor_target n = 200 - 5 * (n - 6)).
Proof.
  unfold _length_floor_target; simpl.
  destruct (Z.leb_spec n 6), (Z.geb_spec n 30); repeat split; intros; lia.
Qed.

(** Scaling by target/current_max, a factor of at least one. *)
Lemma scale_up_lower (ch cur tgt : Z) :
  0 <= ch -> 0 < cur -> cur <= tgt ->
  (inject_Z ch <= inject_Z ch * (inject_Z tgt / inject_Z cur))%Q.
Proof.
  intros Hch Hcur Htgt.
  assert (Hq : (0 < inject_Z cur)%Q) by (change 0%Q with (inject_Z 0); rewrite <- Zlt_Qlt; exact Hcur).
  setoid_replace (inject_Z ch * (inject_Z tgt / inject_Z cur))%Q
    with ((inject_Z ch * inject_Z tgt) / inject_Z cur)%Q
    by (field; intros E; rewrite E in Hq; discriminate).
  apply Qle_shift_div_l; [exact Hq|].
  rewrite <- !inject_Z_mult, <- Zle_Qle. nia.
Qed.

Lemma length_floor_channel (ch cur tgt : Z) :
  0 <= ch <= 255 -> 0 < cur -> cur <= tgt ->
  ch <= Z.min 255 (round_half_even (inject_Z ch * (inject_Z tgt / inject_Z cur))) <= 255.
Proof.
  intros Hch Hcur Htgt.
  pose proof (round_half_even_lower _ _ (scale_up_lower ch cur tgt (proj1 Hch) Hcur Htgt)).
  lia.
Qed.

(** ** Punctuation *)

Lemma count_char_absent (c : char) (t : str) : ~ In c t -> count_char c t = 0.
Proof.
  intros H. unfold count_char.
  replace (filter (Z.eqb c) t) with (@nil Z); [reflexivity|].
  symmetry. induction t as [|x t IH]; [reflexivity|]. simpl.
  destruct (Z.eqb_spec c x) as [->|_].
  - exfalso. apply H. now left.
  - apply IH. intros Hin. apply H. now right.
Qed.

Lemma lstrip_incl (t : str) (x : char) : In x (lstrip t) -> In x t.
Proof.
  induction t as [|c t IH]; simpl; [tauto|].
  destruct (isspace c); simpl; intuition.
Qed.

Lemma endswith_absent (c : char) (t : str) : ~ In c t -> endswith (rstrip t) c = false.
Proof.
  intros H. unfold endswith, rstrip. rewrite rev_involutive.
  destruct (lstrip (rev t)) as [|x l] eqn:E; [reflexivity|].
  apply Z.eqb_neq. intros ->. apply H, in_rev, lstrip_incl. rewrite E. now left.
Qed.

Lemma punctuation_score_plain {F} {A : Arith F} (t : str) :
  ~ In 33 t -> ~ In 63 t -> punctuation_score (A := A) t = 0.
Proof.
  intros H1 H2. unfold punctuation_score.
  rewrite (count_char_absent 33), (count_char_absent 63) by assumption.
  rewrite (endswith_absent 33), (endswith_absent 63) by assumption.
  reflexivity.
Qed.

Lemma apply_punctuation_bytes {F} {A : Arith F} (c : RGB) (t : str) (cfg : ComputeConfig) :
  punctuation_mods cfg = true -> bytes (_apply_punctuation (A := A) c t cfg).
Proof.
  intros Hp. unfold _apply_punctuation. rewrite Hp. cbn [negb].
  destruct (_punctuation_multipliers t) as [bm sm].
  assert (Hb : forall x m, bytes (apply_brightness (A := A) x m)).
  { intros [[r g] b] m. unfold apply_brightness, bytes.
    repeat split; apply clamp_byte_byte. }
  repeat match goal with |- context [if ?b then _ else _] => destruct b end; apply Hb.
Qed.

(** ** Anchor mode *)

(** An integer index in 0..25 has one nearest anchor, or the two anchors R
    and B (the letter w). *)
Lemma nearest_anchor_keys_cases (i : Z) :
  0 <= i <= 25 ->
  In (_nearest_anchor_keys i) [[R]; [G]; [B]; [R; B]].
Proof.
  intros H.
  assert (Hi : In i [0;1;2;3;4;5;6;7;8;9;10;11;12;13;14;15;16;17;18;19;20;21;22;23;24;25])
    by (simpl; lia).
  simpl in Hi. repeat (destruct Hi as [<-|Hi]; [vm_compute; tauto|]). contradiction.
Qed.

Lemma letter_index_range (c : char) (i : Z) :
  _letter_index c = Ok (Some i) -> 0 <= i <= 25.
Proof.
  unfold _letter_index.
  change (str_of "a") with [97]. change (str_of "z") with [122].
  destruct (py_lower c) as [|x [|y l]]; cbn [str_leb ord bind andb orb].
  - discriminate.
  - destruct (Z.ltb_spec 97 x), (Z.eqb_spec 97 x), (Z.ltb_spec x 122), (Z.eqb_spec x 122);
      cbn [andb orb]; try discriminate; intros [= <-]; lia.
  - match goal with |- (if ?b then _ else _) = _ -> _ => destruct b end; discriminate.
Qed.

Lemma anchor_letter_cases (c : char) :
  anchor_letter c = is_ascii_letter c || (c =? 8490).
Proof.
  unfold anchor_letter, _letter_index, py_lower, is_ascii_letter, is_ascii_upper,
    is_ascii_lower, in_range.
  change (str_of "a") with [97]. change (str_of "z") with [122].
  destruct (Z.leb_spec 65 c), (Z.leb_spec c 90); cbn [andb orb];
    try (destruct (Z.eqb_spec c 8490); [subst; reflexivity|]);
    try (destruct (Z.eqb_spec c 304); [subst; reflexivity|]);
    cbn [str_leb ord bind andb orb];
    repeat match goal with
           | |- context [?a <? ?b] => destruct (Z.ltb_spec a b); cbn [andb orb]
           | |- context [?a =? ?b] => destruct (Z.eqb_spec a b); cbn [andb orb]
           | |- context [?a <=? ?b] => destruct (Z.leb_spec a b); cbn [andb orb]
           end; try reflexivity; lia.
Qed.

Lemma scaled_sum_range (x m : Q) :
  (0 <= x)%Q -> (x <= m)%Q -> (0 < m)%Q ->
  (0 <= x * (inject_Z 255 / m))%Q /\ (x * (inject_Z 255 / m) <= 255)%Q.
Proof.
  intros H0 Hm Hpos.
  assert (Hne : ~ (m == 0)%Q) by (intros E; rewrite E in Hpos; discriminate).
  split.
  - apply Qmult_le_0_compat; [exact H0|].
    apply Qle_shift_div_l; [exact Hpos|]. rewrite Qmult_0_l. discriminate.
  - setoid_replace (x * (inject_Z 255 / m))%Q with ((x * inject_Z 255) / m)%Q by (field; exact Hne).
    apply Qle_shift_div_r; [exact Hpos|].
    rewrite (Qmult_comm 255 m). apply Qmult_le_compat_r; [exact Hm | discriminate].
Qed.

Lemma scaled_max (x m : Q) :
  (x == m)%Q -> (0 < m)%Q -> round_half_even (x * (inject_Z 255 / m)) = 255.
Proof.
  intros E Hpos. apply round_half_even_integer. rewrite E. field.
  intros E0; rewrite E0 in Hpos; discriminate.
Qed.

(** ** Override resolver *)

Lemma for_each_app {X S} (body : S -> X -> result S) (l1 l2 : list X) (st : S) :
  for_each body (l1 ++ l2) st = (st' <- for_each body l1 st ;; for_each body l2 st').
Proof.
  revert st; induction l1 as [|x l1 IH]; intros st; cbn [for_each app bind]; [reflexivity|].
  destruct (body st x); cbn [bind]; [apply IH | reflexivity].
Qed.

Lemma for_each_map {X Y S} (body : S -> Y -> result S) (f : X -> Y) (l : list X) (st : S) :
  for_each body (map f l) st = for_each (fun acc x => body acc (f x)) l st.
Proof.
  revert st; induction l as [|x l IH]; intros st; cbn [for_each map]; [reflexivity|].
  destruct (body st (f x)); cbn [bind]; [apply IH | reflexivity].
Qed.

Lemma nested_loops_flatten {F} {A : Arith F} (env : Runtime F)
  (pats : list (string * str)) (text : str) (st : Sums) :
  for_each (fun acc '(color_key, stem) =>
              for_each (accumulate color_key) (finditer env stem text) acc) pats st
  = for_each (fun acc '(color_key, group1) => accumulate color_key acc group1)
      (flat_map (fun '(color_key, stem) =>
                   map (fun group1 => (color_key, group1)) (finditer env stem text)) pats)
      st.
Proof.
  revert st; induction pats as [|[key stem] pats IH]; intros st;
    cbn [for_each flat_map]; [reflexivity|].
  rewrite for_each_app, for_each_map.
  destruct (for_each _ (finditer env stem text) st); cbn [bind]; [apply IH | reflexivity].
Qed.

Lemma pattern_keys_known : forallb (fun p => known_key (fst p)) _COLOR_PATTERNS = true.
Proof. reflexivity. Qed.

Lemma in_range_byte (z : Z) : in_range 0 255 z = true -> byte z.
Proof. unfold in_range, byte. lia. Qed.

Lemma known_key_target (k : string) :
  known_key k = true ->
  dict_item String.eqb OVERRIDE_COLOR_RGB k = Ok (target_of k) /\ bytes (target_of k).
Proof.
  unfold known_key, target_of.
  destruct (dict_item String.eqb OVERRIDE_COLOR_RGB k) as [[[r g] b]|]; [|discriminate].
  intros H. apply andb_prop in H. destruct H as [H Hb]. apply andb_prop in H.
  destruct H as [Hr Hg]. split; [reflexivity|]. cbn [bytes].
  auto using in_range_byte.
Qed.

Lemma all_matches_keys_known {F} {A : Arith F} (env : Runtime F) (text : str) :
  Forall (fun m => known_key (fst m) = true) (all_matches env text).
Proof.
  unfold all_matches. pose proof pattern_keys_known as H.
  rewrite forallb_forall in H. apply Forall_forall. intros [k g] Hin.
  apply in_flat_map in Hin. destruct Hin as ([k' stem] & Hp & Hm).
  apply in_map_iff in Hm. destruct Hm as (g' & [= <- <-] & _).
  exact (H _ Hp).
Qed.

(** ** The whole pipeline *)

Lemma compute_color_stages {F} {A : Arith F} (env : Runtime F) (text : str) (cfg : ComputeConfig) :
  rgb_of (compute_color env text cfg)
  = (c <- before_punctuation env text cfg ;; Ok (_apply_punctuation c text cfg)).
Proof.
  unfold compute_color, before_punctuation, rgb_of.
  destruct (match mode cfg with ComputeMode.FREQ => _ | ComputeMode.ANCHOR => _ end)
    as [base|e]; cbn [bind]; [|reflexivity].
  destruct (_blend_override env base (transliterate_de text)) as [c|e]; cbn [bind]; [|reflexivity].
  destruct (_apply_punctuation c text cfg) as [[r g] b]. reflexivity.
Qed.

Lemma before_punctuation_ignores_flag {F} {A : Arith F} (env : Runtime F) (text : str)
  (cfg : ComputeConfig) (flag : bool) :
  before_punctuation env text (with_punctuation flag cfg) = before_punctuation env text cfg.
Proof. reflexivity. Qed.

Lemma format_02X_byte (c : Z) : byte c -> format_02X c = two_hex_digits c.
Proof.
  intros [H0 H1].
  assert (Hall : forallb (fun n => String.eqb (format_02X (Z.of_nat n))
                                              (two_hex_digits (Z.of_nat n)))
                         (seq 0 256) = true) by (vm_compute; reflexivity).
  rewrite forallb_forall in Hall.
  specialize (Hall (Z.to_nat c)). rewrite Z2Nat.id in Hall by exact H0.
  apply String.eqb_eq, Hall, in_seq. lia.
Qed.

(** ** Hue bands, on doubles *)

Lemma SFcompare_antisym (x y : spec_float) (r : comparison) :
  SFcompare x y = Some r -> SFcompare y x = Some (CompOpp r).
Proof.
  destruct x as [sx|sx| |sx mx ex], y as [sy|sy| |sy my ey]; cbn [SFcompare];
    try discriminate; intros [= <-]; try reflexivity;
    try (destruct sx; reflexivity); try (destruct sy; reflexivity);
    try (destruct sx, sy; reflexivity).
  destruct sx, sy; try reflexivity;
    rewrite (Z.compare_antisym ex ey); destruct (ex ?= ey); cbn [CompOpp]; try reflexivity;
    change (Pos.compare_cont Eq my mx) with (Pos.compare my mx);
    change (Pos.compare_cont Eq mx my) with (Pos.compare mx my);
    rewrite (Pos.compare_antisym mx my); destruct (mx ?= my)%positive; reflexivity.
Qed.

Lemma SFleb_trans (x y z : spec_float) :
  SFleb x y = true -> SFleb y z = true -> SFleb x z = true.
Proof.
  unfold SFleb.
  destruct x as [sx|sx| |sx mx ex], y as [sy|sy| |sy my ey], z as [sz|sz| |sz mz ez];
    cbn [SFcompare]; try discriminate; try reflexivity;
    try (destruct sx; try discriminate; try reflexivity;
         destruct sy; try discriminate; try reflexivity;
         destruct sz; try discriminate; try reflexivity; fail);
    try (destruct sx; try discriminate; try reflexivity;
         destruct sy; try discriminate; try reflexivity; fail);
    try (destruct sx; try discriminate; try reflexivity;
         destruct sz; try discriminate; try reflexivity; fail);
    try (destruct sy; try discriminate; try reflexivity;
         destruct sz; try discriminate; try reflexivity; fail).
  all: destruct sx, sy, sz; try discriminate; try reflexivity.
  all: change (Pos.compare_cont Eq) with Pos.compare.
  all: destruct (Z.compare_spec ex ey), (Z.compare_spec ey ez), (Z.compare_spec ex ez);
    cbn [CompOpp]; try discriminate; try reflexivity; try lia; subst.
  all: destruct (Pos.compare_spec mx my), (Pos.compare_spec my mz), (Pos.compare_spec mx mz);
    cbn [CompOpp]; try discriminate; try reflexivity; try lia.
Qed.

Lemma SFleb_not_nan_r (x y : spec_float) : SFleb x y = true -> y <> S754_nan.
Proof. intros H ->. destruct x; discriminate. Qed.

Lemma SFcompare_defined (x y : spec_float) :
  x <> S754_nan -> y <> S754_nan -> exists r, SFcompare x y = Some r.
Proof.
  destruct x, y; intros Hx Hy; try congruence; cbn [SFcompare]; eexists; reflexivity.
Qed.

(** On doubles: if [lo <= h] holds (so [h] is a number) and [h < c] fails
    for a number [c], then [c <= h]. *)
Lemma double_not_lt_ge (lo c h : float) :
  PrimFloat.leb lo h = true -> PrimFloat.leb c c = true ->
  PrimFloat.ltb h c = false -> PrimFloat.leb c h = true.
Proof.
  rewrite !leb_spec, ltb_spec. intros Hlo Hc Hlt.
  apply SFleb_not_nan_r in Hlo. apply SFleb_not_nan_r in Hc.
  destruct (SFcompare_defined _ _ Hlo Hc) as [r Hr].
  unfold SFltb in Hlt. unfold SFleb. rewrite (SFcompare_antisym _ _ _ Hr).
  rewrite Hr in Hlt. destruct r; try discriminate; reflexivity.
Qed.

(** On doubles: [b <= a] and [a <= h] exclude [h < b]. *)
Lemma double_ge_not_lt (a b h : float) :
  PrimFloat.leb a h = true -> PrimFloat.leb b a = true -> PrimFloat.ltb h b = false.
Proof.
  rewrite !leb_spec, ltb_spec. intros Ha Hb.
  pose proof (SFleb_trans _ _ _ Hb Ha) as H.
  unfold SFleb in H. unfold SFltb.
  destruct (SFcompare (Prim2SF b) (Prim2SF h)) as [r|] eqn:E; [|discriminate].
  rewrite (SFcompare_antisym _ _ _ E). destruct r; try discriminate; reflexivity.
Qed.

(** A hue in [0, 350) lies in one of the ten bands and takes its name. *)
Lemma hue_below_350_has_band (h : float) :
  (of_Z 0 <=! h)%py = true -> (h <! of_Z 350)%py = true ->
  exists b, In b (HUE_BANDS (A := binary64)) /\ in_band b h = true
            /\ hue_band_name HUE_BANDS h = band_name b.
Proof.
  intros H0 H350. unfold HUE_BANDS.
  repeat match goal with
  | |- exists b, In b (?x :: ?l) /\ _ /\ hue_band_name (?x :: ?l) h = _ =>
      cbn [hue_band_name];
      let E := fresh "E" in
      destruct ((start_inclusive x <=! h)%py && (h <! end_exclusive x)%py) eqn:E;
      [ exists x; split; [left; reflexivity | split; [exact E | reflexivity]]
      | cut (exists b, In b l /\ in_band b h = true /\ hue_band_name l h = band_name b);
        [ intros (b & Hin & Hb & Hn); exists b; split; [right; exact Hin | split; assumption]
        | apply andb_false_iff in E; destruct E as [E|E];
          [ cbn [start_inclusive band of_Z fleb fltb binary64] in E, H0; congruence
          | cbn [end_exclusive band of_Z fleb fltb binary64] in E, H0;
            match type of E with
            | PrimFloat.ltb h ?c = false =>
                let L := fresh "L" in
                assert (L : PrimFloat.leb c h = true)
                  by (apply (double_not_lt_ge _ c h H0); [reflexivity | exact E]);
                clear H0; rename L into H0
            end ] ] ]
  end.
  cbn [start_inclusive end_exclusive band] in *. double_arith.
  exfalso. pose proof (double_ge_not_lt _ (float_of_Z 350) h H0 eq_refl). congruence.
Qed.

(** A hue of 350 or more lies in no band. *)
Lemma hue_from_350_has_no_band (h : float) :
  (of_Z 350 <=! h)%py = true ->
  hue_band_name (HUE_BANDS (A := binary64)) h = DEFAULT_HUE_NAME.
Proof.
  intros H. double_arith. unfold HUE_BANDS.
  cbn [hue_band_name start_inclusive end_exclusive band]. double_arith.
  repeat match goal with
         | |- context [PrimFloat.ltb h ?c] =>
             rewrite (double_ge_not_lt (float_of_Z 350) c h H eq_refl)
         end.
  rewrite !andb_false_r.
  reflexivity.
Qed.

(** C4, amended: for a colour that reaches the hue lookup, a hue in
    [0, 350) lies in one of the ten bands and the name is that band's; a hue
    of 350 degrees or more lies in no band and the name is "pinkish". *)
Theorem hue_bands_cover_up_to_350 (red green blue : Z) :
  reaches_hue_lookup (A := binary64) red green blue = true ->
  let hue_degrees := hue_degrees_of (A := binary64) red green blue in
  ((of_Z 0 <=! hue_degrees) = true -> (hue_degrees <! of_Z 350) = true ->
   exists b, In b (HUE_BANDS (A := binary64)) /\ in_band b hue_degrees = true
             /\ approx_color_name (A := binary64) red green blue = band_name b)
  /\ ((of_Z 350 <=! hue_degrees) = true ->
      approx_color_name (A := binary64) red green blue = DEFAULT_HUE_NAME).
Proof.
  unfold reaches_hue_lookup, approx_color_name, hue_degrees_of.
  destruct (rgb_to_hsv _ _ _) as [[hue_fraction saturation] value].
  intros H. apply andb_prop in H. destruct H as [H Hgray].
  apply andb_prop in H. destruct H as [Hblack Hwhite].
  apply negb_true_iff in Hblack, Hwhite, Hgray. rewrite Hblack, Hwhite, Hgray.
  split.
  - intros H0 H350. destruct (hue_below_350_has_band _ H0 H350) as (b & Hin & Hb & Hn).
    exists b. auto.
  - apply hue_from_350_has_no_band.
Qed.

Lemma hue_bands_cover_up_to_350_witness :
  reaches_hue_lookup (A := binary64) 0 128 255 = true
  /\ exists b, In b (HUE_BANDS (A := binary64))
               /\ in_band b (hue_degrees_of (A := binary64) 0 128 255) = true
               /\ approx_color_name (A := binary64) 0 128 255 = band_name b.
Proof.
  split; [vm_compute; reflexivity|].
  apply (hue_bands_cover_up_to_350 0 128 255); vm_compute; reflexivity.
Defined.

(** C4, as stated, fails: (255, 0, 30) reaches the hue lookup with a hue of
    about 353 degrees, which no band holds, and is named "pinkish". *)
Lemma pinkish_is_returned :
  reaches_hue_lookup (A := binary64) 255 0 30 = true
  /\ (of_Z 350 <=! hue_degrees_of (A := binary64) 255 0 30) = true
  /\ (hue_degrees_of (A := binary64) 255 0 30 <! of_Z 360) = true
  /\ approx_color_name (A := binary64) 255 0 30 = "pinkish"%string.
Proof. repeat split; vm_compute; reflexivity. Qed.

(** ** Runs on IEEE doubles *)

(** C1: on "magenta r!" with the default configuration the punctuation
    stage receives (234, 56, 178), is asked to brighten (multiplier above 1)
    and returns (255, 39, 255), whose luminance is lower than that of its
    input. *)
Theorem punctuation_brighten_loses_luminance (env : Runtime float) :
  before_punctuation (A := binary64) env magenta_r_bang default_config = Ok (234, 56, 178)
  /\ (fst (_punctuation_multipliers (A := binary64) magenta_r_bang) >! of_Z 1) = true
  /\ _apply_punctuation (A := binary64) (234, 56, 178) magenta_r_bang default_config
     = (255, 39, 255)
  /\ rgb_of (run64 env magenta_r_bang default_config) = Ok (255, 39, 255)
  /\ (_luminance_255 (A := binary64) (255, 39, 255)
      <! _luminance_255 (A := binary64) (234, 56, 178)) = true.
Proof. repeat split; vm_compute; reflexivity. Qed.

(** C2: in anchor mode the one-character text U+0130 (capital I with dot
    above) makes [compute_color] raise TypeError: its lower-case form has two
    code points, passes the "a".."z" test and is handed to [ord]. *)
Theorem compute_color_raises_on_dotted_I (env : Runtime float) :
  py_lower 304 = [105; 775]
  /\ _letter_index 304 = Raise TypeError
  /\ run64 env [304] anchor_config = Raise TypeError.
Proof. repeat split. Qed.

(** C3: with the letters denominator the target of the length floor comes
    from the base count, not from the visible length: a text of 34 visible
    characters and 4 letters is raised to the peak 200 of a 4-character text
    and not to the peak 80 of a 34-character one. *)
Theorem length_floor_target_follows_base_count (env : Runtime float) :
  visible_len (transliterate_de rxxx_dashes) = 34
  /\ _length_floor_target 34 = 80
  /\ snd (_compute_rgb_freq (A := binary64) (transliterate_de rxxx_dashes) Denominator.LETTERS) = 4
  /\ _length_floor_target 4 = 200
  /\ rgb_of (run64 env rxxx_dashes letters_floor_config) = Ok (200, 0, 0).
Proof. repeat split; vm_compute; reflexivity. Qed.

(** The assertions of tests/test_engine.py, on doubles. *)
Example test_engine_runs :
  rgb_of (run64 plain_env (str_of "ich bin blau")
            {| denominator := Denominator.VISIBLE; punctuation_mods := false;
               apply_length_floor := false; mode := ComputeMode.FREQ |})
  = Ok (0, 0, 194)
  /\ rgb_of (run64 plain_env (str_of "aaa")
               {| denominator := Denominator.VISIBLE; punctuation_mods := false;
                  apply_length_floor := false; mode := ComputeMode.ANCHOR |})
     = Ok (0, 0, 255)
  /\ rgb_of (run64 plain_env (str_of "tttt")
               {| denominator := Denominator.VISIBLE; punctuation_mods := false;
                  apply_length_floor := false; mode := ComputeMode.ANCHOR |})
     = Ok (255, 0, 0)
  /\ rgb_of (run64 plain_env (str_of "rg")
               {| denominator := Denominator.VISIBLE; punctuation_mods := false;
                  apply_length_floor := true; mode := ComputeMode.FREQ |})
     = Ok (200, 200, 0).
Proof. repeat split; vm_compute; reflexivity. Qed.

(** * Doubles: the arithmetic of the program *)

(** ** Powers of two *)

Lemma p2_pos (e : Z) : (0 < p2 e)%Q.
Proof. apply Qpower_0_lt. reflexivity. Qed.

Lemma p2_add (a b : Z) : (p2 (a + b) == p2 a * p2 b)%Q.
Proof. apply Qpower_plus. discriminate. Qed.

Lemma p2_0 : (p2 0 == 1)%Q.
Proof. reflexivity. Qed.

Lemma p2_1 : (p2 1 == 2)%Q.
Proof. reflexivity. Qed.

Lemma p2_succ (a : Z) : (p2 (a + 1) == 2 * p2 a)%Q.
Proof. rewrite p2_add, p2_1. ring. Qed.

Lemma p2_pred (a : Z) : (p2 (a - 1) == p2 a / 2)%Q.
Proof.
  assert (E : (p2 a == p2 (a - 1 + 1))%Q) by (replace (a - 1 + 1) with a by lia; reflexivity).
  rewrite E, p2_succ. field.
Qed.

Lemma p2_inject (a : Z) : 0 <= a -> (p2 a == inject_Z (2 ^ a))%Q.
Proof. intros H. unfold p2. rewrite Zpower_Qpower by exact H. reflexivity. Qed.

Lemma p2_le (a b : Z) : a <= b -> (p2 a <= p2 b)%Q.
Proof. intros H. apply Qpower_le_compat_l; [exact H | discriminate]. Qed.

Lemma p2_lt (a b : Z) : a < b -> (p2 a < p2 b)%Q.
Proof. intros H. apply Qpower_lt_compat_l; [exact H | reflexivity]. Qed.

Lemma p2_lt_inv (a b : Z) : (p2 a < p2 b)%Q -> a < b.
Proof. intros H. apply (Qpower_lt_compat_l_inv 2); [exact H | reflexivity]. Qed.

Lemma p2_le_inv (a b : Z) : (p2 a <= p2 b)%Q -> a <= b.
Proof. intros H. apply (Qpower_le_compat_l_inv 2); [exact H | reflexivity]. Qed.

Lemma p2_opp (a : Z) : (p2 (- a) == / p2 a)%Q.
Proof. apply Qpower_opp. Qed.

Lemma p2_sub (a b : Z) : (p2 (a - b) == p2 a / p2 b)%Q.
Proof.
  replace (a - b) with (a + - b) by lia. rewrite p2_add, p2_opp. reflexivity.
Qed.

Lemma p2_cancel (a : Z) : (p2 a * p2 (- a) == 1)%Q.
Proof. rewrite <- p2_add. replace (a + - a) with 0 by lia. reflexivity. Qed.

(** ** Number of binary digits *)

Lemma digits2_pos_spec (m : positive) :
  2 ^ (Zpos (digits2_pos m) - 1) <= Zpos m < 2 ^ Zpos (digits2_pos m).
Proof.
  induction m as [m IH|m IH|]; cbn [digits2_pos].
  - rewrite Pos2Z.inj_succ. replace (Z.succ (Zpos (digits2_pos m)) - 1)
      with (Z.succ (Zpos (digits2_pos m) - 1)) by lia.
    rewrite !Z.pow_succ_r by lia. lia.
  - rewrite Pos2Z.inj_succ. replace (Z.succ (Zpos (digits2_pos m)) - 1)
      with (Z.succ (Zpos (digits2_pos m) - 1)) by lia.
    rewrite !Z.pow_succ_r by lia. lia.
  - cbn. lia.
Qed.

Lemma Zdigits2_spec (m : Z) :
  0 < m -> 2 ^ (Zdigits2 m - 1) <= m < 2 ^ Zdigits2 m.
Proof.
  destruct m as [|p|p]; try lia. intros _. apply digits2_pos_spec.
Qed.

Lemma Zdigits2_pos (m : Z) : 0 < m -> 0 < Zdigits2 m.
Proof. destruct m; cbn; lia. Qed.

(** A positive integer between two powers of two has that many digits. *)
Lemma Zdigits2_unique (m d : Z) :
  2 ^ (d - 1) <= m < 2 ^ d -> 0 < d -> Zdigits2 m = d.
Proof.
  intros [H1 H2] Hd.
  assert (Hm : 0 < m) by (pose proof (Z.pow_pos_nonneg 2 (d - 1) ltac:(lia) ltac:(lia)); lia).
  pose proof (Zdigits2_spec m Hm) as [K1 K2]. pose proof (Zdigits2_pos m Hm) as Kd.
  destruct (Z.lt_trichotomy (Zdigits2 m) d) as [L|[E|L]]; [exfalso|exact E|exfalso].
  - assert (2 ^ Zdigits2 m <= 2 ^ (d - 1)) by (apply Z.pow_le_mono_r; lia). lia.
  - assert (2 ^ d <= 2 ^ (Zdigits2 m - 1)) by (apply Z.pow_le_mono_r; lia). lia.
Qed.

(** ** Truncation with a location *)

Lemma Qcompare_Lt (x y : Q) : (x ?= y)%Q = Lt <-> (x < y)%Q.
Proof. symmetry. apply Qlt_alt. Qed.

Lemma Qcompare_Gt (x y : Q) : (x ?= y)%Q = Gt <-> (y < x)%Q.
Proof. symmetry. apply Qgt_alt. Qed.

Lemma Qcompare_Eq (x y : Q) : (x ?= y)%Q = Eq <-> (x == y)%Q.
Proof. symmetry. apply Qeq_alt. Qed.

Lemma inject_Z_xO (p : positive) : (inject_Z (Zpos p~0) == 2 * inject_Z (Zpos p))%Q.
Proof. unfold Qeq. cbn. lia. Qed.

Lemma inject_Z_xI (p : positive) : (inject_Z (Zpos p~1) == 2 * inject_Z (Zpos p) + 1)%Q.
Proof. unfold Qeq. cbn. lia. Qed.

Ltac cmp_facts :=
  repeat match goal with
         | H : (_ ?= _)%Q = Lt |- _ => apply (proj1 (Qcompare_Lt _ _)) in H
         | H : (_ ?= _)%Q = Gt |- _ => apply (proj1 (Qcompare_Gt _ _)) in H
         | H : (_ ?= _)%Q = Eq |- _ => apply (proj1 (Qcompare_Eq _ _)) in H
         | |- (_ ?= _)%Q = Lt => apply (proj2 (Qcompare_Lt _ _))
         | |- (_ ?= _)%Q = Gt => apply (proj2 (Qcompare_Gt _ _))
         | |- (_ ?= _)%Q = Eq => apply (proj2 (Qcompare_Eq _ _))
         end.

Lemma shr_1_located (r : shr_record) (y : Q) :
  rec_located r y -> rec_located (shr_1 r) (y * (1 # 2))%Q.
Proof.
  destruct r as [m rb sb]. unfold rec_located. cbn [shr_m]. intros [Hm H].
  destruct m as [|p|p]; [| |lia].
  - change (inject_Z 0) with 0%Q in *.
    destruct rb, sb; cbn [shr_1 shr_m shr_r shr_s loc_of_shr_record located orb] in H |- *; (split; [lia|]);
      change (inject_Z 0) with 0%Q in *;
      repeat match goal with H : _ /\ _ |- _ => destruct H end; cmp_facts;
      repeat split; cmp_facts; lra.
  - destruct p as [p|p|].
    + pose proof (inject_Z_xI p) as E. set (a := inject_Z (Zpos p)) in *.
      set (b := inject_Z (Zpos p~1)) in *.
      destruct rb, sb; cbn [shr_1 shr_m shr_r shr_s loc_of_shr_record located orb] in H |- *; (split; [lia|]); fold a; fold b in H;
        repeat match goal with H : _ /\ _ |- _ => destruct H end; cmp_facts;
        repeat split; cmp_facts; lra.
    + pose proof (inject_Z_xO p) as E. set (a := inject_Z (Zpos p)) in *.
      set (b := inject_Z (Zpos p~0)) in *.
      destruct rb, sb; cbn [shr_1 shr_m shr_r shr_s loc_of_shr_record located orb] in H |- *; (split; [lia|]); fold a; fold b in H;
        repeat match goal with H : _ /\ _ |- _ => destruct H end; cmp_facts;
        repeat split; cmp_facts; lra.
    + change (inject_Z 1) with 1%Q in *.
      destruct rb, sb; cbn [shr_1 shr_m shr_r shr_s loc_of_shr_record located orb] in H |- *; (split; [lia|]);
        change (inject_Z 0) with 0%Q in *; change (inject_Z 1) with 1%Q in *;
        repeat match goal with H : _ /\ _ |- _ => destruct H end; cmp_facts;
        repeat split; cmp_facts; lra.
Qed.

Lemma located_compat (m : Z) (l : location) (y y' : Q) :
  (y == y')%Q -> located m l y -> located m l y'.
Proof.
  intros E. destruct l as [|c]; cbn [located].
  - intros H. rewrite <- E. exact H.
  - intros (H1 & H2 & H3). rewrite <- E. auto.
Qed.

Lemma rec_located_compat (r : shr_record) (y y' : Q) :
  (y == y')%Q -> rec_located r y -> rec_located r y'.
Proof. intros E [H1 H2]. split; [exact H1 | exact (located_compat _ _ _ _ E H2)]. Qed.

Lemma p2_neg_double (n : positive) :
  (p2 (- Zpos n~0) == p2 (- Zpos n) * p2 (- Zpos n))%Q.
Proof. rewrite <- p2_add. replace (- Zpos n~0) with (- Zpos n + - Zpos n) by lia. reflexivity. Qed.

Lemma p2_neg_1 : (p2 (-1) == 1 # 2)%Q.
Proof. reflexivity. Qed.

Lemma iter_shr_located (n : positive) :
  forall r y, rec_located r y -> rec_located (iter_pos shr_1 n r) (y * p2 (- Zpos n))%Q.
Proof.
  induction n as [n IH|n IH|]; intros r y H; cbn [iter_pos].
  - apply (rec_located_compat _ (y * (1 # 2) * p2 (- Zpos n) * p2 (- Zpos n))%Q).
    + replace (- Zpos n~1) with (- Zpos n~0 + -1) by lia.
      rewrite p2_add, p2_neg_double, p2_neg_1. ring.
    + apply IH, IH, shr_1_located, H.
  - apply (rec_located_compat _ (y * p2 (- Zpos n) * p2 (- Zpos n))%Q).
    + rewrite p2_neg_double. ring.
    + apply IH, IH, H.
  - apply (rec_located_compat _ (y * (1 # 2))%Q).
    + reflexivity.
    + apply shr_1_located, H.
Qed.

Lemma shr_located (r : shr_record) (e n : Z) (y : Q) :
  rec_located r y ->
  snd (shr r e n) = e + Z.max n 0
  /\ rec_located (fst (shr r e n)) (y * p2 (e - snd (shr r e n)))%Q.
Proof.
  intros H. destruct n as [|n|n]; cbn [shr fst snd].
  - split; [lia|]. apply (rec_located_compat _ y); [|exact H].
    replace (e - e) with 0 by lia. rewrite p2_0. ring.
  - split; [lia|]. replace (e - (e + Zpos n)) with (- Zpos n) by lia.
    apply iter_shr_located, H.
  - split; [lia|]. apply (rec_located_compat _ y); [|exact H].
    replace (e - e) with 0 by lia. rewrite p2_0. ring.
Qed.

Lemma fexp_eq (k : Z) : fexp 53 1024 k = fexp64 k.
Proof. reflexivity. Qed.

Lemma record_of_loc (m : Z) (l : location) :
  shr_m (shr_record_of_loc m l) = m /\ loc_of_shr_record (shr_record_of_loc m l) = l.
Proof. destruct l as [|[]]; split; reflexivity. Qed.

Lemma shr_fexp_located (m e : Z) (l : location) (y : Q) :
  0 <= m -> located m l y ->
  snd (shr_fexp 53 1024 m e l) = Z.max e (fexp64 (Zdigits2 m + e))
  /\ rec_located (fst (shr_fexp 53 1024 m e l))
       (y * p2 (e - snd (shr_fexp 53 1024 m e l)))%Q.
Proof.
  intros Hm H. unfold shr_fexp. rewrite fexp_eq.
  assert (R : rec_located (shr_record_of_loc m l) y).
  { destruct (record_of_loc m l) as [E1 E2]. split; rewrite ?E1, ?E2; assumption. }
  destruct (shr_located _ e (fexp64 (Zdigits2 m + e) - e) y R) as [E H'].
  split; [rewrite E; lia | exact H'].
Qed.

(** ** Rounding to the nearest integer, ties to even *)

Lemma round_half_even_near (q : Q) :
  (2 * round_half_even q - 1) * Zpos (Qden q) <= 2 * Qnum q
  <= (2 * round_half_even q + 1) * Zpos (Qden q).
Proof.
  destruct q as [n d]. unfold round_half_even. cbn [Qnum Qden].
  pose proof (Z.div_mod n (Zpos d) ltac:(lia)) as E.
  pose proof (Z.mod_pos_bound n (Zpos d) ltac:(lia)) as Hm.
  set (lo := n / Zpos d) in *. set (r := n mod Zpos d) in *.
  rewrite (Z.mul_comm (Zpos d) lo) in E.
  destruct (Z.compare_spec (2 * r) (Zpos d)); [destruct (Z.even lo)|..]; lia.
Qed.

Lemma round_half_even_unique (q : Q) (r : Z) :
  (inject_Z r - (1 # 2) < q)%Q -> (q < inject_Z r + (1 # 2))%Q -> round_half_even q = r.
Proof.
  intros H1 H2. pose proof (round_half_even_near q) as [K1 K2].
  destruct q as [n d]. unfold Qlt in H1, H2. cbn in H1, H2. cbn [Qnum Qden] in K1, K2.
  set (r' := round_half_even (n # d)) in *. clearbody r'.
  assert (Hd : 0 < Zpos d) by lia. set (D := Zpos d) in *. clearbody D.
  assert (r' < r + 1) by nia. assert (r - 1 < r') by nia. lia.
Qed.

Lemma round_half_even_tie (q : Q) (m : Z) :
  (q == inject_Z m + (1 # 2))%Q ->
  round_half_even q = if Z.even m then m else m + 1.
Proof.
  intros H. destruct q as [n d]. unfold Qeq in H. cbn in H.
  unfold round_half_even. cbn [Qnum Qden].
  assert (Hd : 0 < Zpos d) by lia. set (D := Zpos d) in *. clearbody D.
  assert (E : n / D = m).
  { symmetry. apply (Z.div_unique n D m (n - m * D)); nia. }
  pose proof (Z.div_mod n D ltac:(lia)) as Ed. rewrite E in Ed.
  assert (Em : 2 * (n mod D) = D) by nia.
  rewrite E, Em, Z.compare_refl. reflexivity.
Qed.

#[export] Instance round_half_even_proper : Proper (Qeq ==> eq) round_half_even.
Proof. intros p q H. apply round_half_even_compat, H. Qed.

Lemma round_half_even_monotone (p q : Q) :
  (p <= q)%Q -> round_half_even p <= round_half_even q.
Proof.
  intros H.
  destruct (Z_le_gt_dec (round_half_even p) (round_half_even q)) as [Hle|Hgt]; [exact Hle|].
  exfalso.
  pose proof (round_half_even_near p) as [Hp _].
  pose proof (round_half_even_near q) as [_ Hq].
  assert (Hpq : (p == q)%Q).
  { unfold Qle in H. unfold Qeq.
    set (rp := round_half_even p) in *. set (rq := round_half_even q) in *.
    set (d := Zpos (Qden p)) in *. set (d' := Zpos (Qden q)) in *.
    assert (Hd : 0 < d) by (subst d; lia). assert (Hd' : 0 < d') by (subst d'; lia).
    assert (K1 : (2 * rp - 1) * d * d' <= 2 * Qnum p * d') by (apply Z.mul_le_mono_nonneg_r; lia).
    assert (K2 : 2 * Qnum q * d <= (2 * rq + 1) * d' * d) by (apply Z.mul_le_mono_nonneg_r; lia).
    assert (K3 : (2 * rq + 1) * (d * d') <= (2 * rp - 1) * (d * d'))
      by (apply Z.mul_le_mono_nonneg_r; lia).
    lia. }
  apply round_half_even_compat in Hpq. lia.
Qed.

(** The rounded value as a rational is within one half of the exact one. *)
Lemma round_half_even_error (q : Q) :
  (inject_Z (round_half_even q) - (1 # 2) <= q)%Q
  /\ (q <= inject_Z (round_half_even q) + (1 # 2))%Q.
Proof.
  pose proof (round_half_even_near q) as [K1 K2].
  destruct q as [n d]. cbn [Qnum Qden] in K1, K2.
  set (r := round_half_even (n # d)) in *. clearbody r.
  unfold Qle. cbn. split; lia.
Qed.

Lemma round_nearest_even_located (m : Z) (l : location) (y : Q) :
  located m l y -> round_nearest_even m l = round_half_even y.
Proof.
  destruct l as [|[| |]]; cbn [located round_nearest_even].
  - intros H. symmetry. apply round_half_even_integer, H.
  - intros (H1 & H2 & H3). cmp_facts. symmetry. apply round_half_even_tie, H3.
  - intros (H1 & H2 & H3). cmp_facts. symmetry. apply round_half_even_unique; lra.
  - intros (H1 & H2 & H3). cmp_facts. symmetry. apply round_half_even_unique.
    + rewrite inject_Z_plus. change (inject_Z 1) with 1%Q. lra.
    + rewrite inject_Z_plus. change (inject_Z 1) with 1%Q. lra.
Qed.

(** Location gives the integer part. *)
Lemma located_bounds (m : Z) (l : location) (y : Q) :
  located m l y -> (inject_Z m <= y)%Q /\ (y < inject_Z m + 1)%Q.
Proof.
  destruct l; cbn [located].
  - intros H. rewrite H. lra.
  - intros (H1 & H2 & _). lra.
Qed.

(** ** The rounding step of the operations *)

Lemma floor_unique (q : Q) (a b : Z) :
  (inject_Z a <= q)%Q -> (q < inject_Z a + 1)%Q ->
  (inject_Z b <= q)%Q -> (q < inject_Z b + 1)%Q -> a = b.
Proof.
  intros H1 H2 H3 H4.
  assert (K1 : (inject_Z a < inject_Z (b + 1))%Q)
    by (rewrite inject_Z_plus; change (inject_Z 1) with 1%Q; lra).
  assert (K2 : (inject_Z b < inject_Z (a + 1))%Q)
    by (rewrite inject_Z_plus; change (inject_Z 1) with 1%Q; lra).
  rewrite <- Zlt_Qlt in K1, K2. lia.
Qed.

Lemma mag_unique (x : Q) (k k' : Z) :
  (p2 (k - 1) <= x)%Q -> (x < p2 k)%Q -> (p2 (k' - 1) <= x)%Q -> (x < p2 k')%Q -> k = k'.
Proof.
  intros H1 H2 H3 H4.
  assert (K1 : k - 1 < k') by (apply p2_lt_inv; lra).
  assert (K2 : k' - 1 < k) by (apply p2_lt_inv; lra).
  lia.
Qed.

Lemma scaled_le (x : Q) (a e : Z) : (p2 a <= x)%Q -> (p2 (a - e) <= scaled x e)%Q.
Proof.
  intros H. unfold scaled. replace (a - e) with (a + - e) by lia. rewrite p2_add.
  apply Qmult_le_compat_r; [exact H | apply Qlt_le_weak, p2_pos].
Qed.

Lemma scaled_lt (x : Q) (a e : Z) : (x < p2 a)%Q -> (scaled x e < p2 (a - e))%Q.
Proof.
  intros H. unfold scaled. replace (a - e) with (a + - e) by lia. rewrite p2_add.
  apply Qmult_lt_compat_r; [apply p2_pos | exact H].
Qed.

Lemma scaled_back (x : Q) (e : Z) : (scaled x e * p2 e == x)%Q.
Proof.
  unfold scaled. rewrite <- Qmult_assoc, (Qmult_comm (p2 (- e))), p2_cancel. ring.
Qed.

Lemma scaled_scaled (x : Q) (e e' : Z) : (scaled x e * p2 (e - e') == scaled x e')%Q.
Proof.
  unfold scaled. replace (e - e') with (e + - e') by lia.
  rewrite p2_add. pose proof (p2_cancel e) as C.
  setoid_replace (x * p2 (- e) * (p2 e * p2 (- e')))%Q
    with (x * (p2 e * p2 (- e)) * p2 (- e'))%Q by ring.
  rewrite C. ring.
Qed.

(** The magnitude of a located value. *)
Lemma located_mag (m e k : Z) (l : location) (x : Q) :
  0 <= m -> located m l (scaled x e) ->
  (p2 (k - 1) <= x)%Q -> (x < p2 k)%Q ->
  e <= fexp64 (Zdigits2 m + e) ->
  fexp64 (Zdigits2 m + e) = fexp64 k.
Proof.
  intros Hm H K1 K2 He. apply located_bounds in H. destruct H as [B1 B2].
  destruct (Z.eq_dec m 0) as [->|Hm0].
  - cbn [Zdigits2] in *. change (inject_Z 0) with 0%Q in B2.
    assert (X : (x < p2 e)%Q).
    { rewrite <- (scaled_back x e). setoid_replace (p2 e) with (1 * p2 e)%Q at 2 by ring.
      apply Qmult_lt_compat_r; [apply p2_pos | lra]. }
    assert (k - 1 < e) by (apply p2_lt_inv; lra).
    unfold fexp64 in *. lia.
  - assert (Hpos : 0 < m) by lia.
    pose proof (Zdigits2_spec m Hpos) as [D1 D2]. pose proof (Zdigits2_pos m Hpos) as Dp.
    set (d := Zdigits2 m) in *.
    assert (Y1 : (p2 (d - 1) <= scaled x e)%Q).
    { rewrite p2_inject by lia. apply Qle_trans with (inject_Z m); [|exact B1].
      rewrite <- Zle_Qle. exact D1. }
    assert (Y2 : (scaled x e < p2 d)%Q).
    { rewrite p2_inject by lia. apply Qlt_le_trans with (inject_Z m + 1)%Q; [exact B2|].
      change 1%Q with (inject_Z 1). rewrite <- inject_Z_plus, <- Zle_Qle. lia. }
    assert (X1 : (p2 (d + e - 1) <= x)%Q).
    { rewrite <- (scaled_back x e). replace (d + e - 1) with (d - 1 + e) by lia.
      rewrite p2_add. apply Qmult_le_compat_r; [exact Y1 | apply Qlt_le_weak, p2_pos]. }
    assert (X2 : (x < p2 (d + e))%Q).
    { rewrite <- (scaled_back x e). rewrite p2_add.
      apply Qmult_lt_compat_r; [apply p2_pos | exact Y2]. }
    rewrite (mag_unique x k (d + e) K1 K2 X1 X2). reflexivity.
Qed.

Lemma mant_bounds (k : Z) (x : Q) :
  (p2 (k - 1) <= x)%Q -> (x < p2 k)%Q ->
  0 <= mant k x <= 2 ^ 53 /\ (-1074 < fexp64 k -> 2 ^ 52 <= mant k x).
Proof.
  intros K1 K2. unfold mant. set (e1 := fexp64 k).
  assert (He : k - e1 <= 53) by (unfold e1, fexp64; lia).
  assert (Y0 : (0 <= scaled x e1)%Q).
  { unfold scaled. apply Qmult_le_0_compat; [|apply Qlt_le_weak, p2_pos].
    apply Qle_trans with (p2 (k - 1)); [apply Qlt_le_weak, p2_pos | exact K1]. }
  assert (Y2 : (scaled x e1 <= inject_Z (2 ^ 53))%Q).
  { rewrite <- p2_inject by lia. apply Qlt_le_weak.
    apply Qlt_le_trans with (p2 (k - e1)); [apply scaled_lt, K2 | apply p2_le; lia]. }
  repeat split.
  - rewrite <- (round_half_even_inject 0). apply round_half_even_monotone. exact Y0.
  - rewrite <- (round_half_even_inject (2 ^ 53)). apply round_half_even_monotone. exact Y2.
  - intros Hn. assert (Ee : e1 = k - 53) by (unfold e1, fexp64 in *; lia).
    rewrite <- (round_half_even_inject (2 ^ 52)). apply round_half_even_monotone.
    rewrite <- p2_inject by lia. replace 52 with (k - 1 - e1) by lia.
    apply scaled_le, K1.
Qed.

Lemma fexp64_ge (k : Z) : -1074 <= fexp64 k.
Proof. unfold fexp64. lia. Qed.

Lemma renormalize (m2 e1 : Z) :
  0 <= m2 <= 2 ^ 53 -> -1074 <= e1 -> (-1074 < e1 -> 2 ^ 52 <= m2) ->
  exists m3 e3,
    shr_m (fst (shr_fexp 53 1024 m2 e1 loc_Exact)) = m3
    /\ snd (shr_fexp 53 1024 m2 e1 loc_Exact) = e3
    /\ 0 <= m3 < 2 ^ 53
    /\ (inject_Z m3 * p2 e3 == inject_Z m2 * p2 e1)%Q
    /\ (0 < m3 -> fexp64 (Zdigits2 m3 + e3) = e3)
    /\ (m2 = 0 -> m3 = 0) /\ (0 < m2 -> 0 < m3).
Proof.
  intros Hm He Hn.
  assert (L : located m2 loc_Exact (inject_Z m2)) by (cbn; reflexivity).
  destruct (shr_fexp_located m2 e1 loc_Exact (inject_Z m2) ltac:(lia) L) as [Es [Hm3 Hl]].
  apply located_bounds in Hl. destruct Hl as [B1 B2].
  set (r := shr_fexp 53 1024 m2 e1 loc_Exact) in *.
  exists (shr_m (fst r)), (snd r). split; [reflexivity|]. split; [reflexivity|].
  destruct (Z.eq_dec m2 0) as [E0|N0]; [|destruct (Z.eq_dec m2 (2 ^ 53)) as [E53|N53]].
  - subst m2. cbn [Zdigits2] in Es.
    assert (Es' : snd r = e1) by (rewrite Es; unfold fexp64; lia).
    rewrite Es' in *. replace (e1 - e1) with 0 in B1, B2 by lia.
    assert (Em : shr_m (fst r) = 0).
    { apply (floor_unique (inject_Z 0 * p2 0)); try assumption.
      - change (inject_Z 0 * p2 0)%Q with (0 * 1)%Q. change (inject_Z 0) with 0%Q. lra.
      - change (inject_Z 0 * p2 0)%Q with (0 * 1)%Q. change (inject_Z 0) with 0%Q. lra. }
    rewrite Em. repeat split; try lia; try reflexivity.
  - rewrite E53 in *. change (Zdigits2 (2 ^ 53)) with 54 in Es.
    assert (Es' : snd r = e1 + 1) by (rewrite Es; unfold fexp64; lia).
    rewrite Es' in *. replace (e1 - (e1 + 1)) with (-1) in B1, B2 by lia.
    assert (Em : shr_m (fst r) = 2 ^ 52).
    { apply (floor_unique (inject_Z (2 ^ 53) * p2 (-1))); try assumption.
      - apply Qle_lteq. right. reflexivity.
      - assert (X : (inject_Z (2 ^ 53) * p2 (-1) == inject_Z (2 ^ 52))%Q) by reflexivity.
        rewrite X. lra. }
    rewrite Em. repeat split; try lia.
    + rewrite p2_succ. assert (X : (inject_Z (2 ^ 53) == 2 * inject_Z (2 ^ 52))%Q) by reflexivity.
      rewrite X. ring.
    + intros _. change (Zdigits2 (2 ^ 52)) with 53. unfold fexp64. lia.
  - assert (Hpos : 0 < m2) by lia.
    pose proof (Zdigits2_spec m2 Hpos) as [D1 D2]. pose proof (Zdigits2_pos m2 Hpos) as Dp.
    set (d := Zdigits2 m2) in *.
    assert (Hd : d <= 53).
    { destruct (Z_le_gt_dec d 53); [assumption|exfalso].
      assert (2 ^ 53 <= 2 ^ (d - 1)) by (apply Z.pow_le_mono_r; lia). lia. }
    assert (Es' : snd r = e1) by (rewrite Es; unfold fexp64; lia).
    rewrite Es' in *. replace (e1 - e1) with 0 in B1, B2 by lia.
    assert (Em : shr_m (fst r) = m2).
    { apply (floor_unique (inject_Z m2 * p2 0)); try assumption.
      - rewrite p2_0. lra.
      - rewrite p2_0. lra. }
    rewrite Em. repeat split; try lia.
    intros _. fold d. destruct (Z.eq_dec e1 (-1074)) as [->|Hne].
    + unfold fexp64. lia.
    + assert (H52 : 2 ^ 52 <= m2) by (apply Hn; lia).
      assert (Ed : d = 53) by (apply Zdigits2_unique; lia || (split; lia)).
      unfold fexp64. lia.
Qed.

Lemma binary_round_aux_located (s : bool) (m e : Z) (l : location) (x : Q) (k : Z) :
  0 <= m -> located m l (scaled x e) ->
  (p2 (k - 1) <= x)%Q -> (x < p2 k)%Q ->
  e <= fexp64 (Zdigits2 m + e) ->
  exists m3 e3,
    binary_round_aux 53 1024 s m e l = encode s m3 e3
    /\ 0 <= m3 < 2 ^ 53
    /\ (inject_Z m3 * p2 e3 == rnd_at k x)%Q
    /\ (0 < m3 -> fexp64 (Zdigits2 m3 + e3) = e3).
Proof.
  intros Hm L K1 K2 He.
  pose proof (located_mag m e k l x Hm L K1 K2 He) as Ek.
  destruct (shr_fexp_located m e l _ Hm L) as [Es [Hm1 Hl1]].
  unfold binary_round_aux.
  destruct (shr_fexp 53 1024 m e l) as [r1 e1] eqn:E1. cbn [fst snd] in *.
  assert (Ee : e1 = fexp64 k) by lia.
  apply (located_compat _ _ _ (scaled x e1) (scaled_scaled x e e1)) in Hl1.
  rewrite (round_nearest_even_located _ _ _ Hl1). rewrite Ee. fold (mant k x).
  destruct (mant_bounds k x K1 K2) as [Mb Mn].
  destruct (renormalize (mant k x) (fexp64 k) Mb (fexp64_ge k) Mn)
    as (m3 & e3 & R1 & R2 & R3 & R4 & R5 & R6 & R7).
  destruct (shr_fexp 53 1024 (mant k x) (fexp64 k) loc_Exact) as [r2 e2] eqn:E2.
  cbn [fst snd] in *. exists m3, e3. rewrite R1, R2.
  split; [|split; [exact R3|split; [exact R4|exact R5]]].
  unfold encode. destruct m3; reflexivity.
Qed.

(** ** The value of a finite double *)

#[export] Instance signed_proper : Proper (eq ==> Qeq ==> Qeq) signed.
Proof. intros s ? <- q q' H. destruct s; cbn [signed]; rewrite H; reflexivity. Qed.

Lemma SF2Q_finite (s : bool) (m : positive) (e : Z) :
  exists q, SF2Q (S754_finite s m e) = Some q
            /\ (q == signed s (inject_Z (Zpos m) * p2 e))%Q.
Proof.
  cbn [SF2Q]. eexists. split; [reflexivity|].
  assert (Hs : forall z : Q,
             (((if s then Zneg m else Zpos m) # 1) * z == signed s (inject_Z (Zpos m) * z))%Q).
  { intros z. destruct s; cbn [signed].
    - change (Zneg m # 1) with (- inject_Z (Zpos m))%Q. ring.
    - reflexivity. }
  destruct e as [|p|p].
  - rewrite <- Hs. rewrite p2_0. ring.
  - rewrite <- Hs. rewrite p2_inject by lia.
    unfold Qeq. cbn [Qnum Qden Qmult inject_Z]. lia.
  - rewrite <- Hs. unfold p2. cbn [Qpower]. 
    assert (E : (Qpower_positive 2 p == inject_Z (Zpos (2 ^ p)))%Q).
    { rewrite Pos2Z.inj_pow. rewrite Zpower_Qpower by lia. reflexivity. }
    rewrite E. rewrite (Qmake_Qdiv _ (2 ^ p)). 
    destruct s; unfold Qdiv; reflexivity.
Qed.

(** ** Magnitude and rounding to binary64 *)

Lemma mag_spec (x : Q) : (0 < x)%Q -> (p2 (mag x - 1) <= x)%Q /\ (x < p2 (mag x))%Q.
Proof.
  intros Hx. unfold mag.
  assert (Hn : 0 < Qnum x) by (destruct x as [n d]; unfold Qlt in Hx; cbn in *; lia).
  set (a := Z.log2 (Qnum x)). set (b := Z.log2 (Zpos (Qden x))).
  destruct (Z.log2_spec (Qnum x) Hn) as [A1 A2]. fold a in A1, A2.
  destruct (Z.log2_spec (Zpos (Qden x)) ltac:(lia)) as [B1 B2]. fold b in B1, B2.
  pose proof (Z.log2_nonneg (Qnum x)) as A0. fold a in A0.
  pose proof (Z.log2_nonneg (Zpos (Qden x))) as B0. fold b in B0.
  assert (Ex : (x * inject_Z (Zpos (Qden x)) == inject_Z (Qnum x))%Q).
  { destruct x as [n d]. unfold Qeq. cbn. lia. }
  assert (N1 : (p2 a <= inject_Z (Qnum x))%Q) by (rewrite p2_inject by lia; rewrite <- Zle_Qle; lia).
  assert (N2 : (inject_Z (Qnum x) < p2 (a + 1))%Q)
    by (rewrite p2_inject by lia; rewrite <- Zlt_Qlt; rewrite <- Z.add_1_r in A2; lia).
  assert (D1 : (p2 b <= inject_Z (Zpos (Qden x)))%Q) by (rewrite p2_inject by lia; rewrite <- Zle_Qle; lia).
  assert (D2 : (inject_Z (Zpos (Qden x)) < p2 (b + 1))%Q)
    by (rewrite p2_inject by lia; rewrite <- Zlt_Qlt; rewrite <- Z.add_1_r in B2; lia).
  set (D := inject_Z (Zpos (Qden x))) in *. set (N := inject_Z (Qnum x)) in *.
  assert (U : (x < p2 (a - b + 1))%Q).
  { apply (Qmult_lt_r _ _ (p2 b)); [apply p2_pos|]. rewrite <- p2_add.
    replace (a - b + 1 + b) with (a + 1) by lia.
    apply Qle_lt_trans with N; [|exact N2]. rewrite <- Ex.
    apply Qmult_le_l; [exact Hx | exact D1]. }
  assert (Lw : (p2 (a - b - 1) < x)%Q).
  { apply (Qmult_lt_r _ _ (p2 (b + 1))); [apply p2_pos|]. rewrite <- p2_add.
    replace (a - b - 1 + (b + 1)) with a by lia.
    apply Qle_lt_trans with N; [exact N1|]. rewrite <- Ex.
    apply Qmult_lt_l; [exact Hx | exact D2]. }
  destruct (Qle_bool (p2 (a - b)) x) eqn:C.
  - apply Qle_bool_iff in C. replace (a - b + 1 - 1) with (a - b) by lia. split; assumption.
  - split; [apply Qlt_le_weak; exact Lw|].
    apply Qnot_le_lt. intros H. apply Qle_bool_iff in H. congruence.
Qed.

Lemma scaled_compat (x x' : Q) (e : Z) : (x == x')%Q -> (scaled x e == scaled x' e)%Q.
Proof. intros H. unfold scaled. rewrite H. reflexivity. Qed.

Lemma rnd_at_compat (k : Z) (x x' : Q) : (x == x')%Q -> (rnd_at k x == rnd_at k x')%Q.
Proof.
  intros H. unfold rnd_at, mant. rewrite (round_half_even_compat _ _ (scaled_compat _ _ _ H)).
  reflexivity.
Qed.

Lemma mag_compat (x x' : Q) : (0 < x)%Q -> (x == x')%Q -> mag x = mag x'.
Proof.
  intros Hx E. destruct (mag_spec x Hx) as [A1 A2].
  assert (Hx' : (0 < x')%Q) by (rewrite <- E; exact Hx).
  destruct (mag_spec x' Hx') as [B1 B2]. set (k' := mag x') in *. clearbody k'.
  rewrite <- E in B1, B2.
  exact (mag_unique x _ _ A1 A2 B1 B2).
Qed.

Lemma rnd_pos_at (k : Z) (x : Q) :
  (p2 (k - 1) <= x)%Q -> (x < p2 k)%Q -> rnd_pos x = rnd_at k x.
Proof.
  intros K1 K2. unfold rnd_pos.
  assert (Hx : (0 < x)%Q) by (apply Qlt_le_trans with (p2 (k - 1)); [apply p2_pos | exact K1]).
  destruct (mag_spec x Hx) as [A1 A2].
  rewrite (mag_unique x _ _ A1 A2 K1 K2). reflexivity.
Qed.

Lemma rnd_pos_compat (x x' : Q) : (0 < x)%Q -> (x == x')%Q -> (rnd_pos x == rnd_pos x')%Q.
Proof.
  intros Hx E. unfold rnd_pos. rewrite <- (mag_compat x x' Hx E). apply rnd_at_compat, E.
Qed.

Lemma Qnum_pos (x : Q) : (0 < x)%Q <-> 0 < Qnum x.
Proof. destruct x as [n d]. unfold Qlt. cbn. lia. Qed.

Lemma Qnum_neg (x : Q) : (x < 0)%Q <-> Qnum x < 0.
Proof. destruct x as [n d]. unfold Qlt. cbn. lia. Qed.

Lemma Qnum_zero (x : Q) : (x == 0)%Q <-> Qnum x = 0.
Proof. destruct x as [n d]. unfold Qeq. cbn. lia. Qed.

Lemma rnd_of_pos (x : Q) : (0 < x)%Q -> rnd x = rnd_pos x.
Proof. intros H. apply Qnum_pos in H. unfold rnd. destruct (Qnum x); try lia. reflexivity. Qed.

Lemma rnd_of_neg (x : Q) : (x < 0)%Q -> rnd x = (- rnd_pos (- x))%Q.
Proof. intros H. apply Qnum_neg in H. unfold rnd. destruct (Qnum x); try lia. reflexivity. Qed.

Lemma rnd_of_zero (x : Q) : (x == 0)%Q -> rnd x = 0%Q.
Proof. intros H. apply Qnum_zero in H. unfold rnd. rewrite H. reflexivity. Qed.

#[export] Instance rnd_proper : Proper (Qeq ==> Qeq) rnd.
Proof.
  intros x x' E.
  destruct (Q_dec x 0) as [[H|H]|H].
  - rewrite (rnd_of_neg x H). assert (H' : (x' < 0)%Q) by (rewrite <- E; exact H).
    rewrite (rnd_of_neg x' H'). apply Qopp_comp, rnd_pos_compat; [lra | rewrite E; reflexivity].
  - rewrite (rnd_of_pos x H). assert (H' : (0 < x')%Q) by (rewrite <- E; exact H).
    rewrite (rnd_of_pos x' H'). apply rnd_pos_compat; assumption.
  - rewrite (rnd_of_zero x H). assert (H' : (x' == 0)%Q) by (rewrite <- E; exact H).
    rewrite (rnd_of_zero x' H'). reflexivity.
Qed.

Lemma rnd_opp (x : Q) : (rnd (- x) == - rnd x)%Q.
Proof.
  destruct (Q_dec x 0) as [[H|H]|H].
  - rewrite (rnd_of_neg x H), (rnd_of_pos (- x)) by lra. ring.
  - rewrite (rnd_of_pos x H), (rnd_of_neg (- x)) by lra.
    apply Qopp_comp, rnd_pos_compat; [lra | ring].
  - rewrite (rnd_of_zero x H), (rnd_of_zero (- x)) by lra. reflexivity.
Qed.

(** *** Bounds of the rounded value *)

Lemma rnd_at_nonneg (k : Z) (x : Q) : (0 <= x)%Q -> (0 <= rnd_at k x)%Q.
Proof.
  intros H. unfold rnd_at. apply Qmult_le_0_compat; [|apply Qlt_le_weak, p2_pos].
  change 0%Q with (inject_Z 0). rewrite <- Zle_Qle. unfold mant.
  rewrite <- (round_half_even_inject 0). apply round_half_even_monotone.
  unfold scaled. apply Qmult_le_0_compat; [exact H | apply Qlt_le_weak, p2_pos].
Qed.

Lemma rnd_at_upper (k : Z) (x : Q) : (0 <= x)%Q -> (x <= p2 k)%Q -> (rnd_at k x <= p2 k)%Q.
Proof.
  intros K1 K2. unfold rnd_at, mant. set (e1 := fexp64 k).
  destruct (Z_le_gt_dec e1 k) as [Hle|Hgt].
  - assert (E : (p2 k == inject_Z (2 ^ (k - e1)) * p2 e1)%Q).
    { rewrite <- p2_inject by lia. rewrite <- p2_add. replace (k - e1 + e1) with k by lia.
      reflexivity. }
    rewrite E. apply Qmult_le_compat_r; [|apply Qlt_le_weak, p2_pos].
    rewrite <- Zle_Qle. rewrite <- (round_half_even_inject (2 ^ (k - e1))).
    apply round_half_even_monotone. rewrite <- p2_inject by lia.
    unfold scaled. replace (k - e1) with (k + - e1) by lia. rewrite p2_add.
    apply Qmult_le_compat_r; [exact K2 | apply Qlt_le_weak, p2_pos].
  - assert (Y : (scaled x e1 <= 1 # 2)%Q).
    { unfold scaled. apply Qle_trans with (p2 k * p2 (- e1))%Q.
      - apply Qmult_le_compat_r; [exact K2 | apply Qlt_le_weak, p2_pos].
      - rewrite <- p2_add. change (1 # 2)%Q with (p2 (-1)). apply p2_le. lia. }
    assert (R : round_half_even (scaled x e1) <= 0).
    { change 0 with (round_half_even (1 # 2)). apply round_half_even_monotone, Y. }
    apply Qle_trans with 0%Q; [|apply Qlt_le_weak, p2_pos].
    setoid_replace 0%Q with (0 * p2 e1)%Q by ring.
    apply Qmult_le_compat_r; [|apply Qlt_le_weak, p2_pos].
    change 0%Q with (inject_Z 0). rewrite <- Zle_Qle. exact R.
Qed.

Lemma rnd_at_lower (k j : Z) (x : Q) :
  fexp64 k <= j -> (p2 j <= x)%Q -> (p2 j <= rnd_at k x)%Q.
Proof.
  intros Hj K1. unfold rnd_at, mant. set (e1 := fexp64 k) in *.
  assert (E : (p2 j == inject_Z (2 ^ (j - e1)) * p2 e1)%Q).
  { rewrite <- p2_inject by lia. rewrite <- p2_add. replace (j - e1 + e1) with j by lia.
    reflexivity. }
  rewrite E. apply Qmult_le_compat_r; [|apply Qlt_le_weak, p2_pos].
  rewrite <- Zle_Qle. rewrite <- (round_half_even_inject (2 ^ (j - e1))) at 1.
  apply round_half_even_monotone. rewrite <- p2_inject by lia. apply scaled_le, K1.
Qed.

Lemma rnd_at_monotone (k : Z) (x y : Q) : (x <= y)%Q -> (rnd_at k x <= rnd_at k y)%Q.
Proof.
  intros H. unfold rnd_at. apply Qmult_le_compat_r; [|apply Qlt_le_weak, p2_pos].
  rewrite <- Zle_Qle. apply round_half_even_monotone. unfold scaled.
  apply Qmult_le_compat_r; [exact H | apply Qlt_le_weak, p2_pos].
Qed.

Lemma rnd_pos_monotone (x y : Q) : (0 < x)%Q -> (x <= y)%Q -> (rnd_pos x <= rnd_pos y)%Q.
Proof.
  intros Hx H. assert (Hy : (0 < y)%Q) by lra.
  destruct (mag_spec x Hx) as [A1 A2]. destruct (mag_spec y Hy) as [B1 B2].
  unfold rnd_pos. set (kx := mag x) in *. set (ky := mag y) in *.
  assert (Hk : kx <= ky).
  { assert (kx - 1 < ky) by (apply p2_lt_inv; lra). lia. }
  destruct (Z.eq_dec (fexp64 kx) (fexp64 ky)) as [Ee|Ne].
  - unfold rnd_at, mant. rewrite Ee. fold (mant ky x). fold (rnd_at ky x).
    fold (mant ky y). fold (rnd_at ky y). apply rnd_at_monotone, H.
  - assert (Hlt : kx < ky) by (destruct (Z.eq_dec kx ky); [congruence | lia]).
    apply Qle_trans with (p2 kx).
    + apply rnd_at_upper; lra.
    + apply Qle_trans with (p2 (ky - 1)); [apply p2_le; lia|].
      apply rnd_at_lower; [unfold fexp64 in *; lia | exact B1].
Qed.

Lemma rnd_pos_nonneg (x : Q) : (0 <= x)%Q -> (0 <= rnd_pos x)%Q.
Proof. apply rnd_at_nonneg. Qed.

Theorem rnd_monotone (x y : Q) : (x <= y)%Q -> (rnd x <= rnd y)%Q.
Proof.
  intros H.
  destruct (Q_dec x 0) as [[Hx|Hx]|Hx]; destruct (Q_dec y 0) as [[Hy|Hy]|Hy]; try lra.
  - rewrite (rnd_of_neg x Hx), (rnd_of_neg y Hy).
    apply Qopp_le_compat. apply rnd_pos_monotone; lra.
  - rewrite (rnd_of_neg x Hx), (rnd_of_pos y Hy).
    pose proof (rnd_pos_nonneg (- x) ltac:(lra)). pose proof (rnd_pos_nonneg y ltac:(lra)). lra.
  - rewrite (rnd_of_neg x Hx), (rnd_of_zero y Hy).
    pose proof (rnd_pos_nonneg (- x) ltac:(lra)). lra.
  - rewrite (rnd_of_pos x Hx), (rnd_of_pos y Hy). apply rnd_pos_monotone; assumption.
  - rewrite (rnd_of_zero x Hx), (rnd_of_pos y Hy). apply rnd_pos_nonneg. lra.
  - rewrite (rnd_of_zero x Hx), (rnd_of_zero y Hy). lra.
Qed.

(** *** Representable numbers are not changed *)

Lemma rnd_at_integer (k : Z) (x : Q) (z : Z) :
  (scaled x (fexp64 k) == inject_Z z)%Q -> (rnd_at k x == x)%Q.
Proof.
  intros H. unfold rnd_at, mant. rewrite (round_half_even_integer _ _ H), <- H.
  apply scaled_back.
Qed.

Lemma rnd_pos_exact (m e : Z) :
  0 < m < 2 ^ 53 -> -1074 <= e ->
  (rnd_pos (inject_Z m * p2 e) == inject_Z m * p2 e)%Q.
Proof.
  intros [Hm0 Hm] He.
  pose proof (Zdigits2_spec m Hm0) as [D1 D2]. pose proof (Zdigits2_pos m Hm0) as Dp.
  set (d := Zdigits2 m) in *.
  assert (Hd : d <= 53).
  { destruct (Z_le_gt_dec d 53); [assumption|exfalso].
    assert (2 ^ 53 <= 2 ^ (d - 1)) by (apply Z.pow_le_mono_r; lia). lia. }
  set (x := (inject_Z m * p2 e)%Q).
  assert (K1 : (p2 (d + e - 1) <= x)%Q).
  { unfold x. replace (d + e - 1) with (d - 1 + e) by lia. rewrite p2_add.
    apply Qmult_le_compat_r; [|apply Qlt_le_weak, p2_pos].
    rewrite p2_inject by lia. rewrite <- Zle_Qle. exact D1. }
  assert (K2 : (x < p2 (d + e))%Q).
  { unfold x. rewrite p2_add. apply Qmult_lt_compat_r; [apply p2_pos|].
    rewrite p2_inject by lia. rewrite <- Zlt_Qlt. exact D2. }
  rewrite (rnd_pos_at (d + e) x K1 K2).
  assert (He1 : fexp64 (d + e) <= e) by (unfold fexp64; lia).
  apply (rnd_at_integer _ _ (m * 2 ^ (e - fexp64 (d + e)))).
  unfold scaled, x. rewrite inject_Z_mult, <- p2_inject by lia.
  rewrite <- Qmult_assoc, <- p2_add.
  replace (e + - fexp64 (d + e)) with (e - fexp64 (d + e)) by lia. reflexivity.
Qed.

Theorem rnd_exact (m e : Z) :
  Z.abs m <= 2 ^ 53 -> -1074 <= e -> (rnd (inject_Z m * p2 e) == inject_Z m * p2 e)%Q.
Proof.
  intros Hm He.
  assert (P : forall n, 0 < n <= 2 ^ 53 ->
                        (rnd_pos (inject_Z n * p2 e) == inject_Z n * p2 e)%Q).
  { intros n Hn. destruct (Z.eq_dec n (2 ^ 53)) as [->|Hne].
    - assert (E : (inject_Z (2 ^ 53) * p2 e == inject_Z (2 ^ 52) * p2 (e + 1))%Q).
      { rewrite p2_succ. assert (X : (inject_Z (2 ^ 53) == 2 * inject_Z (2 ^ 52))%Q) by reflexivity.
        rewrite X. ring. }
      assert (X0 : (0 < inject_Z (2 ^ 53) * p2 e)%Q)
        by (apply Qmult_lt_0_compat; [reflexivity | apply p2_pos]).
      rewrite (rnd_pos_compat _ _ X0 E).
      rewrite E. apply rnd_pos_exact; lia.
    - apply rnd_pos_exact; lia. }
  destruct (Z.lt_trichotomy m 0) as [Hn|[->|Hp]].
  - assert (Hx : (inject_Z m * p2 e < 0)%Q).
    { setoid_replace 0%Q with (0 * p2 e)%Q by ring. apply Qmult_lt_compat_r; [apply p2_pos|].
      change 0%Q with (inject_Z 0). rewrite <- Zlt_Qlt. exact Hn. }
    rewrite (rnd_of_neg _ Hx).
    assert (E : (- (inject_Z m * p2 e) == inject_Z (- m) * p2 e)%Q)
      by (rewrite inject_Z_opp; ring).
    assert (X0 : (0 < - (inject_Z m * p2 e))%Q).
    { set (t := (inject_Z m * p2 e)%Q) in *. lra. }
    rewrite (rnd_pos_compat _ _ X0 E). rewrite (P (- m)) by lia.
    rewrite inject_Z_opp. ring.
  - rewrite rnd_of_zero; [|ring]. change (inject_Z 0) with 0%Q. ring.
  - assert (Hx : (0 < inject_Z m * p2 e)%Q).
    { apply Qmult_lt_0_compat; [|apply p2_pos].
      change 0%Q with (inject_Z 0). rewrite <- Zlt_Qlt. exact Hp. }
    rewrite (rnd_of_pos _ Hx). apply P. lia.
Qed.

Corollary rnd_integer (n : Z) : Z.abs n <= 2 ^ 53 -> (rnd (inject_Z n) == inject_Z n)%Q.
Proof.
  intros H. pose proof (rnd_exact n 0 H ltac:(lia)) as E. rewrite p2_0 in E.
  assert (X : (inject_Z n * 1 == inject_Z n)%Q) by ring.
  rewrite <- X at 2. rewrite <- E. apply rnd_proper. ring.
Qed.

(** *** The rounding error *)

Lemma rnd_at_error (k : Z) (x : Q) : (Qabs (rnd_at k x - x) <= p2 (fexp64 k - 1))%Q.
Proof.
  unfold rnd_at, mant. set (e1 := fexp64 k). set (y := scaled x e1).
  destruct (round_half_even_error y) as [R1 R2].
  assert (Ex : (x == y * p2 e1)%Q) by (unfold y; rewrite scaled_back; reflexivity).
  assert (Eh : (p2 (e1 - 1) == (1 # 2) * p2 e1)%Q) by (rewrite p2_pred; field).
  rewrite Eh. pose proof (p2_pos e1) as Hp.
  set (r := inject_Z (round_half_even y)) in *. set (P := p2 e1) in *.
  clearbody r P y.
  apply Qabs_Qle_condition. rewrite Ex. split.
  - assert ((y - r) * P <= (1 # 2) * P)%Q by (apply Qmult_le_compat_r; lra). nra.
  - assert ((r - y) * P <= (1 # 2) * P)%Q by (apply Qmult_le_compat_r; lra). nra.
Qed.

Theorem rnd_error (x : Q) (j : Z) :
  (Qabs x <= p2 j)%Q -> -1021 <= j -> (Qabs (rnd x - x) <= p2 (j - 53))%Q.
Proof.
  intros H Hj.
  assert (P : forall y, (0 < y)%Q -> (y <= p2 j)%Q -> (Qabs (rnd_pos y - y) <= p2 (j - 53))%Q).
  { intros y Hy Hyj. destruct (mag_spec y Hy) as [A1 A2]. unfold rnd_pos.
    set (k := mag y) in *.
    assert (Hk : k - 1 < j + 1) by (apply p2_lt_inv; apply Qle_lt_trans with y; [exact A1|];
      apply Qle_lt_trans with (p2 j); [exact Hyj | apply p2_lt; lia]).
    apply Qle_trans with (p2 (fexp64 k - 1)); [apply rnd_at_error|].
    apply p2_le. unfold fexp64. lia. }
  destruct (Q_dec x 0) as [[Hx|Hx]|Hx].
  - rewrite (rnd_of_neg x Hx).
    assert (Hy : (- x <= p2 j)%Q) by (rewrite <- (Qabs_neg x) by lra; exact H).
    specialize (P (- x)%Q ltac:(lra) Hy).
    apply Qabs_Qle_condition in P. apply Qabs_Qle_condition. lra.
  - rewrite (rnd_of_pos x Hx). apply P; [exact Hx|]. rewrite <- (Qabs_pos x) by lra. exact H.
  - rewrite (rnd_of_zero x Hx). apply Qabs_Qle_condition.
    pose proof (p2_pos (j - 53)). lra.
Qed.

Theorem rnd_nonneg (x : Q) : (0 <= x)%Q -> (0 <= rnd x)%Q.
Proof.
  intros H. assert (E : rnd 0 = 0%Q) by reflexivity. rewrite <- E. apply rnd_monotone, H.
Qed.

(** ** Finite doubles and their validity *)

Lemma finite_val_compat (f : spec_float) (q q' : Q) :
  (q == q')%Q -> finite_val f q -> finite_val f q'.
Proof. intros E (r & H1 & H2). exists r. split; [exact H1 | rewrite H2; exact E]. Qed.

Lemma valid_finite (s : bool) (m : positive) (e : Z) :
  valid_binary (S754_finite s m e) = true ->
  fexp64 (Zdigits2 (Zpos m) + e) = e /\ e <= 971.
Proof.
  cbn [SpecFloat.valid_binary]. unfold bounded, canonical_mantissa.
  intros H. apply andb_prop in H. destruct H as [H1 H2].
  apply Z.eqb_eq in H1. apply Z.leb_le in H2. rewrite fexp_eq in H1.
  split; [exact H1 | exact H2].
Qed.

Lemma canonical_facts (m e : Z) :
  0 < m -> fexp64 (Zdigits2 m + e) = e ->
  -1074 <= e /\ m < 2 ^ 53 /\ (-1074 < e -> 2 ^ 52 <= m).
Proof.
  intros Hm H. pose proof (Zdigits2_spec m Hm) as [D1 D2]. pose proof (Zdigits2_pos m Hm) as Dp.
  set (d := Zdigits2 m) in *. unfold fexp64 in H.
  assert (Hd : d <= 53) by lia.
  split; [lia|]. split.
  - assert (2 ^ d <= 2 ^ 53) by (apply Z.pow_le_mono_r; lia). lia.
  - intros He. assert (Ed : d = 53) by lia. rewrite Ed in D1.
    replace (53 - 1) with 52 in D1 by lia. exact D1.
Qed.

Lemma encode_value (s : bool) (m3 e3 : Z) :
  0 <= m3 < 2 ^ 53 -> (0 < m3 -> fexp64 (Zdigits2 m3 + e3) = e3) ->
  (inject_Z m3 * p2 e3 < p2 1024)%Q ->
  valid_binary (encode s m3 e3) = true
  /\ finite_val (encode s m3 e3) (signed s (inject_Z m3 * p2 e3)).
Proof.
  intros Hm Hc Hv. destruct m3 as [|p|p]; [| |exfalso; apply (proj1 Hm); reflexivity].
  - cbn [encode]. split; [reflexivity|]. exists 0%Q. split; [reflexivity|].
    change (inject_Z 0) with 0%Q. destruct s; cbn [signed]; ring.
  - specialize (Hc ltac:(lia)). destruct (canonical_facts (Zpos p) e3 ltac:(lia) Hc) as (C1 & C2 & C3).
    assert (He : e3 <= 971).
    { destruct (Z_le_gt_dec e3 971) as [L|G]; [exact L|exfalso].
      specialize (C3 ltac:(lia)).
      assert (X : (p2 1024 <= inject_Z (Zpos p) * p2 e3)%Q).
      { replace 1024 with (52 + 972) by lia. rewrite p2_add.
        apply Qle_trans with (inject_Z (Zpos p) * p2 972)%Q.
        - apply Qmult_le_compat_r; [|apply Qlt_le_weak, p2_pos].
          rewrite p2_inject by lia. rewrite <- Zle_Qle. exact C3.
        - apply Qmult_le_l; [reflexivity | apply p2_le; lia]. }
      lra. }
    cbn [encode]. destruct (Z.leb_spec e3 971); [|lia]. split.
    + cbn [SpecFloat.valid_binary]. unfold bounded, canonical_mantissa.
      rewrite fexp_eq. apply andb_true_intro. split; [apply Z.eqb_eq; exact Hc | apply Z.leb_le; exact He].
    + apply SF2Q_finite.
Qed.

Lemma rnd_signed (s : bool) (x : Q) : (0 < x)%Q -> (rnd (signed s x) == signed s (rnd_pos x))%Q.
Proof.
  intros H. destruct s; cbn [signed].
  - rewrite rnd_opp, (rnd_of_pos x H). reflexivity.
  - rewrite (rnd_of_pos x H). reflexivity.
Qed.

Lemma Qabs_signed (s : bool) (x : Q) : (Qabs (signed s x) == Qabs x)%Q.
Proof. destruct s; cbn [signed]; [apply Qabs_opp | reflexivity]. Qed.

(** The rounding step returns the nearest double of the located value. *)
Lemma binary_round_aux_finite (s : bool) (m e : Z) (l : location) (x : Q) :
  0 <= m -> located m l (scaled x e) -> (0 < x)%Q ->
  e <= fexp64 (Zdigits2 m + e) ->
  (rnd_pos x < p2 1024)%Q ->
  valid_binary (binary_round_aux 53 1024 s m e l) = true
  /\ finite_val (binary_round_aux 53 1024 s m e l) (signed s (rnd_pos x)).
Proof.
  intros Hm L Hx He Hv. destruct (mag_spec x Hx) as [K1 K2].
  destruct (binary_round_aux_located s m e l x (mag x) Hm L K1 K2 He)
    as (m3 & e3 & E & B & V & C).
  fold (rnd_pos x) in V. rewrite E.
  assert (Hv' : (inject_Z m3 * p2 e3 < p2 1024)%Q) by (rewrite V; exact Hv).
  destruct (encode_value s m3 e3 B C Hv') as [V1 V2]. split; [exact V1|].
  apply (finite_val_compat _ (signed s (inject_Z m3 * p2 e3))); [|exact V2].
  destruct s; cbn [signed]; rewrite V; reflexivity.
Qed.

Lemma finite_cases (f : spec_float) (q : Q) :
  finite_val f q -> valid_binary f = true ->
  (exists s, f = S754_zero s /\ (q == 0)%Q)
  \/ (exists s m e, f = S754_finite s m e
                    /\ (q == signed s (inject_Z (Zpos m) * p2 e))%Q
                    /\ fexp64 (Zdigits2 (Zpos m) + e) = e /\ e <= 971).
Proof.
  intros (q' & H1 & H2) Hv. destruct f as [s|s| |s m e]; try discriminate H1.
  - left. exists s. split; [reflexivity|]. injection H1 as <-. rewrite <- H2. reflexivity.
  - right. exists s, m, e. split; [reflexivity|].
    destruct (SF2Q_finite s m e) as (q'' & E1 & E2). rewrite H1 in E1. injection E1 as <-.
    destruct (valid_finite s m e Hv) as [C1 C2].
    split; [rewrite <- H2; exact E2 | split; assumption].
Qed.

Lemma signed_mult (s t : bool) (a b : Q) :
  (signed s a * signed t b == signed (xorb s t) (a * b))%Q.
Proof. destruct s, t; cbn [signed xorb]; ring. Qed.

Lemma signed_zero (s : bool) : (signed s 0 == 0)%Q.
Proof. destruct s; reflexivity. Qed.

Lemma rnd_zero (x : Q) : (x == 0)%Q -> (rnd x == 0)%Q.
Proof. intros H. rewrite (rnd_of_zero x H). reflexivity. Qed.

Lemma finite_zero (s : bool) (q : Q) : (q == 0)%Q -> finite_val (S754_zero s) q.
Proof. intros H. exists 0%Q. split; [reflexivity | rewrite H; reflexivity]. Qed.

Lemma pos_value_pos (m : positive) (e : Z) : (0 < inject_Z (Zpos m) * p2 e)%Q.
Proof. apply Qmult_lt_0_compat; [reflexivity | apply p2_pos]. Qed.

Lemma digits_product (mx my : positive) :
  Zdigits2 (Zpos mx) + Zdigits2 (Zpos my) - 1 <= Zdigits2 (Zpos (mx * my)).
Proof.
  pose proof (Zdigits2_spec (Zpos mx) ltac:(lia)) as [X1 X2].
  pose proof (Zdigits2_spec (Zpos my) ltac:(lia)) as [Y1 Y2].
  pose proof (Zdigits2_spec (Zpos (mx * my)) ltac:(lia)) as [P1 P2].
  pose proof (Zdigits2_pos (Zpos mx) ltac:(lia)) as Dx.
  pose proof (Zdigits2_pos (Zpos my) ltac:(lia)) as Dy.
  pose proof (Zdigits2_pos (Zpos (mx * my)) ltac:(lia)) as Dp.
  set (dx := Zdigits2 (Zpos mx)) in *. set (dy := Zdigits2 (Zpos my)) in *.
  set (D := Zdigits2 (Zpos (mx * my))) in *.
  destruct (Z_le_gt_dec (dx + dy - 1) D) as [L|G]; [exact L|exfalso].
  assert (H : 2 ^ D <= 2 ^ (dx - 1 + (dy - 1))) by (apply Z.pow_le_mono_r; lia).
  rewrite Z.pow_add_r in H by lia. rewrite Pos2Z.inj_mul in P2.
  assert (2 ^ (dx - 1) * 2 ^ (dy - 1) <= Zpos mx * Zpos my) by (apply Z.mul_le_mono_nonneg; lia).
  lia.
Qed.

Theorem SFmul_finite (x y : spec_float) (a b : Q) :
  valid_binary x = true -> valid_binary y = true ->
  finite_val x a -> finite_val y b ->
  (Qabs (rnd (a * b)) < p2 1024)%Q ->
  valid_binary (SFmul 53 1024 x y) = true
  /\ finite_val (SFmul 53 1024 x y) (rnd (a * b)).
Proof.
  intros Vx Vy Fx Fy Hb.
  destruct (finite_cases x a Fx Vx) as [(sx & -> & Ea)|(sx & mx & ex & -> & Ea & Cx & Bx)];
    destruct (finite_cases y b Fy Vy) as [(sy & -> & Eb)|(sy & my & ey & -> & Eb & Cy & By)].
  - cbn [SFmul]. split; [reflexivity|]. apply finite_zero. apply rnd_zero. rewrite Ea. ring.
  - cbn [SFmul]. split; [reflexivity|]. apply finite_zero. apply rnd_zero. rewrite Ea. ring.
  - cbn [SFmul]. split; [reflexivity|]. apply finite_zero. apply rnd_zero. rewrite Eb. ring.
  - cbn [SFmul].
    set (X := (inject_Z (Zpos (mx * my)) * p2 (ex + ey))%Q).
    assert (EX : (a * b == signed (xorb sx sy) X)%Q).
    { rewrite Ea, Eb, signed_mult. apply signed_proper; [reflexivity|].
      unfold X. rewrite Pos2Z.inj_mul, inject_Z_mult, p2_add. ring. }
    assert (HX : (0 < X)%Q) by apply pos_value_pos.
    assert (ER : (rnd (a * b) == signed (xorb sx sy) (rnd_pos X))%Q).
    { rewrite EX. apply rnd_signed, HX. }
    assert (Hv : (rnd_pos X < p2 1024)%Q).
    { rewrite ER, Qabs_signed in Hb. rewrite Qabs_pos in Hb; [exact Hb|].
      apply rnd_pos_nonneg. lra. }
    assert (L : located (Zpos (mx * my)) loc_Exact (scaled X (ex + ey))).
    { cbn [located]. unfold scaled, X. rewrite <- Qmult_assoc, p2_cancel. ring. }
    assert (He : ex + ey <= fexp64 (Zdigits2 (Zpos (mx * my)) + (ex + ey))).
    { pose proof (digits_product mx my) as D.
      pose proof (Zdigits2_pos (Zpos mx) ltac:(lia)) as Dx.
      pose proof (Zdigits2_pos (Zpos my) ltac:(lia)) as Dy.
      unfold fexp64 in *. lia. }
    destruct (binary_round_aux_finite (xorb sx sy) (Zpos (mx * my)) (ex + ey) loc_Exact X
                ltac:(lia) L HX He Hv) as [V1 V2].
    split; [exact V1|]. apply (finite_val_compat _ _ _ (Qeq_sym _ _ ER)). exact V2.
Qed.

(** ** Normalisation of an integer significand *)

Lemma pos_iter_xO (m d : positive) : Zpos (Pos.iter xO m d) = Zpos m * 2 ^ Zpos d.
Proof.
  induction d as [|d IH] using Pos.peano_ind.
  - cbn [Pos.iter]. lia.
  - rewrite Pos.iter_succ, Pos2Z.inj_xO, IH, Pos2Z.inj_succ, Z.pow_succ_r by lia. lia.
Qed.

Lemma shl_align_spec (mx : positive) (ex ex' : Z) :
  snd (shl_align mx ex ex') = Z.min ex ex'
  /\ Zpos (fst (shl_align mx ex ex')) = Zpos mx * 2 ^ (ex - snd (shl_align mx ex ex')).
Proof.
  unfold shl_align. destruct (ex' - ex) as [|d|d] eqn:E; cbn [fst snd].
  - split; [lia|]. replace (ex - ex) with 0 by lia. lia.
  - split; [lia|]. replace (ex - ex) with 0 by lia. lia.
  - split; [lia|]. rewrite pos_iter_xO. replace (ex - ex') with (Zpos d) by lia. reflexivity.
Qed.

Lemma digits_shift (m j : Z) : 0 < m -> 0 <= j -> Zdigits2 (m * 2 ^ j) = Zdigits2 m + j.
Proof.
  intros Hm Hj. pose proof (Zdigits2_spec m Hm) as [D1 D2]. pose proof (Zdigits2_pos m Hm) as Dp.
  set (d := Zdigits2 m) in *. apply Zdigits2_unique; [|lia]. split.
  - replace (d + j - 1) with (d - 1 + j) by lia. rewrite Z.pow_add_r by lia.
    apply Z.mul_le_mono_nonneg_r; [apply Z.pow_nonneg; lia | exact D1].
  - rewrite Z.pow_add_r by lia. apply Z.mul_lt_mono_pos_r; [apply Z.pow_pos_nonneg; lia | exact D2].
Qed.

Lemma binary_round_finite (s : bool) (m : positive) (e : Z) :
  (rnd_pos (inject_Z (Zpos m) * p2 e) < p2 1024)%Q ->
  valid_binary (binary_round 53 1024 s m e) = true
  /\ finite_val (binary_round 53 1024 s m e) (signed s (rnd_pos (inject_Z (Zpos m) * p2 e))).
Proof.
  intros Hv. unfold binary_round. rewrite fexp_eq.
  destruct (shl_align_spec m e (fexp64 (Zpos (digits2_pos m) + e))) as [E1 E2].
  destruct (shl_align m e (fexp64 (Zpos (digits2_pos m) + e))) as [mz ez]. cbn [fst snd] in *.
  change (Zpos (digits2_pos m)) with (Zdigits2 (Zpos m)) in *.
  set (X := (inject_Z (Zpos m) * p2 e)%Q) in *.
  assert (Hez : ez <= e) by lia.
  apply binary_round_aux_finite; [lia| |apply pos_value_pos| |exact Hv].
  - cbn [located]. unfold scaled, X. rewrite E2, inject_Z_mult, <- p2_inject by lia.
    rewrite <- !Qmult_assoc. rewrite <- p2_add. replace (e + - ez) with (e - ez) by lia.
    reflexivity.
  - rewrite E2, digits_shift by lia. replace (Zdigits2 (Zpos m) + (e - ez) + ez)
      with (Zdigits2 (Zpos m) + e) by lia. lia.
Qed.

Theorem binary_normalize_finite (M e : Z) :
  (Qabs (rnd (inject_Z M * p2 e)) < p2 1024)%Q ->
  valid_binary (binary_normalize 53 1024 M e false) = true
  /\ finite_val (binary_normalize 53 1024 M e false) (rnd (inject_Z M * p2 e)).
Proof.
  intros Hb. destruct M as [|m|m]; cbn [binary_normalize].
  - split; [reflexivity|]. apply finite_zero, rnd_zero. change (inject_Z 0) with 0%Q. ring.
  - pose proof (pos_value_pos m e) as HX.
    rewrite (rnd_of_pos _ HX) in Hb |- *.
    rewrite Qabs_pos in Hb by (apply rnd_pos_nonneg; lra).
    exact (binary_round_finite false m e Hb).
  - pose proof (pos_value_pos m e) as HX.
    assert (E : (inject_Z (Zneg m) * p2 e == signed true (inject_Z (Zpos m) * p2 e))%Q).
    { cbn [signed]. change (Zneg m) with (- Zpos m). rewrite inject_Z_opp. ring. }
    assert (ER : (rnd (inject_Z (Zneg m) * p2 e)
                  == signed true (rnd_pos (inject_Z (Zpos m) * p2 e)))%Q).
    { rewrite E. apply rnd_signed, HX. }
    rewrite ER, Qabs_signed in Hb. rewrite Qabs_pos in Hb by (apply rnd_pos_nonneg; lra).
    destruct (binary_round_finite true m e Hb) as [V1 V2]. split; [exact V1|].
    apply (finite_val_compat _ _ _ (Qeq_sym _ _ ER)). exact V2.
Qed.

(** ** Addition and subtraction *)

Lemma inject_cond_Zopp (s : bool) (z : Z) : (inject_Z (cond_Zopp s z) == signed s (inject_Z z))%Q.
Proof. destruct s; cbn [cond_Zopp signed]; [rewrite inject_Z_opp|]; reflexivity. Qed.

Lemma rnd_canonical (s : bool) (m : positive) (e : Z) :
  fexp64 (Zdigits2 (Zpos m) + e) = e ->
  (rnd (signed s (inject_Z (Zpos m) * p2 e)) == signed s (inject_Z (Zpos m) * p2 e))%Q.
Proof.
  intros C. destruct (canonical_facts (Zpos m) e ltac:(lia) C) as (C1 & C2 & C3).
  rewrite rnd_signed by apply pos_value_pos. apply signed_proper; [reflexivity|].
  apply rnd_pos_exact; lia.
Qed.

Lemma aligned_value (s : bool) (m : positive) (e ez : Z) :
  ez <= e ->
  (inject_Z (cond_Zopp s (Zpos (fst (shl_align m e ez)))) * p2 ez
   == signed s (inject_Z (Zpos m) * p2 e))%Q.
Proof.
  intros H. destruct (shl_align_spec m e ez) as [E1 E2].
  rewrite inject_cond_Zopp, E2, E1. replace (Z.min e ez) with ez by lia.
  rewrite inject_Z_mult, <- p2_inject by lia.
  assert (E : (inject_Z (Zpos m) * p2 (e - ez) * p2 ez == inject_Z (Zpos m) * p2 e)%Q).
  { rewrite <- Qmult_assoc, <- p2_add. replace (e - ez + ez) with e by lia. reflexivity. }
  destruct s; cbn [signed]; rewrite <- E; ring.
Qed.

Theorem SFadd_finite (x y : spec_float) (a b : Q) :
  valid_binary x = true -> valid_binary y = true ->
  finite_val x a -> finite_val y b ->
  (Qabs (rnd (a + b)) < p2 1024)%Q ->
  valid_binary (SFadd 53 1024 x y) = true
  /\ finite_val (SFadd 53 1024 x y) (rnd (a + b)).
Proof.
  intros Vx Vy Fx Fy Hb.
  destruct (finite_cases x a Fx Vx) as [(sx & -> & Ea)|(sx & mx & ex & -> & Ea & Cx & Bx)];
    destruct (finite_cases y b Fy Vy) as [(sy & -> & Eb)|(sy & my & ey & -> & Eb & Cy & By)].
  - assert (E0 : (rnd (a + b) == 0)%Q) by (apply rnd_zero; rewrite Ea, Eb; ring).
    cbn [SFadd]. destruct sx, sy; (split; [reflexivity | apply finite_zero, E0]).
  - cbn [SFadd]. split; [exact Vy|].
    assert (E : (rnd (a + b) == b)%Q).
    { assert (X : (a + b == b)%Q) by (rewrite Ea; ring). rewrite X, Eb. apply rnd_canonical, Cy. }
    apply (finite_val_compat _ b); [symmetry; exact E | exact Fy].
  - cbn [SFadd]. split; [exact Vx|].
    assert (E : (rnd (a + b) == a)%Q).
    { assert (X : (a + b == a)%Q) by (rewrite Eb; ring). rewrite X, Ea. apply rnd_canonical, Cx. }
    apply (finite_val_compat _ a); [symmetry; exact E | exact Fx].
  - cbn [SFadd]. set (ez := Z.min ex ey).
    set (M := cond_Zopp sx (Zpos (fst (shl_align mx ex ez)))
              + cond_Zopp sy (Zpos (fst (shl_align my ey ez)))).
    assert (E : (a + b == inject_Z M * p2 ez)%Q).
    { unfold M. rewrite inject_Z_plus, Qmult_plus_distr_l.
      rewrite !aligned_value by (unfold ez; lia). rewrite Ea, Eb. reflexivity. }
    rewrite E in Hb. destruct (binary_normalize_finite M ez Hb) as [V1 V2].
    split; [exact V1|]. apply (finite_val_compat _ (rnd (inject_Z M * p2 ez))); [|exact V2].
    rewrite E. reflexivity.
Qed.

Theorem SFsub_finite (x y : spec_float) (a b : Q) :
  valid_binary x = true -> valid_binary y = true ->
  finite_val x a -> finite_val y b ->
  (Qabs (rnd (a - b)) < p2 1024)%Q ->
  valid_binary (SFsub 53 1024 x y) = true
  /\ finite_val (SFsub 53 1024 x y) (rnd (a - b)).
Proof.
  intros Vx Vy Fx Fy Hb.
  destruct (finite_cases x a Fx Vx) as [(sx & -> & Ea)|(sx & mx & ex & -> & Ea & Cx & Bx)];
    destruct (finite_cases y b Fy Vy) as [(sy & -> & Eb)|(sy & my & ey & -> & Eb & Cy & By)].
  - assert (E0 : (rnd (a - b) == 0)%Q) by (apply rnd_zero; rewrite Ea, Eb; ring).
    cbn [SFsub]. destruct sx, sy; (split; [reflexivity | apply finite_zero, E0]).
  - cbn [SFsub]. split; [exact Vy|].
    assert (E : (rnd (a - b) == signed (negb sy) (inject_Z (Zpos my) * p2 ey))%Q).
    { assert (X : (a - b == signed (negb sy) (inject_Z (Zpos my) * p2 ey))%Q).
      { rewrite Ea, Eb. destruct sy; cbn [signed negb]; ring. }
      rewrite X. apply rnd_canonical, Cy. }
    apply (finite_val_compat _ _ _ (Qeq_sym _ _ E)). apply SF2Q_finite.
  - cbn [SFsub]. split; [exact Vx|].
    assert (E : (rnd (a - b) == a)%Q).
    { assert (X : (a - b == a)%Q) by (rewrite Eb; ring). rewrite X, Ea. apply rnd_canonical, Cx. }
    apply (finite_val_compat _ a); [symmetry; exact E | exact Fx].
  - cbn [SFsub]. set (ez := Z.min ex ey).
    set (M := cond_Zopp sx (Zpos (fst (shl_align mx ex ez)))
              - cond_Zopp sy (Zpos (fst (shl_align my ey ez)))).
    assert (E : (a - b == inject_Z M * p2 ez)%Q).
    { unfold M. unfold Z.sub. rewrite inject_Z_plus, inject_Z_opp, Qmult_plus_distr_l.
      assert (N : forall u v : Q, (- u * v == - (u * v))%Q) by (intros; ring).
      rewrite N. rewrite !aligned_value by (unfold ez; lia). rewrite Ea, Eb. reflexivity. }
    rewrite E in Hb. destruct (binary_normalize_finite M ez Hb) as [V1 V2].
    split; [exact V1|]. apply (finite_val_compat _ (rnd (inject_Z M * p2 ez))); [|exact V2].
    rewrite E. reflexivity.
Qed.

(** ** Division *)

Lemma new_location_located (n : positive) (r q : Z) :
  0 <= r < Zpos n -> located q (new_location (Zpos n) r) (inject_Z q + (r # n))%Q.
Proof.
  intros [H0 H1].
  assert (T0 : r <> 0 -> (0 < r # n)%Q) by (intros; unfold Qlt; cbn; lia).
  assert (T1 : (r # n < 1)%Q) by (unfold Qlt; cbn; lia).
  assert (TL : 2 * r < Zpos n -> (r # n < 1 # 2)%Q) by (intros; unfold Qlt; cbn; lia).
  assert (TG : Zpos n < 2 * r -> (1 # 2 < r # n)%Q) by (intros; unfold Qlt; cbn; lia).
  assert (TE : 2 * r = Zpos n -> (r # n == 1 # 2)%Q) by (intros; unfold Qeq; cbn; lia).
  unfold new_location. destruct (Z.even (Zpos n)) eqn:Ev.
  - unfold new_location_even. destruct (Z.eqb_spec r 0) as [->|Hr].
    + cbn [located]. assert (X : (0 # n == 0)%Q) by reflexivity. rewrite X. ring.
    + cbn [located]. specialize (T0 Hr). split; [lra|]. split; [lra|].
      destruct (Z.compare_spec (2 * r) (Zpos n)) as [E|L|G]; cmp_facts.
      * rewrite (TE E). reflexivity.
      * specialize (TL L). lra.
      * specialize (TG G). lra.
  - unfold new_location_odd. destruct (Z.eqb_spec r 0) as [->|Hr].
    + cbn [located]. assert (X : (0 # n == 0)%Q) by reflexivity. rewrite X. ring.
    + cbn [located]. specialize (T0 Hr). split; [lra|]. split; [lra|].
      assert (Odd : 2 * r <> Zpos n).
      { intros E. rewrite <- E, Z.even_mul in Ev. discriminate Ev. }
      destruct (Z.compare_spec (2 * r + 1) (Zpos n)) as [E|L|G]; cmp_facts.
      * specialize (TL ltac:(lia)). lra.
      * specialize (TL ltac:(lia)). lra.
      * specialize (TG ltac:(lia)). lra.
Qed.

Lemma div_core_located (mx my : positive) (ex ey : Z) :
  let X := (inject_Z (Zpos mx) / inject_Z (Zpos my) * p2 (ex - ey))%Q in
  let r := SFdiv_core_binary 53 1024 (Zpos mx) ex (Zpos my) ey in
  0 <= fst (fst r)
  /\ located (fst (fst r)) (snd r) (scaled X (snd (fst r)))
  /\ snd (fst r) <= fexp64 (Zdigits2 (fst (fst r)) + snd (fst r)).
Proof.
  intros X. unfold SFdiv_core_binary. rewrite fexp_eq.
  set (d1 := Zdigits2 (Zpos mx)). set (d2 := Zdigits2 (Zpos my)).
  set (K := d1 + ex - (d2 + ey)).
  set (e' := Z.min (fexp64 K) (ex - ey)).
  set (s := ex - ey - e').
  assert (Hs : 0 <= s) by (unfold s, e'; lia).
  set (m' := match s with Zpos _ => Z.shiftl (Zpos mx) s | Z0 => Zpos mx | Zneg _ => 0 end).
  assert (Em : m' = Zpos mx * 2 ^ s).
  { unfold m'. destruct s as [|p|p]; [lia | apply Z.shiftl_mul_pow2; lia | lia]. }
  pose proof (Z.pow_pos_nonneg 2 s ltac:(lia) Hs) as Hp.
  assert (Hm' : 0 < m') by (rewrite Em; lia).
  assert (Ed : Z.div_eucl m' (Zpos my) = (m' / Zpos my, m' mod Zpos my)).
  { unfold Z.div, Z.modulo. destruct (Z.div_eucl m' (Zpos my)). reflexivity. }
  rewrite Ed. cbn [fst snd].
  pose proof (Z.div_mod m' (Zpos my) ltac:(lia)) as Dm.
  pose proof (Z.mod_pos_bound m' (Zpos my) ltac:(lia)) as Mb.
  set (q := m' / Zpos my) in *. set (r := m' mod Zpos my) in *.
  assert (Hq : 0 <= q) by (apply Z.div_pos; lia).
  split; [exact Hq|]. split.
  - apply (located_compat _ _ (inject_Z q + (r # my))%Q); [|apply new_location_located; lia].
    unfold scaled, X. rewrite <- Qmult_assoc, <- p2_add.
    replace (ex - ey + - e') with s by (unfold s; lia).
    rewrite p2_inject by lia.
    assert (E : (inject_Z (Zpos mx) * inject_Z (2 ^ s) == inject_Z (Zpos my) * inject_Z q + inject_Z r)%Q).
    { rewrite <- !inject_Z_mult, <- inject_Z_plus, <- Em, Dm. reflexivity. }
    rewrite (Qmake_Qdiv r my).
    assert (N : ~ (inject_Z (Zpos my) == 0)%Q) by discriminate.
    setoid_replace (inject_Z (Zpos mx) / inject_Z (Zpos my) * inject_Z (2 ^ s))%Q
      with ((inject_Z (Zpos mx) * inject_Z (2 ^ s)) / inject_Z (Zpos my))%Q by (field; exact N).
    rewrite E. field. exact N.
  - destruct (Z_le_gt_dec e' (-1074)) as [L|G]; [unfold fexp64; lia|].
    assert (He' : e' <= K - 53) by (unfold e', fexp64 in *; lia).
    pose proof (Zdigits2_spec (Zpos mx) ltac:(lia)) as [X1 X2].
    pose proof (Zdigits2_spec (Zpos my) ltac:(lia)) as [Y1 Y2].
    pose proof (Zdigits2_pos (Zpos mx) ltac:(lia)) as Dx.
    pose proof (Zdigits2_pos (Zpos my) ltac:(lia)) as Dy.
    fold d1 in X1, X2, Dx. fold d2 in Y1, Y2, Dy.
    set (t := d1 - 1 + s - d2).
    assert (Ht : 52 <= t) by (unfold t, s, K in *; lia).
    assert (Q1 : 2 ^ t <= q).
    { apply Z.div_le_lower_bound; [lia|].
      apply Z.le_trans with (2 ^ d2 * 2 ^ t).
      - apply Z.mul_le_mono_nonneg_r; [apply Z.pow_nonneg; lia | lia].
      - rewrite <- Z.pow_add_r by lia. replace (d2 + t) with (d1 - 1 + s) by (unfold t; lia).
        rewrite Z.pow_add_r by lia. rewrite Em. apply Z.mul_le_mono_nonneg_r; lia. }
    assert (Hq0 : 0 < q) by (pose proof (Z.pow_pos_nonneg 2 t ltac:(lia) ltac:(lia)); lia).
    pose proof (Zdigits2_spec q Hq0) as [Q2 Q3].
    pose proof (Zdigits2_pos q Hq0) as Dq.
    assert (Hd : t < Zdigits2 q).
    { destruct (Z_lt_le_dec t (Zdigits2 q)) as [A|A]; [exact A|exfalso].
      assert (2 ^ Zdigits2 q <= 2 ^ t) by (apply Z.pow_le_mono_r; lia). lia. }
    unfold fexp64. unfold t, s, K in *. lia.
Qed.

Lemma signed_div (s t : bool) (a b : Q) :
  ~ (b == 0)%Q -> (signed s a / signed t b == signed (xorb s t) (a / b))%Q.
Proof. intros H. destruct s, t; cbn [signed xorb]; field; exact H. Qed.

Theorem SFdiv_finite (x y : spec_float) (a b : Q) :
  valid_binary x = true -> valid_binary y = true ->
  finite_val x a -> finite_val y b -> ~ (b == 0)%Q ->
  (Qabs (rnd (a / b)) < p2 1024)%Q ->
  valid_binary (SFdiv 53 1024 x y) = true
  /\ finite_val (SFdiv 53 1024 x y) (rnd (a / b)).
Proof.
  intros Vx Vy Fx Fy Nb Hb.
  destruct (finite_cases y b Fy Vy) as [(sy & -> & Eb)|(sy & my & ey & -> & Eb & Cy & By)];
    [contradiction|].
  destruct (finite_cases x a Fx Vx) as [(sx & -> & Ea)|(sx & mx & ex & -> & Ea & Cx & Bx)].
  - cbn [SFdiv]. split; [reflexivity|]. apply finite_zero, rnd_zero. rewrite Ea.
    field. exact Nb.
  - cbn [SFdiv].
    set (X := (inject_Z (Zpos mx) / inject_Z (Zpos my) * p2 (ex - ey))%Q).
    pose proof (p2_pos ey) as Pey. pose proof (p2_pos ex) as Pex.
    assert (Nm : ~ (inject_Z (Zpos my) == 0)%Q) by discriminate.
    assert (Nv : ~ (inject_Z (Zpos my) * p2 ey == 0)%Q).
    { pose proof (pos_value_pos my ey). lra. }
    assert (EX : (a / b == signed (xorb sx sy) X)%Q).
    { rewrite Ea, Eb, signed_div by exact Nv. apply signed_proper; [reflexivity|].
      unfold X. rewrite p2_sub. field. split; [lra | exact Nm]. }
    assert (HX : (0 < X)%Q).
    { unfold X. apply Qmult_lt_0_compat; [|apply p2_pos].
      apply Qlt_shift_div_l; [reflexivity|]. rewrite Qmult_0_l. reflexivity. }
    assert (ER : (rnd (a / b) == signed (xorb sx sy) (rnd_pos X))%Q).
    { rewrite EX. apply rnd_signed, HX. }
    assert (Hv : (rnd_pos X < p2 1024)%Q).
    { rewrite ER, Qabs_signed in Hb. rewrite Qabs_pos in Hb; [exact Hb|].
      apply rnd_pos_nonneg. lra. }
    destruct (div_core_located mx my ex ey) as (Hq & L & He). fold X in L.
    destruct (SFdiv_core_binary 53 1024 (Zpos mx) ex (Zpos my) ey) as [[mz ez] lz].
    cbn [fst snd] in *.
    destruct (binary_round_aux_finite (xorb sx sy) mz ez lz X Hq L HX He Hv) as [V1 V2].
    split; [exact V1|]. apply (finite_val_compat _ _ _ (Qeq_sym _ _ ER)). exact V2.
Qed.

(** ** Comparison *)

Lemma canonical_lt (m1 m2 : positive) (e1 e2 : Z) :
  fexp64 (Zdigits2 (Zpos m1) + e1) = e1 -> fexp64 (Zdigits2 (Zpos m2) + e2) = e2 ->
  e1 < e2 -> (inject_Z (Zpos m1) * p2 e1 < inject_Z (Zpos m2) * p2 e2)%Q.
Proof.
  intros C1 C2 H.
  destruct (canonical_facts (Zpos m1) e1 ltac:(lia) C1) as (A1 & A2 & A3).
  destruct (canonical_facts (Zpos m2) e2 ltac:(lia) C2) as (B1 & B2 & B3).
  specialize (B3 ltac:(lia)).
  apply Qlt_le_trans with (p2 53 * p2 e1)%Q.
  - apply Qmult_lt_compat_r; [apply p2_pos|]. rewrite p2_inject by lia.
    rewrite <- Zlt_Qlt. exact A2.
  - apply Qle_trans with (p2 52 * p2 e2)%Q.
    + rewrite <- !p2_add. apply p2_le. lia.
    + apply Qmult_le_compat_r; [|apply Qlt_le_weak, p2_pos]. rewrite p2_inject by lia.
      rewrite <- Zle_Qle. exact B3.
Qed.

Lemma compare_same_exponent (m1 m2 : positive) (e : Z) :
  (inject_Z (Zpos m1) * p2 e ?= inject_Z (Zpos m2) * p2 e)%Q = Pos.compare_cont Eq m1 m2.
Proof.
  change (Pos.compare_cont Eq m1 m2) with (Z.compare (Zpos m1) (Zpos m2)).
  pose proof (p2_pos e) as P.
  destruct (Z.compare_spec (Zpos m1) (Zpos m2)) as [E|L|G]; cmp_facts.
  - rewrite E. reflexivity.
  - apply Qmult_lt_compat_r; [exact P|]. rewrite <- Zlt_Qlt. exact L.
  - apply Qmult_lt_compat_r; [exact P|]. rewrite <- Zlt_Qlt. exact G.
Qed.

Lemma compare_positive (m1 m2 : positive) (e1 e2 : Z) :
  fexp64 (Zdigits2 (Zpos m1) + e1) = e1 -> fexp64 (Zdigits2 (Zpos m2) + e2) = e2 ->
  (inject_Z (Zpos m1) * p2 e1 ?= inject_Z (Zpos m2) * p2 e2)%Q
  = match e1 ?= e2 with
    | Lt => Lt
    | Gt => Gt
    | Eq => Pos.compare_cont Eq m1 m2
    end.
Proof.
  intros C1 C2. destruct (Z.compare_spec e1 e2) as [E|L|G].
  - subst e2. apply compare_same_exponent.
  - cmp_facts. apply canonical_lt; assumption.
  - cmp_facts. apply canonical_lt; assumption.
Qed.

Lemma Qcompare_opp (a b : Q) : (- a ?= - b)%Q = CompOpp (a ?= b)%Q.
Proof.
  destruct (a ?= b)%Q eqn:E; cbn [CompOpp]; cmp_facts; lra.
Qed.

Theorem SFcompare_finite (x y : spec_float) (a b : Q) :
  valid_binary x = true -> valid_binary y = true ->
  finite_val x a -> finite_val y b ->
  SFcompare x y = Some (a ?= b)%Q.
Proof.
  intros Vx Vy Fx Fy.
  destruct (finite_cases x a Fx Vx) as [(sx & -> & Ea)|(sx & mx & ex & -> & Ea & Cx & Bx)];
    destruct (finite_cases y b Fy Vy) as [(sy & -> & Eb)|(sy & my & ey & -> & Eb & Cy & By)];
    rewrite Ea, Eb; cbn [SFcompare].
  - reflexivity.
  - pose proof (pos_value_pos my ey) as P. f_equal. symmetry.
    destruct sy; cbn [signed]; cmp_facts; lra.
  - pose proof (pos_value_pos mx ex) as P. f_equal. symmetry.
    destruct sx; cbn [signed]; cmp_facts; lra.
  - pose proof (pos_value_pos mx ex) as Px. pose proof (pos_value_pos my ey) as Py.
    f_equal. destruct sx, sy; cbn [signed].
    + rewrite Qcompare_opp, (compare_positive mx my ex ey Cx Cy).
      destruct (ex ?= ey); reflexivity.
    + symmetry. cmp_facts. lra.
    + symmetry. cmp_facts. lra.
    + rewrite (compare_positive mx my ex ey Cx Cy). reflexivity.
Qed.

Theorem SFltb_finite (x y : spec_float) (a b : Q) :
  valid_binary x = true -> valid_binary y = true ->
  finite_val x a -> finite_val y b ->
  (SFltb x y = true <-> (a < b)%Q).
Proof.
  intros Vx Vy Fx Fy. unfold SFltb. rewrite (SFcompare_finite x y a b Vx Vy Fx Fy).
  rewrite <- Qcompare_Lt. destruct (a ?= b)%Q; split; congruence.
Qed.

Theorem SFleb_finite (x y : spec_float) (a b : Q) :
  valid_binary x = true -> valid_binary y = true ->
  finite_val x a -> finite_val y b ->
  (SFleb x y = true <-> (a <= b)%Q).
Proof.
  intros Vx Vy Fx Fy. unfold SFleb. rewrite (SFcompare_finite x y a b Vx Vy Fx Fy).
  destruct (a ?= b)%Q eqn:E; cmp_facts; split; try congruence; try lra; intros; reflexivity.
Qed.

Theorem SFeqb_finite (x y : spec_float) (a b : Q) :
  valid_binary x = true -> valid_binary y = true ->
  finite_val x a -> finite_val y b ->
  (SFeqb x y = true <-> (a == b)%Q).
Proof.
  intros Vx Vy Fx Fy. unfold SFeqb. rewrite (SFcompare_finite x y a b Vx Vy Fx Fy).
  rewrite <- Qcompare_Eq. destruct (a ?= b)%Q; split; congruence.
Qed.

Theorem rnd_rel_error (x : Q) :
  (p2 (-1022) <= Qabs x)%Q -> (Qabs (rnd x - x) <= Qabs x * p2 (-53))%Q.
Proof.
  intros H.
  assert (P : forall y, (p2 (-1022) <= y)%Q -> (Qabs (rnd_pos y - y) <= y * p2 (-53))%Q).
  { intros y Hy. assert (Hy0 : (0 < y)%Q) by (pose proof (p2_pos (-1022)); lra).
    destruct (mag_spec y Hy0) as [A1 A2]. unfold rnd_pos. set (k := mag y) in *.
    assert (Hk : -1022 < k) by (apply p2_lt_inv; lra).
    apply Qle_trans with (p2 (fexp64 k - 1)); [apply rnd_at_error|].
    replace (fexp64 k - 1) with (k - 1 + -53) by (unfold fexp64; lia).
    rewrite p2_add. apply Qmult_le_compat_r; [exact A1 | apply Qlt_le_weak, p2_pos]. }
  destruct (Q_dec x 0) as [[Hx|Hx]|Hx].
  - rewrite (rnd_of_neg x Hx). rewrite (Qabs_neg x) in H |- * by lra.
    specialize (P (- x)%Q H). apply Qabs_Qle_condition in P. apply Qabs_Qle_condition.
    set (t := (- x * p2 (-53))%Q) in *. lra.
  - rewrite (rnd_of_pos x Hx). rewrite (Qabs_pos x) in H |- * by lra. apply P, H.
  - rewrite (Qabs_pos x) in H by lra. pose proof (p2_pos (-1022)). lra.
Qed.

(** ** Primitive doubles *)

Lemma is_val_compat (x : float) (q q' : Q) : (q == q')%Q -> is_val x q -> is_val x q'.
Proof. apply finite_val_compat. Qed.

Lemma is_val_unique (x : float) (q q' : Q) : is_val x q -> is_val x q' -> (q == q')%Q.
Proof.
  intros (a & A1 & A2) (b & B1 & B2). rewrite A1 in B1. injection B1 as <-.
  rewrite <- A2, <- B2. reflexivity.
Qed.

Theorem mul_val (x y : float) (a b : Q) :
  is_val x a -> is_val y b -> (Qabs (rnd (a * b)) < p2 1024)%Q ->
  is_val (x * y)%float (rnd (a * b)).
Proof.
  intros Hx Hy Hb. unfold is_val. rewrite mul_spec.
  apply (SFmul_finite _ _ a b (Prim2SF_valid x) (Prim2SF_valid y) Hx Hy Hb).
Qed.

Theorem add_val (x y : float) (a b : Q) :
  is_val x a -> is_val y b -> (Qabs (rnd (a + b)) < p2 1024)%Q ->
  is_val (x + y)%float (rnd (a + b)).
Proof.
  intros Hx Hy Hb. unfold is_val. rewrite add_spec.
  apply (SFadd_finite _ _ a b (Prim2SF_valid x) (Prim2SF_valid y) Hx Hy Hb).
Qed.

Theorem sub_val (x y : float) (a b : Q) :
  is_val x a -> is_val y b -> (Qabs (rnd (a - b)) < p2 1024)%Q ->
  is_val (x - y)%float (rnd (a - b)).
Proof.
  intros Hx Hy Hb. unfold is_val. rewrite sub_spec.
  apply (SFsub_finite _ _ a b (Prim2SF_valid x) (Prim2SF_valid y) Hx Hy Hb).
Qed.

Theorem div_val (x y : float) (a b : Q) :
  is_val x a -> is_val y b -> ~ (b == 0)%Q -> (Qabs (rnd (a / b)) < p2 1024)%Q ->
  is_val (x / y)%float (rnd (a / b)).
Proof.
  intros Hx Hy Nb Hb. unfold is_val. rewrite div_spec.
  apply (SFdiv_finite _ _ a b (Prim2SF_valid x) (Prim2SF_valid y) Hx Hy Nb Hb).
Qed.

Theorem ltb_val (x y : float) (a b : Q) :
  is_val x a -> is_val y b -> ((x <? y)%float = true <-> (a < b)%Q).
Proof.
  intros Hx Hy. rewrite ltb_spec.
  apply (SFltb_finite _ _ a b (Prim2SF_valid x) (Prim2SF_valid y) Hx Hy).
Qed.

Theorem leb_val (x y : float) (a b : Q) :
  is_val x a -> is_val y b -> ((x <=? y)%float = true <-> (a <= b)%Q).
Proof.
  intros Hx Hy. rewrite leb_spec.
  apply (SFleb_finite _ _ a b (Prim2SF_valid x) (Prim2SF_valid y) Hx Hy).
Qed.

Theorem eqb_val (x y : float) (a b : Q) :
  is_val x a -> is_val y b -> ((x =? y)%float = true <-> (a == b)%Q).
Proof.
  intros Hx Hy. rewrite eqb_spec.
  apply (SFeqb_finite _ _ a b (Prim2SF_valid x) (Prim2SF_valid y) Hx Hy).
Qed.

Theorem of_Z_val (n : Z) :
  (Qabs (rnd (inject_Z n)) < p2 1024)%Q -> is_val (float_of_Z n) (rnd (inject_Z n)).
Proof.
  intros Hb.
  assert (E : (inject_Z n * p2 0 == inject_Z n)%Q) by (rewrite p2_0; ring).
  rewrite <- E in Hb. destruct (binary_normalize_finite n 0 Hb) as [V1 V2].
  unfold is_val, float_of_Z. rewrite Prim2SF_SF2Prim by exact V1.
  apply (finite_val_compat _ _ _ (rnd_proper _ _ E)). exact V2.
Qed.

Corollary of_Z_exact (n : Z) : Z.abs n <= 2 ^ 53 -> is_val (float_of_Z n) (inject_Z n).
Proof.
  intros H. pose proof (rnd_integer n H) as E.
  apply (is_val_compat _ _ _ E). apply of_Z_val. rewrite E.
  apply Qle_lt_trans with (p2 53); [|apply p2_lt; lia].
  rewrite p2_inject by lia. apply Qabs_Qle_condition. rewrite <- inject_Z_opp, <- !Zle_Qle. lia.
Qed.

Theorem float_round_val (x : float) (q : Q) :
  is_val x q -> float_round x = round_half_even q.
Proof.
  intros (q' & E1 & E2). unfold float_round. rewrite E1. apply round_half_even_compat, E2.
Qed.

(** Every double is a NaN, an infinity, or finite. *)
Theorem float_cases (x : float) :
  x = nan \/ x = infinity \/ x = neg_infinity \/ exists q, is_val x q.
Proof.
  destruct (Prim2SF x) as [s|s| |s m e] eqn:E.
  - right. right. right. exists 0%Q. unfold is_val. rewrite E. apply finite_zero. reflexivity.
  - rewrite <- (SF2Prim_Prim2SF x), E. destruct s; cbn; auto.
  - rewrite <- (SF2Prim_Prim2SF x), E. cbn. auto.
  - right. right. right. destruct (SF2Q_finite s m e) as (q & H1 & H2).
    exists q. unfold is_val. rewrite E. exists q. split; [exact H1 | reflexivity].
Qed.

(** * The program on doubles *)

(** ** Values of the operations *)

Lemma rnd_le_int (x : Q) (n : Z) :
  Z.abs n <= 2 ^ 53 -> (x <= inject_Z n)%Q -> (rnd x <= inject_Z n)%Q.
Proof. intros H K. rewrite <- (rnd_integer n H). apply rnd_monotone, K. Qed.

Lemma rnd_ge_int (x : Q) (n : Z) :
  Z.abs n <= 2 ^ 53 -> (inject_Z n <= x)%Q -> (inject_Z n <= rnd x)%Q.
Proof. intros H K. rewrite <- (rnd_integer n H). apply rnd_monotone, K. Qed.

Lemma rnd_p2 (k : Z) : -1074 <= k -> (rnd (p2 k) == p2 k)%Q.
Proof.
  intros H. pose proof (rnd_exact 1 k ltac:(cbn; lia) H) as E.
  assert (X : (inject_Z 1 * p2 k == p2 k)%Q) by (change (inject_Z 1) with 1%Q; ring).
  rewrite X in E. exact E.
Qed.

(** A value below [2^1000] in absolute value is rounded to a finite double. *)
Lemma rnd_fin (q : Q) (B : Z) :
  (Qabs q <= inject_Z B)%Q -> B <= 2 ^ 1000 -> (Qabs (rnd q) < p2 1024)%Q.
Proof.
  intros H HB.
  assert (HP : (Qabs q <= p2 1000)%Q).
  { apply Qle_trans with (inject_Z B); [exact H|]. rewrite p2_inject by lia.
    rewrite <- Zle_Qle. exact HB. }
  apply Qabs_Qle_condition in HP. destruct HP as [H1 H2].
  apply rnd_monotone in H1. apply rnd_monotone in H2.
  rewrite rnd_opp in H1. rewrite rnd_p2 in H1, H2 by lia.
  apply Qle_lt_trans with (p2 1000); [|apply p2_lt; lia].
  apply Qabs_Qle_condition. split; assumption.
Qed.

Lemma Qabs_le_int (q : Q) (lo hi B : Z) :
  (inject_Z lo <= q)%Q -> (q <= inject_Z hi)%Q -> - B <= lo -> hi <= B ->
  (Qabs q <= inject_Z B)%Q.
Proof.
  intros H1 H2 L U. apply Qabs_Qle_condition. split.
  - apply Qle_trans with (inject_Z lo); [|exact H1]. rewrite <- inject_Z_opp, <- Zle_Qle. exact L.
  - apply Qle_trans with (inject_Z hi); [exact H2|]. rewrite <- Zle_Qle. exact U.
Qed.

Section Doubles.

Notation "x '~' q" := (is_val x q) (at level 70, no associativity).

Lemma of_Z64 (n : Z) : Z.abs n <= 2 ^ 53 -> of_Z (Arith := binary64) n ~ inject_Z n.
Proof. apply of_Z_exact. Qed.

Lemma fmul64 (x y : float) (a b : Q) (B : Z) :
  x ~ a -> y ~ b -> (Qabs (a * b) <= inject_Z B)%Q -> B <= 2 ^ 1000 ->
  fmul (Arith := binary64) x y ~ rnd (a * b).
Proof. intros Hx Hy H HB. apply mul_val; [assumption..|]. exact (rnd_fin _ B H HB). Qed.

Lemma fadd64 (x y : float) (a b : Q) (B : Z) :
  x ~ a -> y ~ b -> (Qabs (a + b) <= inject_Z B)%Q -> B <= 2 ^ 1000 ->
  fadd (Arith := binary64) x y ~ rnd (a + b).
Proof. intros Hx Hy H HB. apply add_val; [assumption..|]. exact (rnd_fin _ B H HB). Qed.

Lemma fsub64 (x y : float) (a b : Q) (B : Z) :
  x ~ a -> y ~ b -> (Qabs (a - b) <= inject_Z B)%Q -> B <= 2 ^ 1000 ->
  fsub (Arith := binary64) x y ~ rnd (a - b).
Proof. intros Hx Hy H HB. apply sub_val; [assumption..|]. exact (rnd_fin _ B H HB). Qed.

Lemma fdiv64 (x y : float) (a b : Q) (B : Z) :
  x ~ a -> y ~ b -> ~ (b == 0)%Q -> (Qabs (a / b) <= inject_Z B)%Q -> B <= 2 ^ 1000 ->
  fdiv (Arith := binary64) x y ~ rnd (a / b).
Proof. intros Hx Hy N H HB. apply div_val; [assumption..|]. exact (rnd_fin _ B H HB). Qed.

Lemma fltb64 (x y : float) (a b : Q) :
  x ~ a -> y ~ b -> fltb (Arith := binary64) x y = Qltb a b.
Proof.
  intros Hx Hy. pose proof (ltb_val x y a b Hx Hy) as H. cbn [fltb binary64].
  destruct (Qltb a b) eqn:E.
  - apply H, Qltb_true, E.
  - apply not_true_iff_false. intros K. apply H in K. apply Qltb_false in E. lra.
Qed.

Lemma fleb64 (x y : float) (a b : Q) :
  x ~ a -> y ~ b -> fleb (Arith := binary64) x y = Qle_bool a b.
Proof.
  intros Hx Hy. pose proof (leb_val x y a b Hx Hy) as H. cbn [fleb binary64].
  destruct (Qle_bool a b) eqn:E.
  - apply H, Qle_bool_iff, E.
  - apply not_true_iff_false. intros K. apply H, Qle_bool_iff in K. congruence.
Qed.

Lemma feqb64 (x y : float) (a b : Q) :
  x ~ a -> y ~ b -> feqb (Arith := binary64) x y = Qeq_bool a b.
Proof.
  intros Hx Hy. pose proof (eqb_val x y a b Hx Hy) as H. cbn [feqb binary64].
  destruct (Qeq_bool a b) eqn:E.
  - apply H, Qeq_bool_iff, E.
  - apply not_true_iff_false. intros K. apply H, Qeq_bool_iff in K. congruence.
Qed.

Lemma fround64 (x : float) (a : Q) :
  x ~ a -> fround (Arith := binary64) x = round_half_even a.
Proof. apply float_round_val. Qed.

Lemma round_rnd_byte (q : Q) :
  (0 <= q)%Q -> (q <= 255)%Q -> byte (round_half_even (rnd q)).
Proof.
  intros H0 H1. apply round_byte.
  - apply rnd_nonneg, H0.
  - apply (rnd_le_int q 255); [cbn; lia | exact H1].
Qed.

Lemma p2_small (k : Z) : k <= -10 -> (p2 k <= 1 # 1024)%Q.
Proof. intros H. change (1 # 1024)%Q with (p2 (-10)). apply p2_le, H. Qed.

Lemma byte_Q (z : Z) : byte z -> (0 <= inject_Z z)%Q /\ (inject_Z z <= 255)%Q.
Proof.
  intros [H0 H1]. split.
  - change 0%Q with (inject_Z 0). rewrite <- Zle_Qle. exact H0.
  - change 255%Q with (inject_Z 255). rewrite <- Zle_Qle. exact H1.
Qed.

Lemma rnd_error_le (x : Q) (j : Z) (B : Q) :
  (Qabs x <= B)%Q -> (B <= p2 j)%Q -> -1021 <= j ->
  (rnd x - x <= p2 (j - 53))%Q /\ (x - rnd x <= p2 (j - 53))%Q.
Proof.
  intros H HB Hj. assert (H' : (Qabs x <= p2 j)%Q) by lra.
  pose proof (rnd_error x j H' Hj) as E. apply Qabs_Qle_condition in E. lra.
Qed.

Lemma round_below (q : Q) (n : Z) :
  (q < inject_Z n + (1 # 2))%Q -> round_half_even q <= n.
Proof.
  intros H. destruct (round_half_even_error q) as [E _].
  assert (K : (inject_Z (round_half_even q) < inject_Z (n + 1))%Q).
  { rewrite inject_Z_plus. change (inject_Z 1) with 1%Q. lra. }
  rewrite <- Zlt_Qlt in K. lia.
Qed.

Lemma round_above (q : Q) (n : Z) :
  (inject_Z n - (1 # 2) < q)%Q -> n <= round_half_even q.
Proof.
  intros H. destruct (round_half_even_error q) as [_ E].
  assert (K : (inject_Z (n - 1) < inject_Z (round_half_even q))%Q).
  { replace (n - 1) with (n + -1) by lia. rewrite inject_Z_plus.
    assert (X : (inject_Z (-1) == - (1))%Q) by reflexivity. rewrite X. lra. }
  rewrite <- Zlt_Qlt in K. lia.
Qed.

Lemma Qabs_bounds (x lo hi : Q) : (lo <= x)%Q -> (x <= hi)%Q -> (- hi <= lo)%Q -> (Qabs x <= hi)%Q.
Proof. intros. apply Qabs_Qle_condition. lra. Qed.

Lemma Qabs_int_bound (x : Q) (B : Z) : (- inject_Z B <= x)%Q -> (x <= inject_Z B)%Q ->
  (Qabs x <= inject_Z B)%Q.
Proof. intros. apply Qabs_Qle_condition. split; assumption. Qed.

(** ** Frequency mode *)

Lemma to_byte64 (v : float) : byte (_to_byte_0_1 (A := binary64) v).
Proof.
  destruct (float_cases v) as [->|[->|[->|[a Ha]]]];
    try (apply in_range_byte; vm_compute; reflexivity).
  unfold _to_byte_0_1, fgtb.
  pose proof (of_Z64 0 ltac:(cbn; lia)) as Z0. pose proof (of_Z64 1 ltac:(cbn; lia)) as Z1.
  pose proof (of_Z64 255 ltac:(cbn; lia)) as Z255.
  rewrite (fltb64 _ _ _ _ Ha Z0), (fltb64 _ _ _ _ Z1 Ha).
  destruct (Qltb a (inject_Z 0)) eqn:E0; [apply in_range_byte; vm_compute; reflexivity|].
  destruct (Qltb (inject_Z 1) a) eqn:E1; [apply in_range_byte; vm_compute; reflexivity|].
  apply Qltb_false in E0, E1. change (inject_Z 0) with 0%Q in E0. change (inject_Z 1) with 1%Q in E1.
  assert (H : (0 <= a * inject_Z 255 <= 255)%Q) by (change (inject_Z 255) with 255%Q; lra).
  rewrite (fround64 _ (rnd (a * inject_Z 255))).
  - apply round_rnd_byte; apply H.
  - apply (fmul64 _ _ _ _ 255 Ha Z255); [|lia].
    apply (Qabs_le_int _ 0 255); try lia; apply H.
Qed.

Lemma freq_bytes64 (text : str) (den : Denominator.t) :
  bytes (fst (_compute_rgb_freq (A := binary64) text den)).
Proof.
  unfold _compute_rgb_freq.
  destruct (match den with
            | Denominator.VISIBLE => _ | Denominator.LETTERS => _ | Denominator.RGB_HITS => _
            end) as [letters base_count].
  cbn [fst]. unfold bytes. repeat split; apply to_byte64.
Qed.

End Doubles.

(** ** Length floor *)

Lemma length_floor_target_range (n : Z) : 80 <= _length_floor_target n <= 200.
Proof.
  destruct (length_floor_target_cases n) as (H1 & H2 & H3).
  destruct (Z_le_gt_dec n 6); [rewrite H1 by lia; lia|].
  destruct (Z_le_gt_dec 30 n); [rewrite H2 by lia; lia|].
  rewrite H3 by lia. lia.
Qed.

Lemma inject_Z_pos_nonzero (n : Z) : 0 < n -> ~ (inject_Z n == 0)%Q.
Proof. intros H E. unfold Qeq in E. cbn in E. lia. Qed.

(** The scale factor of the length floor: the double nearest to
    [target / current], which is above 1. *)
Lemma floor_factor64 (tgt cur : Z) :
  0 < cur -> cur < tgt -> tgt <= 200 ->
  exists f, is_val (of_Z (Arith := binary64) tgt /! of_Z cur) f
            /\ (257 # 256 <= f)%Q /\ (f <= 200)%Q.
Proof.
  intros H0 H1 H2. exists (rnd (inject_Z tgt / inject_Z cur)).
  assert (Hc : (0 < inject_Z cur)%Q) by (change 0%Q with (inject_Z 0); rewrite <- Zlt_Qlt; exact H0).
  assert (L : (257 # 256 <= inject_Z tgt / inject_Z cur)%Q).
  { apply Qle_shift_div_l; [exact Hc|]. unfold Qle. cbn [Qnum Qden Qmult inject_Z].
    rewrite ?Pos.mul_1_r, ?Z.mul_1_r. lia. }
  assert (U : (inject_Z tgt / inject_Z cur <= inject_Z 200)%Q).
  { apply Qle_shift_div_r; [exact Hc|]. rewrite <- inject_Z_mult, <- Zle_Qle. nia. }
  split; [|split].
  - apply (fdiv64 _ _ _ _ 200); try (apply of_Z64; lia).
    + apply inject_Z_pos_nonzero, H0.
    + apply (Qabs_le_int _ 0 200); try lia; [|exact U].
      change (inject_Z 0) with 0%Q. lra.
    + lia.
  - assert (E : (rnd (257 # 256) == 257 # 256)%Q).
    { pose proof (rnd_exact 257 (-8) ltac:(cbn; lia) ltac:(lia)) as E.
      assert (X : (inject_Z 257 * p2 (-8) == 257 # 256)%Q) by reflexivity.
      rewrite X in E. exact E. }
    rewrite <- E. apply rnd_monotone, L.
  - apply (rnd_le_int _ 200); [cbn; lia | exact U].
Qed.

Lemma floor_channel64 (ch : Z) (factor : float) (f : Q) :
  0 <= ch <= 255 -> is_val factor f -> (1 <= f)%Q -> (f <= 200)%Q ->
  ch <= Z.min 255 (fround (Arith := binary64) (of_Z ch *! factor)) <= 255.
Proof.
  intros Hch Hf L U.
  assert (Hc : (0 <= inject_Z ch)%Q) by (change 0%Q with (inject_Z 0); rewrite <- Zle_Qle; lia).
  assert (Hc' : (inject_Z ch <= 255)%Q) by (change 255%Q with (inject_Z 255); rewrite <- Zle_Qle; lia).
  assert (P1 : (inject_Z ch <= inject_Z ch * f)%Q) by nra.
  assert (P2 : (inject_Z ch * f <= inject_Z 51000)%Q) by (change (inject_Z 51000) with 51000%Q; nra).
  rewrite (fround64 _ (rnd (inject_Z ch * f))).
  - assert (ch <= round_half_even (rnd (inject_Z ch * f))).
    { apply round_half_even_lower. apply rnd_ge_int; [lia | exact P1]. }
    lia.
  - apply (fmul64 _ _ _ _ 51000); [apply of_Z64; lia | exact Hf | | lia].
    apply (Qabs_le_int _ 0 51000); try lia; [|exact P2].
    change (inject_Z 0) with 0%Q. lra.
Qed.

Lemma length_floor_cases64 (r g b : Z) (base_count : Z) (cfg : ComputeConfig) :
  bytes (r, g, b) ->
  let c' := _apply_length_floor (A := binary64) (r, g, b) base_count cfg in
  c' = (r, g, b)
  \/ exists (factor : float) (f : Q),
       is_val factor f /\ (257 # 256 <= f)%Q /\ (f <= 200)%Q
       /\ factor = of_Z (_length_floor_target base_count) /! of_Z (Z.max (Z.max r g) b)
       /\ 0 < Z.max (Z.max r g) b < _length_floor_target base_count
       /\ c' = (Z.min 255 (fround (of_Z r *! factor)),
                Z.min 255 (fround (of_Z g *! factor)),
                Z.min 255 (fround (of_Z b *! factor))).
Proof.
  intros Hc c'. subst c'. unfold _apply_length_floor.
  destruct (negb (apply_length_floor cfg) || (base_count <=? 0)); [now left|].
  set (cur := Z.max (Z.max r g) b). set (tgt := _length_floor_target base_count).
  destruct ((cur <=? 0) || (cur >=? tgt)) eqn:Eg; [now left|].
  apply orb_false_iff in Eg. destruct Eg as [E1 E2].
  apply Z.leb_gt in E1. rewrite Z.geb_leb in E2. apply Z.leb_gt in E2.
  pose proof (length_floor_target_range base_count) as [T0 T1]. fold tgt in T0, T1.
  destruct (floor_factor64 tgt cur E1 E2 T1) as (f & Hf & L & U).
  right. exists (of_Z tgt /! of_Z cur), f. repeat split; try assumption.
Qed.

(** C6: on a colour of bytes the length floor lowers no channel: the
    result is the colour itself, or each channel is its value times a factor
    above 1, rounded and capped at 255. *)
Theorem length_floor_never_darkens (c : RGB) (base_count : Z) (cfg : ComputeConfig) :
  bytes c ->
  let c' := _apply_length_floor (A := binary64) c base_count cfg in
  red_of c <= red_of c' /\ green_of c <= green_of c' /\ blue_of c <= blue_of c'
  /\ bytes c'
  /\ (c' = c
      \/ exists factor : float,
           (of_Z 1 <! factor) = true
           /\ c' = (Z.min 255 (fround (of_Z (red_of c) *! factor)),
                    Z.min 255 (fround (of_Z (green_of c) *! factor)),
                    Z.min 255 (fround (of_Z (blue_of c) *! factor)))).
Proof.
  intros Hc c'. destruct c as [[r g] b]. cbn [red_of green_of blue_of fst snd].
  destruct (length_floor_cases64 r g b base_count cfg Hc)
    as [E|(factor & f & Hf & L & U & _ & _ & E)]; fold c' in E; rewrite E.
  - cbn [red_of green_of blue_of fst snd]. destruct Hc as (Hr & Hg & Hb).
    repeat split; try lia; try apply Hr; try apply Hg; try apply Hb. now left.
  - destruct Hc as (Hr & Hg & Hb).
    assert (L1 : (1 <= f)%Q) by lra.
    pose proof (floor_channel64 r factor f Hr Hf L1 U) as Kr.
    pose proof (floor_channel64 g factor f Hg Hf L1 U) as Kg.
    pose proof (floor_channel64 b factor f Hb Hf L1 U) as Kb.
    unfold byte in *. cbn [red_of green_of blue_of fst snd].
    repeat split; try lia.
    right. exists factor. split; [|reflexivity].
    rewrite (fltb64 _ _ 1 f (of_Z64 1 ltac:(cbn; lia)) Hf). apply Qltb_true. lra.
Qed.

Lemma length_floor_never_darkens_witness :
  bytes (21, 70, 0)
  /\ (let c' := _apply_length_floor (A := binary64) (21, 70, 0) 29 default_config in
      red_of (21, 70, 0) <= red_of c' /\ green_of (21, 70, 0) <= green_of c'
      /\ blue_of (21, 70, 0) <= blue_of c' /\ bytes c'
      /\ (c' = (21, 70, 0)
          \/ exists factor : float,
               (of_Z 1 <! factor) = true
               /\ c' = (Z.min 255 (fround (of_Z (red_of (21, 70, 0)) *! factor)),
                        Z.min 255 (fround (of_Z (green_of (21, 70, 0)) *! factor)),
                        Z.min 255 (fround (of_Z (blue_of (21, 70, 0)) *! factor))))).
Proof.
  split; [unfold bytes, byte; lia|].
  apply (length_floor_never_darkens (21, 70, 0) 29 default_config).
  unfold bytes, byte; lia.
Defined.

Example length_floor_on_doubles :
  _apply_length_floor (A := binary64) (21, 70, 0) 29 default_config = (25, 85, 0).
Proof. vm_compute. reflexivity. Qed.

Lemma length_floor_bytes64 (c : RGB) (base_count : Z) (cfg : ComputeConfig) :
  bytes c -> bytes (_apply_length_floor (A := binary64) c base_count cfg).
Proof.
  intros Hc. destruct c as [[r g] b].
  destruct (length_floor_cases64 r g b base_count cfg Hc)
    as [E|(factor & f & Hf & L & U & _ & _ & E)]; rewrite E; [exact Hc|].
  destruct Hc as (Hr & Hg & Hb). assert (L1 : (1 <= f)%Q) by lra.
  pose proof (floor_channel64 r factor f Hr Hf L1 U) as Kr.
  pose proof (floor_channel64 g factor f Hg Hf L1 U) as Kg.
  pose proof (floor_channel64 b factor f Hb Hf L1 U) as Kb.
  unfold bytes, byte in *. repeat split; lia.
Qed.

(** ** Override resolver *)

Lemma accumulate_step {F} {A : Arith F} (k : string) (acc : Sums) (g : option str) :
  known_key k = true ->
  accumulate (A := A) k acc g
  = Ok {| sum_red := sum_red acc +! of_Z (red_of (target_of k));
          sum_green := sum_green acc +! of_Z (green_of (target_of k));
          sum_blue := sum_blue acc +! of_Z (blue_of (target_of k));
          sum_weight := sum_weight acc +! suffix_weight g;
          match_count := match_count acc + 1 |}.
Proof.
  intros Hk. destruct (known_key_target k Hk) as [E _].
  unfold accumulate. cbn [dict_item OVERRIDE_SUFFIX_WEIGHTS BASE_WORD_SUFFIX_KEY str_of map
    list_ascii_of_string str_eqb bind].
  rewrite E. cbn [bind]. destruct (target_of k) as [[r g'] b]. reflexivity.
Qed.

Lemma accumulate_fold {F} {A : Arith F} (ms : list (string * option str)) (st : Sums) :
  Forall (fun m => known_key (fst m) = true) ms ->
  for_each (fun acc '(color_key, group1) => accumulate (A := A) color_key acc group1) ms st
  = Ok {| sum_red := fold_left fadd (reds ms) (sum_red st);
          sum_green := fold_left fadd (greens ms) (sum_green st);
          sum_blue := fold_left fadd (blues ms) (sum_blue st);
          sum_weight := fold_left fadd (weights ms) (sum_weight st);
          match_count := match_count st + Z.of_nat (List.length ms) |}.
Proof.
  intros H. revert st. induction H as [|[k g] ms Hk _ IH]; intros st.
  - cbn [for_each reds greens blues weights map fold_left List.length Z.of_nat].
    rewrite Z.add_0_r. destruct st; reflexivity.
  - cbn [for_each]. rewrite (accumulate_step k st g Hk). cbn [bind]. rewrite IH.
    cbn [sum_red sum_green sum_blue sum_weight match_count reds greens blues weights map
         fold_left fst snd List.length].
    rewrite Nat2Z.inj_succ. f_equal. f_equal. lia.
Qed.

(** The two nested loops of the resolver are one pass over all matches: the
    sums are the targets and the weights added in match order, and the result
    is formed from them. *)
Lemma find_override_fold {F} {A : Arith F} (env : Runtime F) (text_trans : str) :
  let ms := all_matches env text_trans in
  find_override_and_weight (A := A) env text_trans
  = Ok (match ms with
        | [] => None
        | _ :: _ => Some (mean_override ms)
        end).
Proof.
  intros ms. unfold find_override_and_weight. rewrite nested_loops_flatten.
  fold (all_matches env text_trans). fold ms.
  rewrite (accumulate_fold ms _ (all_matches_keys_known env text_trans)).
  cbn [bind sum_red sum_green sum_blue sum_weight match_count].
  destruct ms as [|m ms']; [reflexivity|].
  set (l := m :: ms'). rewrite Z.add_0_l.
  assert (Hn : (Z.of_nat (List.length l) =? 0) = false)
    by (apply Z.eqb_neq; unfold l; cbn [List.length]; lia).
  rewrite Hn.
  cbn [dict_item OVERRIDE_SUFFIX_WEIGHTS BASE_WORD_SUFFIX_KEY str_of map
    list_ascii_of_string str_eqb bind].
  unfold mean_override, fmean, fsum, clamp_weight.
  unfold reds, greens, blues, weights. rewrite !length_map. reflexivity.
Qed.

(** *** On doubles *)

Lemma dec64 (n : Z) (d : positive) :
  0 <= n <= 2 ^ 53 -> Zpos d <= 2 ^ 53 ->
  is_val (dec (H := binary64) n d) (rnd (n # d)).
Proof.
  intros Hn Hd. unfold dec.
  apply (is_val_compat _ (rnd (inject_Z n / inject_Z (Zpos d)))).
  { apply rnd_proper. symmetry. apply Qmake_Qdiv. }
  apply (fdiv64 _ _ _ _ (2 ^ 53)); try (apply of_Z64; lia); [discriminate| |lia].
  rewrite <- Qmake_Qdiv. apply (Qabs_le_int _ 0 n); try lia.
  - unfold Qle. cbn. lia.
  - unfold Qle. cbn. nia.
Qed.

Lemma rnd_unit (q : Q) : (0 <= q)%Q -> (q <= 1)%Q -> (0 <= rnd q)%Q /\ (rnd q <= 1)%Q.
Proof.
  intros H0 H1. split; [apply rnd_nonneg, H0|]. apply (rnd_le_int q 1); [cbn; lia | exact H1].
Qed.

Lemma suffix_weight64 (g : option str) :
  exists q, is_val (suffix_weight (A := binary64) g) q /\ (0 <= q)%Q /\ (q <= 1)%Q.
Proof.
  unfold suffix_weight. set (sfx := match g with Some t => _ | None => _ end).
  unfold OVERRIDE_SUFFIX_WEIGHTS, dict_get.
  repeat match goal with |- context [if ?b then _ else _] => destruct b end;
    (eexists; split; [apply dec64; cbn; lia | apply rnd_unit; unfold Qle; cbn; lia]).
Qed.

Lemma Zabs_small (n B : Z) : 0 <= n <= B -> B <= 2 ^ 53 -> Z.abs n <= 2 ^ 53.
Proof. lia. Qed.

(** Sums of bytes are exact as long as they stay below [2^53]. *)
Lemma fold_bytes_exact (l : list Z) (acc : float) (a : Z) :
  Forall byte l -> is_val acc (inject_Z a) -> 0 <= a ->
  a + 255 * Z.of_nat (List.length l) <= 2 ^ 53 ->
  exists s, is_val (fold_left (fadd (Arith := binary64)) (map of_Z l) acc) (inject_Z s)
            /\ a <= s <= a + 255 * Z.of_nat (List.length l).
Proof.
  intros H. revert acc a. induction H as [|x l Hx _ IH]; intros acc a Ha H0 Hb.
  - exists a. cbn [map fold_left List.length Z.of_nat]. split; [exact Ha | lia].
  - cbn [map fold_left]. cbn [List.length] in Hb. rewrite Nat2Z.inj_succ in Hb.
    unfold byte in Hx.
    assert (Hs : is_val (fadd (Arith := binary64) acc (of_Z x)) (inject_Z (a + x))).
    { apply (is_val_compat _ (rnd (inject_Z a + inject_Z x))).
      - rewrite <- inject_Z_plus. apply rnd_integer. lia.
      - apply (fadd64 _ _ _ _ (2 ^ 53)); [exact Ha | apply of_Z64; lia | | lia].
        rewrite <- inject_Z_plus. apply (Qabs_le_int _ 0 (a + x)); try lia;
          rewrite <- Zle_Qle; lia. }
    destruct (IH _ (a + x) Hs ltac:(lia) ltac:(lia)) as (s & Hv & Hr).
    exists s. split; [exact Hv | cbn [List.length]; rewrite Nat2Z.inj_succ; lia].
Qed.

Lemma rnd_absorb : (rnd (inject_Z (2 ^ 60 + 1)) == inject_Z (2 ^ 60))%Q.
Proof. apply Qeq_bool_iff. vm_compute. reflexivity. Qed.

(** A sum of weights stays finite. *)
Lemma fold_weights_finite (l : list float) (acc : float) (a : Q) :
  Forall (fun w => exists q, is_val w q /\ (0 <= q)%Q /\ (q <= 1)%Q) l ->
  is_val acc a -> (0 <= a)%Q -> (a <= inject_Z (2 ^ 60))%Q ->
  exists s, is_val (fold_left (fadd (Arith := binary64)) l acc) s
            /\ (0 <= s)%Q /\ (s <= inject_Z (2 ^ 60))%Q.
Proof.
  intros H. revert acc a. induction H as [|w l (q & Hw & Q0 & Q1) _ IH]; intros acc a Ha A0 A1.
  - exists a. cbn [fold_left]. auto.
  - cbn [fold_left].
    assert (U : (a + q <= inject_Z (2 ^ 60 + 1))%Q).
    { rewrite inject_Z_plus. change (inject_Z 1) with 1%Q. lra. }
    apply (IH _ (rnd (a + q))).
    + apply (fadd64 _ _ _ _ (2 ^ 60 + 1)); [exact Ha | exact Hw | | lia].
      apply Qabs_Qle_condition. split; [|exact U].
      apply Qle_trans with 0%Q; [|lra]. rewrite <- inject_Z_opp.
      change 0%Q with (inject_Z 0). rewrite <- Zle_Qle. lia.
    + apply rnd_nonneg. lra.
    + rewrite <- rnd_absorb. apply rnd_monotone, U.
Qed.

Lemma mean_byte64 (l : list Z) :
  Forall byte l -> l <> [] -> 255 * Z.of_nat (List.length l) <= 2 ^ 53 ->
  byte (fround (fmean (A := binary64) (map of_Z l))).
Proof.
  intros Hl Hne Hb. unfold fmean, fsum. rewrite length_map.
  set (k := Z.of_nat (List.length l)) in *.
  assert (Hk : 0 < k) by (unfold k; destruct l; [congruence | cbn [List.length]; lia]).
  destruct (fold_bytes_exact l (of_Z 0) 0 Hl (of_Z64 0 ltac:(cbn; lia)) ltac:(lia) Hb)
    as (s & Hs & S0 & S1). fold k in S1.
  assert (Kq : (0 < inject_Z k)%Q) by (change 0%Q with (inject_Z 0); rewrite <- Zlt_Qlt; exact Hk).
  assert (L : (0 <= inject_Z s / inject_Z k)%Q).
  { apply Qle_shift_div_l; [exact Kq|]. rewrite Qmult_0_l.
    change 0%Q with (inject_Z 0). rewrite <- Zle_Qle. lia. }
  assert (U : (inject_Z s / inject_Z k <= 255)%Q).
  { apply Qle_shift_div_r; [exact Kq|]. change 255%Q with (inject_Z 255).
    rewrite <- inject_Z_mult, <- Zle_Qle. lia. }
  rewrite (fround64 _ (rnd (inject_Z s / inject_Z k))).
  - apply round_rnd_byte; assumption.
  - apply (fdiv64 _ _ _ _ 255); [exact Hs | apply of_Z64; lia | | | lia].
    + intros E. rewrite E in Kq. lra.
    + apply (Qabs_le_int _ 0 255); try lia; assumption.
Qed.

Lemma base_weight64 :
  exists q, is_val (dec (H := binary64) 70 100) q /\ (0 < q)%Q /\ (q <= 7 # 10)%Q.
Proof.
  exists (rnd (70 # 100)). split; [apply dec64; cbn; lia|]. split.
  - apply Qltb_true. vm_compute. reflexivity.
  - apply Qle_bool_iff. vm_compute. reflexivity.
Qed.

(** The clamp gives a weight in [0, 0.70], whatever finite mean it gets. *)
Lemma clamp_weight64 (x : float) (a : Q) :
  is_val x a ->
  exists q, is_val (clamp_weight (A := binary64) x) q /\ (0 <= q)%Q /\ (q <= 7 # 10)%Q.
Proof.
  intros Hx. destruct base_weight64 as (b & Hb & B0 & B1).
  pose proof (of_Z64 0 ltac:(cbn; lia)) as Z0.
  unfold clamp_weight, fgtb. rewrite (fltb64 _ _ _ _ Hx Z0), (fltb64 _ _ _ _ Hb Hx).
  change (inject_Z 0) with 0%Q in *.
  destruct (Qltb a 0) eqn:E0; [exists 0%Q; split; [exact Z0 | lra]|].
  destruct (Qltb b a) eqn:E1; [exists b; split; [exact Hb | lra]|].
  apply Qltb_false in E0, E1. exists a. split; [exact Hx | lra].
Qed.

Lemma targets_bytes (ms : list (string * option str)) (proj : RGB -> Z) :
  proj = red_of \/ proj = green_of \/ proj = blue_of ->
  Forall (fun m => known_key (fst m) = true) ms ->
  Forall byte (map (fun m => proj (target_of (fst m))) ms).
Proof.
  intros Hp H. apply Forall_map. eapply Forall_impl; [|exact H].
  intros m Hk. destruct (known_key_target _ Hk) as [_ Hb].
  destruct (target_of (fst m)) as [[r g] b]. destruct Hb as (Hr & Hg & Hbb).
  destruct Hp as [->|[->| ->]]; assumption.
Qed.

(** What the resolver returns on doubles for up to [2^45] matches: a colour
    of bytes and a finite weight in [0, 0.70]. *)
Lemma override64 (env : Runtime float) (text : str) :
  Z.of_nat (List.length (all_matches env text)) <= 2 ^ 45 ->
  find_override_and_weight (A := binary64) env text = Ok None
  \/ exists o w q,
       find_override_and_weight (A := binary64) env text = Ok (Some (o, w))
       /\ bytes o /\ is_val w q /\ (0 <= q)%Q /\ (q <= 7 # 10)%Q.
Proof.
  intros Hlen. rewrite find_override_fold.
  pose proof (all_matches_keys_known env text) as Hk.
  destruct (all_matches env text) as [|m ms] eqn:E; [now left|]. right.
  set (l := m :: ms) in *.
  assert (Hb : 255 * Z.of_nat (List.length l) <= 2 ^ 53) by lia.
  assert (Hne : forall (f : string * option str -> Z), map f l <> [])
    by (intros f; unfold l; discriminate).
  unfold mean_override.
  (* the weight *)
  assert (Hw : Forall (fun w => exists q, is_val w q /\ (0 <= q)%Q /\ (q <= 1)%Q)
                      (weights (A := binary64) l)).
  { unfold weights. apply Forall_map, Forall_forall. intros x _. apply suffix_weight64. }
  destruct (fold_weights_finite _ (of_Z 0) 0 Hw (of_Z64 0 ltac:(cbn; lia)) ltac:(lra)
              ltac:(unfold Qle; cbn; lia)) as (s & Hs & S0 & S1).
  assert (Hcount : 0 < Z.of_nat (List.length l)) by (unfold l; cbn [List.length]; lia).
  set (k := Z.of_nat (List.length l)) in *.
  assert (Kq : (1 <= inject_Z k)%Q) by (change 1%Q with (inject_Z 1); rewrite <- Zle_Qle; lia).
  assert (Havg : is_val (fmean (A := binary64) (weights l)) (rnd (s / inject_Z k))).
  { unfold fmean, fsum. unfold weights at 2. rewrite length_map. fold k.
    apply (fdiv64 _ _ _ _ (2 ^ 60)); [exact Hs | apply of_Z64; lia | | | lia].
    - intros E0. rewrite E0 in Kq. lra.
    - apply Qabs_Qle_condition. split.
      + apply Qle_trans with 0%Q.
        * rewrite <- inject_Z_opp. change 0%Q with (inject_Z 0). rewrite <- Zle_Qle. lia.
        * apply Qle_shift_div_l; [lra|]. lra.
      + apply Qle_shift_div_r; [lra|].
        apply Qle_trans with (inject_Z (2 ^ 60) * 1)%Q; [lra|].
        apply Qmult_le_l; [reflexivity | exact Kq]. }
  destruct (clamp_weight64 _ _ Havg) as (q & Hq & Q0 & Q1).
  eexists _, _, q. split; [reflexivity|]. split; [|split; [exact Hq | split; assumption]].
  unfold bytes, reds, greens, blues.
  rewrite <- !(map_map (fun m => _ (target_of (fst m))) (of_Z (Arith := binary64))).
  repeat split; apply mean_byte64; try apply targets_bytes; auto; rewrite ?length_map; auto.
Qed.

(** *** The channel means are exact *)

Lemma Zsum_bytes (l : list Z) :
  Forall byte l -> 0 <= Zsum l <= 255 * Z.of_nat (List.length l).
Proof.
  induction 1 as [|x l Hx _ IH]; [cbn; lia|].
  cbn [Zsum fold_right List.length]. fold (Zsum l). rewrite Nat2Z.inj_succ.
  unfold byte in Hx. lia.
Qed.

(** The float sum of bytes is their sum, as long as it stays below [2^53]. *)
Lemma fold_bytes_sum (l : list Z) (acc : float) (a : Z) :
  Forall byte l -> is_val acc (inject_Z a) -> 0 <= a ->
  a + 255 * Z.of_nat (List.length l) <= 2 ^ 53 ->
  is_val (fold_left (fadd (Arith := binary64)) (map of_Z l) acc) (inject_Z (a + Zsum l)).
Proof.
  intros H. revert acc a. induction H as [|x l Hx Hl IH]; intros acc a Ha H0 Hb.
  - cbn [map fold_left Zsum fold_right]. rewrite Z.add_0_r. exact Ha.
  - cbn [map fold_left Zsum fold_right]. fold (Zsum l).
    cbn [List.length] in Hb. rewrite Nat2Z.inj_succ in Hb.
    unfold byte in Hx. rewrite Z.add_assoc.
    apply IH; [|lia|lia].
    apply (is_val_compat _ (rnd (inject_Z a + inject_Z x))).
    + rewrite <- inject_Z_plus. apply rnd_integer. lia.
    + apply (fadd64 _ _ _ _ (2 ^ 53)); [exact Ha | apply of_Z64; lia | | lia].
      rewrite <- inject_Z_plus. apply (Qabs_le_int _ 0 (a + x)); try lia;
        rewrite <- Zle_Qle; lia.
Qed.

Lemma Qdiv_Qmake (s : Z) (n : positive) : (inject_Z s / inject_Z (Zpos n) == s # n)%Q.
Proof. symmetry. apply Qmake_Qdiv. Qed.

Lemma Qmake_byte (s : Z) (n : positive) :
  0 <= s <= 255 * Zpos n -> (Qabs (s # n) <= 255)%Q.
Proof. intros Hs. apply Qabs_Qle_condition. split; unfold Qle; cbn; lia. Qed.

(** Rounding the quotient of a sum of bytes by their number to a double does
    not move it across a half: for fewer than [2^43] bytes the integer
    nearest to the double is the integer nearest to the quotient. *)
Lemma round_rnd_mean (s : Z) (n : positive) :
  Zpos n < 2 ^ 43 -> 0 <= s <= 255 * Zpos n ->
  round_half_even (rnd (s # n)) = round_half_even (s # n).
Proof.
  intros Hn Hs. set (z := round_half_even (s # n)).
  pose proof (round_half_even_near (s # n)) as Hz. fold z in Hz. cbn [Qnum Qden] in Hz.
  assert (Z0 : 0 <= z) by (unfold z; apply (round_above _ 0); unfold Qlt; cbn; lia).
  assert (Z1 : z <= 255) by (unfold z; apply (round_below _ 255); unfold Qlt; cbn; lia).
  assert (T : 2 * s = (2 * z - 1) * Zpos n \/ 2 * s = (2 * z + 1) * Zpos n
              \/ (2 * z - 1) * Zpos n + 1 <= 2 * s <= (2 * z + 1) * Zpos n - 1) by lia.
  destruct T as [T|[T|T]].
  - (* a tie: the quotient is a double *)
    assert (E : (s # n == inject_Z (2 * z - 1) * p2 (-1))%Q).
    { change (p2 (-1)) with (1 # 2)%Q. unfold Qeq. cbn [Qnum Qden Qmult inject_Z].
      rewrite Pos.mul_1_l. change (Zpos 2) with 2. lia. }
    rewrite (round_half_even_compat _ (s # n)); [reflexivity|].
    rewrite E. apply rnd_exact; lia.
  - assert (E : (s # n == inject_Z (2 * z + 1) * p2 (-1))%Q).
    { change (p2 (-1)) with (1 # 2)%Q. unfold Qeq. cbn [Qnum Qden Qmult inject_Z].
      rewrite Pos.mul_1_l. change (Zpos 2) with 2. lia. }
    rewrite (round_half_even_compat _ (s # n)); [reflexivity|].
    rewrite E. apply rnd_exact; lia.
  - (* off a tie by at least 1/(2n), and the rounding error is at most 2^-45 *)
    pose proof (Qmake_byte s n Hs) as B.
    destruct (rnd_error_le (s # n) 8 255 B ltac:(unfold Qle; cbn; lia) ltac:(lia)) as [E1 E2].
    change (p2 (8 - 53)) with (1 # 35184372088832)%Q in E1, E2.
    assert (L : (inject_Z z - (1 # 2) + (1 # 35184372088832) < s # n)%Q).
    { unfold Qlt. cbn [Qnum Qden Qplus Qminus Qopp Qmult inject_Z]. 
      rewrite ?Pos.mul_1_l, ?Pos.mul_1_r, ?Z.mul_1_r.
      change (2 ^ 43) with 8796093022208 in Hn. nia. }
    assert (U : (s # n < inject_Z z + (1 # 2) - (1 # 35184372088832))%Q).
    { unfold Qlt. cbn [Qnum Qden Qplus Qminus Qopp Qmult inject_Z]. 
      rewrite ?Pos.mul_1_l, ?Pos.mul_1_r, ?Z.mul_1_r.
      change (2 ^ 43) with 8796093022208 in Hn. nia. }
    apply round_half_even_unique; lra.
Qed.

(** The rounded float mean of fewer than [2^43] bytes is their rounded
    mean. *)
Lemma mean_exact64 (l : list Z) :
  Forall byte l -> Z.of_nat (List.length l) < 2 ^ 43 ->
  fround (fmean (A := binary64) (map of_Z l)) = rounded_mean l.
Proof.
  intros Hl Hb. destruct l as [|x l']; [vm_compute; reflexivity|].
  set (l := x :: l') in *.
  unfold fmean, fsum, rounded_mean. rewrite length_map.
  assert (Hk : exists n, Z.of_nat (List.length l) = Zpos n).
  { unfold l. cbn [List.length]. rewrite Nat2Z.inj_succ.
    destruct (Z.succ (Z.of_nat (List.length l'))) eqn:E; try lia. now exists p. }
  destruct Hk as (n & Hk). rewrite Hk in *.
  pose proof (Zsum_bytes l Hl) as Hs. rewrite Hk in Hs.
  assert (Hfit : 0 + 255 * Z.of_nat (List.length l) <= 2 ^ 53) by (rewrite Hk; lia).
  pose proof (fold_bytes_sum l (of_Z 0) 0 Hl (of_Z64 0 ltac:(cbn; lia)) ltac:(lia) Hfit) as Hv.
  rewrite Z.add_0_l in Hv.
  rewrite (fround64 _ (rnd (Zsum l # n))).
  - rewrite (round_rnd_mean _ _ Hb Hs). apply round_half_even_compat.
    symmetry. apply Qdiv_Qmake.
  - apply (is_val_compat _ (rnd (inject_Z (Zsum l) / inject_Z (Zpos n)))).
    { apply rnd_proper, Qdiv_Qmake. }
    apply (fdiv64 _ _ _ _ 255); [exact Hv | apply of_Z64; lia | discriminate | | lia].
    rewrite Qdiv_Qmake. apply Qmake_byte, Hs.
Qed.

(** C5: when no pattern matches, nothing is returned; otherwise the colour
    and the weight are means over all matches, without deduplication, as
    double arithmetic computes them: the values are added in match order and
    the sum is divided by the number of matches; the channel means are
    rounded to the nearest integer and the mean weight is clamped to
    [0, 0.70].  For fewer than [2^43] matches the channels are the exact
    arithmetic means of the targets, rounded to the nearest integer. *)
Theorem find_override_is_mean (env : Runtime float) (text_trans : str) :
  let ms := all_matches env text_trans in
  find_override_and_weight (A := binary64) env text_trans
  = Ok (match ms with
        | [] => None
        | _ :: _ => Some (mean_override ms)
        end)
  /\ (Z.of_nat (List.length ms) < 2 ^ 43 ->
      fst (mean_override (A := binary64) ms) = mean_colour ms).
Proof.
  intros ms. split; [apply find_override_fold|].
  intros Hlen. pose proof (all_matches_keys_known env text_trans) as Hk. fold ms in Hk.
  unfold mean_override, mean_colour, reds, greens, blues. cbn [fst].
  rewrite <- !(map_map (fun m => _ (target_of (fst m))) (of_Z (Arith := binary64))).
  rewrite !mean_exact64; try reflexivity; rewrite ?length_map; try exact Hlen;
    apply targets_bytes; auto.
Qed.

Lemma find_override_is_mean_witness :
  fst (mean_override (A := binary64) (all_matches (F := float) plain_env (str_of "rot blau")))
  = mean_colour (all_matches (F := float) plain_env (str_of "rot blau")).
Proof.
  apply (proj2 (find_override_is_mean plain_env (str_of "rot blau"))).
  vm_compute. reflexivity.
Defined.

(** C5, as stated, fails: in "rot rot rot" the three matches are bare words
    of weight 0.70 each, whose arithmetic mean is 0.70, and the weight
    returned is the double below it, 0.6999999999999998: the sum of three
    times 0.70 is rounded before it is divided. *)
Lemma mean_weight_is_rounded :
  all_matches (F := float) plain_env (str_of "rot rot rot")
  = [("rot"%string, None); ("rot"%string, None); ("rot"%string, None)]
  /\ suffix_weight (A := binary64) None = dec 70 100
  /\ exists w,
       find_override_and_weight (A := binary64) plain_env (str_of "rot rot rot")
       = Ok (Some ((255, 0, 0), w))
       /\ (w <! dec 70 100) = true.
Proof.
  split; [vm_compute; reflexivity|]. split; [vm_compute; reflexivity|].
  eexists. split; vm_compute; reflexivity.
Qed.

Example override_of_rot_blau :
  exists w, find_override_and_weight (A := binary64) plain_env (str_of "rot blau")
            = Ok (Some ((128, 0, 128), w))
            /\ w = dec 70 100.
Proof. eexists. split; vm_compute; reflexivity. Qed.

Example matches_are_not_deduplicated :
  all_matches (F := float) plain_env (str_of "rot rot")
  = [("rot"%string, None); ("rot"%string, None)]
  /\ all_matches (F := float) plain_env (str_of "silbern")
     = [("silber"%string, None); ("silber"%string, None)].
Proof. split; vm_compute; reflexivity. Qed.

(** ** Blending *)

(** One channel of the blend, for a finite weight in [0, 0.70]. *)
Lemma blend_channel64 (w : float) (q : Q) (r o : Z) :
  is_val w q -> (0 <= q)%Q -> (q <= 7 # 10)%Q -> byte r -> byte o ->
  byte (fround (Arith := binary64) ((of_Z 1 -! w) *! of_Z r +! w *! of_Z o)).
Proof.
  intros Hw Q0 Q1 Hr Ho.
  destruct (byte_Q r Hr) as [R0 R1]. destruct (byte_Q o Ho) as [O0 O1].
  set (R := inject_Z r) in *. set (O := inject_Z o) in *.
  pose proof (of_Z64 1 ltac:(cbn; lia)) as Z1. change (inject_Z 1) with 1%Q in Z1.
  assert (Vr : is_val (of_Z (Arith := binary64) r) R) by (apply of_Z64; unfold byte in Hr; lia).
  assert (Vo : is_val (of_Z (Arith := binary64) o) O) by (apply of_Z64; unfold byte in Ho; lia).
  (* 1 - w *)
  assert (A1 : (Qabs (1 - q) <= inject_Z 1)%Q)
    by (apply Qabs_int_bound; change (inject_Z 1) with 1%Q; lra).
  pose proof (fsub64 _ _ _ _ 1 Z1 Hw A1 ltac:(lia)) as V1.
  destruct (rnd_unit (1 - q) ltac:(lra) ltac:(lra)) as [X0 X1].
  destruct (rnd_error_le (1 - q) 0 1 A1 ltac:(rewrite p2_0; lra) ltac:(lia)) as [E1 _].
  set (x1 := rnd (1 - q)) in *.
  (* (1 - w) * r *)
  assert (B1 : (0 <= x1 * R)%Q) by nra. assert (B1' : (x1 * R <= 255)%Q) by nra.
  assert (A2 : (Qabs (x1 * R) <= inject_Z 255)%Q)
    by (apply Qabs_int_bound; change (inject_Z 255) with 255%Q; lra).
  pose proof (fmul64 _ _ _ _ 255 V1 Vr A2 ltac:(lia)) as V2.
  destruct (rnd_error_le (x1 * R) 8 255 A2 ltac:(change (p2 8) with 256%Q; lra) ltac:(lia))
    as [E2 _].
  pose proof (rnd_nonneg _ B1) as P0.
  pose proof (rnd_le_int _ 255 ltac:(cbn; lia) B1') as P1. change (inject_Z 255) with 255%Q in P1.
  set (p := rnd (x1 * R)) in *.
  (* w * o *)
  assert (C1 : (0 <= q * O)%Q) by nra. assert (C1' : (q * O <= 255)%Q) by nra.
  assert (A3 : (Qabs (q * O) <= inject_Z 255)%Q)
    by (apply Qabs_int_bound; change (inject_Z 255) with 255%Q; lra).
  pose proof (fmul64 _ _ _ _ 255 Hw Vo A3 ltac:(lia)) as V3.
  destruct (rnd_error_le (q * O) 8 255 A3 ltac:(change (p2 8) with 256%Q; lra) ltac:(lia))
    as [E3 _].
  pose proof (rnd_nonneg _ C1) as T0.
  pose proof (rnd_le_int _ 255 ltac:(cbn; lia) C1') as T1. change (inject_Z 255) with 255%Q in T1.
  set (t := rnd (q * O)) in *.
  (* the sum *)
  assert (A4 : (Qabs (p + t) <= inject_Z 510)%Q)
    by (apply Qabs_int_bound; change (inject_Z 510) with 510%Q; lra).
  pose proof (fadd64 _ _ _ _ 510 V2 V3 A4 ltac:(lia)) as V4.
  destruct (rnd_error_le (p + t) 9 510 A4 ltac:(change (p2 9) with 512%Q; lra) ltac:(lia))
    as [E4 _].
  pose proof (rnd_nonneg (p + t) ltac:(lra)) as S0.
  rewrite (fround64 _ _ V4).
  pose proof (p2_small (0 - 53) ltac:(lia)) as K1.
  pose proof (p2_small (8 - 53) ltac:(lia)) as K2.
  pose proof (p2_small (9 - 53) ltac:(lia)) as K3.
  split.
  - apply round_half_even_lower. exact S0.
  - apply round_below. change (inject_Z 255) with 255%Q.
    assert (M : ((1 - q) * R + q * O <= 255)%Q) by nra.
    assert (M1 : (x1 * R <= (1 - q) * R + (1 # 1024) * 255)%Q) by nra.
    lra.
Qed.

(** ** Anchor mode on doubles *)

Lemma is_val_eval (x : float) (q q' : Q) :
  SF2Q (Prim2SF x) = Some q' -> Qeq_bool q' q = true -> is_val x q.
Proof. intros H E. exists q'. split; [exact H | apply Qeq_bool_iff, E]. Qed.

Lemma rnd_saturate : (rnd (inject_Z (2 ^ 53 + 1)) == inject_Z (2 ^ 53))%Q.
Proof. apply Qeq_bool_iff. vm_compute. reflexivity. Qed.

Lemma rnd_half : (rnd (1 # 2) == 1 # 2)%Q.
Proof. apply Qeq_bool_iff. vm_compute. reflexivity. Qed.

Lemma add_share64 (x share : float) (q s : Q) :
  count_ok x q -> is_val share s -> (1 # 2 <= s)%Q -> (s <= 1)%Q ->
  exists q', count_ok (fadd (Arith := binary64) x share) q' /\ (1 # 2 <= q')%Q.
Proof.
  intros (Hx & Hq & Hu) Hs S0 S1.
  assert (Q0 : (0 <= q)%Q) by (destruct Hq as [E|E]; [rewrite E|]; lra).
  assert (U : (q + s <= inject_Z (2 ^ 53 + 1))%Q).
  { rewrite inject_Z_plus. change (inject_Z 1) with 1%Q. lra. }
  exists (rnd (q + s)).
  assert (L : (1 # 2 <= rnd (q + s))%Q) by (rewrite <- rnd_half; apply rnd_monotone; lra).
  split; [|exact L]. split; [|split].
  - apply (fadd64 _ _ _ _ (2 ^ 53 + 1)); [exact Hx | exact Hs | | lia].
    apply Qabs_Qle_condition. split; [|exact U].
    apply Qle_trans with 0%Q; [|lra]. rewrite <- inject_Z_opp.
    change 0%Q with (inject_Z 0). rewrite <- Zle_Qle. lia.
  - right. exact L.
  - rewrite <- rnd_saturate. apply rnd_monotone, U.
Qed.

Lemma share_one : is_val (of_Z (Arith := binary64) 1 /! of_Z (Z.of_nat 1)) 1.
Proof. eapply is_val_eval; vm_compute; reflexivity. Qed.

Lemma share_half : is_val (of_Z (Arith := binary64) 1 /! of_Z (Z.of_nat 2)) (1 # 2).
Proof. eapply is_val_eval; vm_compute; reflexivity. Qed.

Lemma anchor_step_ok (cs cs' : Counts) (ch : char) (seen : bool) :
  counts_ok cs seen -> anchor_step (A := binary64) cs ch = Ok cs' ->
  counts_ok cs' (seen || anchor_letter ch).
Proof.
  intros (qR & qG & qB & HR & HG & HB & Hs & Hn). unfold anchor_step, anchor_letter.
  destruct (_letter_index ch) as [[i|]|e] eqn:E; cbn [bind]; [| |discriminate].
  - pose proof (nearest_anchor_keys_cases i (letter_index_range _ _ E)) as Hw.
    cbn [In] in Hw. rewrite orb_true_r.
    destruct Hw as [<-|[<-|[<-|[<-|[]]]]]; intros [= <-];
      cbn [fold_left add_share count_R count_G count_B List.length].
    + destruct (add_share64 _ _ qR 1 HR share_one ltac:(lra) ltac:(lra)) as (q' & H' & L').
      exists q', qG, qB. cbn [count_R count_G count_B].
      split; [exact H'|]. split; [exact HG|]. split; [exact HB|].
      split; [intros _; left; exact L' | intros; discriminate].
    + destruct (add_share64 _ _ qG 1 HG share_one ltac:(lra) ltac:(lra)) as (q' & H' & L').
      exists qR, q', qB. cbn [count_R count_G count_B].
      split; [exact HR|]. split; [exact H'|]. split; [exact HB|].
      split; [intros _; right; left; exact L' | intros; discriminate].
    + destruct (add_share64 _ _ qB 1 HB share_one ltac:(lra) ltac:(lra)) as (q' & H' & L').
      exists qR, qG, q'. cbn [count_R count_G count_B].
      split; [exact HR|]. split; [exact HG|]. split; [exact H'|].
      split; [intros _; right; right; exact L' | intros; discriminate].
    + destruct (add_share64 _ _ qR (1 # 2) HR share_half ltac:(lra) ltac:(lra)) as (q' & H' & L').
      destruct (add_share64 _ _ qB (1 # 2) HB share_half ltac:(lra) ltac:(lra)) as (q'' & H'' & L'').
      exists q', qG, q''. cbn [count_R count_G count_B].
      split; [exact H'|]. split; [exact HG|]. split; [exact H''|].
      split; [intros _; left; exact L' | intros; discriminate].
  - intros [= <-]. rewrite orb_false_r. exists qR, qG, qB.
    split; [exact HR|]. split; [exact HG|]. split; [exact HB|]. split; assumption.
Qed.

Lemma anchor_scan_ok (t : str) (cs cs' : Counts) (seen : bool) :
  counts_ok cs seen -> for_each (anchor_step (A := binary64)) t cs = Ok cs' ->
  counts_ok cs' (seen || existsb anchor_letter t).
Proof.
  revert cs seen. induction t as [|ch t IH]; intros cs seen Hinv; cbn [for_each existsb].
  - intros [= <-]. rewrite orb_false_r. exact Hinv.
  - destruct (anchor_step cs ch) as [cs1|e] eqn:E; cbn [bind]; [|discriminate].
    intros H. rewrite orb_assoc. apply (IH cs1); [|exact H].
    apply (anchor_step_ok cs); assumption.
Qed.

Lemma seen_letters (t : str) : existsb anchor_letter t = (0 <? letters_seen t).
Proof.
  unfold letters_seen. induction t as [|c t IH]; [reflexivity|].
  cbn [existsb filter]. destruct (anchor_letter c); cbn [orb List.length].
  - symmetry. apply Z.ltb_lt. lia.
  - exact IH.
Qed.

Lemma anchor_counts_ok (t : str) (cs : Counts) :
  anchor_counts (A := binary64) t = Ok cs -> counts_ok cs (0 <? letters_seen t).
Proof.
  intros H. rewrite <- seen_letters.
  apply (anchor_scan_ok t _ cs false) in H; [exact H|].
  exists 0%Q, 0%Q, 0%Q.
  assert (Z0 : count_ok (of_Z (Arith := binary64) 0) 0).
  { split; [apply (of_Z64 0); cbn; lia|]. split; [left; reflexivity | unfold Qle; cbn; lia]. }
  cbn [count_R count_G count_B]. repeat split; try apply Z0; try reflexivity.
  intros; discriminate.
Qed.

Lemma fmax3_64 (a b c : float) (qa qb qc : Q) :
  is_val a qa -> is_val b qb -> is_val c qc ->
  exists qm, is_val (fmax3 (A := binary64) a b c) qm
             /\ (qa <= qm)%Q /\ (qb <= qm)%Q /\ (qc <= qm)%Q
             /\ ((fmax3 (A := binary64) a b c = a /\ (qm == qa)%Q)
                 \/ (fmax3 (A := binary64) a b c = b /\ (qm == qb)%Q)
                 \/ (fmax3 (A := binary64) a b c = c /\ (qm == qc)%Q)).
Proof.
  intros Ha Hb Hc. unfold fmax3, fgtb. rewrite (fltb64 _ _ _ _ Ha Hb).
  destruct (Qltb qa qb) eqn:E1; [apply Qltb_true in E1 | apply Qltb_false in E1].
  - rewrite (fltb64 _ _ _ _ Hb Hc).
    destruct (Qltb qb qc) eqn:E2; [apply Qltb_true in E2 | apply Qltb_false in E2].
    + exists qc. repeat split; try lra; try assumption. right. right. split; reflexivity.
    + exists qb. repeat split; try lra; try assumption. right. left. split; reflexivity.
  - rewrite (fltb64 _ _ _ _ Ha Hc).
    destruct (Qltb qa qc) eqn:E2; [apply Qltb_true in E2 | apply Qltb_false in E2].
    + exists qc. repeat split; try lra; try assumption. right. right. split; reflexivity.
    + exists qa. repeat split; try lra; try assumption. left. split; reflexivity.
Qed.

(** The scale [255.0 / maximum]: times the maximum it is 255 up to rounding. *)
Lemma anchor_scale64 (m : float) (qm : Q) :
  is_val m qm -> (1 # 2 <= qm)%Q -> (qm <= inject_Z (2 ^ 53))%Q ->
  exists sc, is_val (of_Z (Arith := binary64) 255 /! m) sc
             /\ (0 <= sc)%Q
             /\ (255 - (1 # 4) <= sc * qm)%Q /\ (sc * qm <= 255 + (1 # 4))%Q.
Proof.
  intros Hm L U.
  assert (Hpos : (0 < qm)%Q) by lra.
  assert (Hne : ~ (qm == 0)%Q) by (intros E0; rewrite E0 in Hpos; discriminate).
  set (d := (inject_Z 255 / qm)%Q).
  assert (Ed : (d * qm == 255)%Q) by (unfold d; change (inject_Z 255) with 255%Q; field; exact Hne).
  assert (D0 : (0 < d)%Q).
  { unfold d. apply Qlt_shift_div_l; [exact Hpos|]. rewrite Qmult_0_l. reflexivity. }
  assert (D1 : (d <= inject_Z 510)%Q).
  { unfold d. apply Qle_shift_div_r; [exact Hpos|].
    change (inject_Z 255) with 255%Q. change (inject_Z 510) with 510%Q. lra. }
  assert (D2 : (p2 (-1022) <= Qabs d)%Q).
  { rewrite Qabs_pos by lra. apply Qle_trans with (p2 (-53)); [apply p2_le; lia|].
    unfold d. apply Qle_shift_div_l; [exact Hpos|].
    apply Qle_trans with (p2 (-53) * inject_Z (2 ^ 53))%Q.
    - apply Qmult_le_l; [apply p2_pos | exact U].
    - rewrite <- p2_inject, <- p2_add by lia. cbn. unfold Qle. cbn. lia. }
  pose proof (rnd_rel_error d D2) as E. rewrite (Qabs_pos d) in E by lra.
  apply Qabs_Qle_condition in E. destruct E as [E1 E2].
  pose proof (p2_small (-53) ltac:(lia)) as K. pose proof (p2_pos (-53)) as K0.
  set (e := p2 (-53)) in *.
  exists (rnd d). split; [|split; [|split]].
  - apply (fdiv64 _ _ _ _ 510); [apply of_Z64; cbn; lia | exact Hm | exact Hne | | lia].
    apply Qabs_Qle_condition. split; [|exact D1].
    apply Qle_trans with 0%Q; [|exact (Qlt_le_weak _ _ D0)]. rewrite <- inject_Z_opp.
    change 0%Q with (inject_Z 0). rewrite <- Zle_Qle. lia.
  - apply rnd_nonneg. lra.
  - assert (X : ((d - d * e) * qm <= rnd d * qm)%Q) by (apply Qmult_le_compat_r; lra).
    assert (Y : (d * e * qm == 255 * e)%Q) by (rewrite <- Ed; ring).
    assert (Z' : ((d - d * e) * qm == 255 - 255 * e)%Q) by (rewrite <- Y, <- Ed; ring).
    rewrite Z' in X. lra.
  - assert (X : (rnd d * qm <= (d + d * e) * qm)%Q) by (apply Qmult_le_compat_r; lra).
    assert (Y : (d * e * qm == 255 * e)%Q) by (rewrite <- Ed; ring).
    assert (Z' : ((d + d * e) * qm == 255 + 255 * e)%Q) by (rewrite <- Y, <- Ed; ring).
    rewrite Z' in X. lra.
Qed.

Lemma anchor_channel64 (x scale : float) (q sc qm : Q) :
  is_val x q -> is_val scale sc -> (0 <= q)%Q -> (q <= qm)%Q -> (0 <= sc)%Q ->
  (255 - (1 # 4) <= sc * qm)%Q -> (sc * qm <= 255 + (1 # 4))%Q ->
  byte (fround (Arith := binary64) (x *! scale))
  /\ ((q == qm)%Q -> fround (Arith := binary64) (x *! scale) = 255).
Proof.
  intros Hx Hs Q0 Q1 S0 L U.
  assert (B0 : (0 <= q * sc)%Q) by nra.
  assert (B1 : (q * sc <= sc * qm)%Q) by nra.
  assert (A1 : (Qabs (q * sc) <= inject_Z 256)%Q)
    by (apply Qabs_int_bound; change (inject_Z 256) with 256%Q; lra).
  pose proof (fmul64 _ _ _ _ 256 Hx Hs A1 ltac:(lia)) as V.
  destruct (rnd_error_le (q * sc) 8 (inject_Z 256) A1 ltac:(change (p2 8) with 256%Q;
    change (inject_Z 256) with 256%Q; lra) ltac:(lia)) as [E1 E2].
  pose proof (p2_small (8 - 53) ltac:(lia)) as K.
  rewrite (fround64 _ _ V). split; [split|].
  - apply round_half_even_lower. apply rnd_nonneg, B0.
  - apply round_below. change (inject_Z 255) with 255%Q. lra.
  - intros Eq. assert (B2 : (q * sc == sc * qm)%Q) by (rewrite Eq; ring).
    apply Z.le_antisymm.
    + apply round_below. change (inject_Z 255) with 255%Q. lra.
    + apply round_above. change (inject_Z 255) with 255%Q. lra.
Qed.

(** C7, amended: when the scan of the text does not raise, the three anchor
    sums decide the base colour.  If the text has no character that the scan
    counts as a letter (an ASCII letter or the Kelvin sign U+212A, see
    [anchor_letter_cases]), the colour is (0, 0, 0).  Otherwise the largest
    sum [m] is positive, each channel is its sum times the double [255.0 / m],
    the product rounded to the nearest integer, every channel is a byte, and
    a channel whose sum is the largest is exactly 255. *)
Theorem anchor_mode_scaling (t : str) (cs : Counts) :
  anchor_counts (A := binary64) t = Ok cs ->
  let sR := count_R cs in
  let sG := count_G cs in
  let sB := count_B cs in
  let m := fmax3 sR sG sB in
  let scale := of_Z 255 /! m in
  (letters_seen t = 0 -> _compute_rgb_anchor (A := binary64) t = Ok (0, 0, 0))
  /\ (0 < letters_seen t ->
      ((sR <=! m) = true /\ (sG <=! m) = true /\ (sB <=! m) = true)
      /\ (m = sR \/ m = sG \/ m = sB)
      /\ (of_Z 0 <! m) = true
      /\ _compute_rgb_anchor (A := binary64) t
         = Ok (fround (sR *! scale), fround (sG *! scale), fround (sB *! scale))
      /\ bytes (fround (sR *! scale), fround (sG *! scale), fround (sB *! scale))
      /\ ((sR ==! m) = true -> fround (sR *! scale) = 255)
      /\ ((sG ==! m) = true -> fround (sG *! scale) = 255)
      /\ ((sB ==! m) = true -> fround (sB *! scale) = 255)).
Proof.
  intros H sR sG sB m scale.
  destruct (anchor_counts_ok t cs H) as (qR & qG & qB & HR & HG & HB & Hs & Hn).
  destruct HR as (VR & OR & UR). destruct HG as (VG & OG & UG). destruct HB as (VB & OB & UB).
  fold sR in VR. fold sG in VG. fold sB in VB.
  destruct (fmax3_64 sR sG sB qR qG qB VR VG VB) as (qm & Vm & MR & MG & MB & Hatt).
  fold m in Vm, Hatt.
  pose proof (of_Z64 0 ltac:(cbn; lia)) as Z0. change (inject_Z 0) with 0%Q in Z0.
  unfold _compute_rgb_anchor. rewrite H. cbn [bind]. fold sR sG sB m scale.
  rewrite (feqb64 _ _ _ _ Vm Z0).
  assert (R0 : (0 <= qR)%Q) by (destruct OR as [E|E]; [rewrite E|]; lra).
  assert (G0 : (0 <= qG)%Q) by (destruct OG as [E|E]; [rewrite E|]; lra).
  assert (B0 : (0 <= qB)%Q) by (destruct OB as [E|E]; [rewrite E|]; lra).
  split.
  - intros Hz. assert (E : (0 <? letters_seen t) = false) by (apply Z.ltb_ge; lia).
    destruct (Hn E) as (ER & EG & EB).
    assert (Em : (qm == 0)%Q) by (destruct Hatt as [[_ X]|[[_ X]|[_ X]]]; rewrite X; assumption).
    apply Qeq_bool_iff in Em. rewrite Em. reflexivity.
  - intros Hpos. assert (E : (0 <? letters_seen t) = true) by (apply Z.ltb_lt; lia).
    specialize (Hs E).
    assert (Lm : (1 # 2 <= qm)%Q) by (destruct Hs as [X|[X|X]]; lra).
    assert (Um : (qm <= inject_Z (2 ^ 53))%Q)
      by (destruct Hatt as [[_ X]|[[_ X]|[_ X]]]; rewrite X; assumption).
    assert (Ne : Qeq_bool qm 0 = false).
    { apply not_true_iff_false. rewrite Qeq_bool_iff. intros X. rewrite X in Lm. lra. }
    rewrite Ne.
    destruct (anchor_scale64 m qm Vm Lm Um) as (sc & Vs & S0 & SL & SU). fold scale in Vs.
    destruct (anchor_channel64 sR scale qR sc qm VR Vs R0 MR S0 SL SU) as [BR PR].
    destruct (anchor_channel64 sG scale qG sc qm VG Vs G0 MG S0 SL SU) as [BG PG].
    destruct (anchor_channel64 sB scale qB sc qm VB Vs B0 MB S0 SL SU) as [BB PB].
    split; [|split; [|split; [|split; [|split; [|split; [|split]]]]]].
    + rewrite (fleb64 _ _ _ _ VR Vm), (fleb64 _ _ _ _ VG Vm), (fleb64 _ _ _ _ VB Vm).
      repeat split; apply Qle_bool_iff; assumption.
    + destruct Hatt as [[X _]|[[X _]|[X _]]]; auto.
    + rewrite (fltb64 _ _ _ _ Z0 Vm). apply Qltb_true. lra.
    + reflexivity.
    + unfold bytes. auto.
    + intros X. rewrite (feqb64 _ _ _ _ VR Vm) in X. apply PR, Qeq_bool_iff, X.
    + intros X. rewrite (feqb64 _ _ _ _ VG Vm) in X. apply PG, Qeq_bool_iff, X.
    + intros X. rewrite (feqb64 _ _ _ _ VB Vm) in X. apply PB, Qeq_bool_iff, X.
Qed.

Lemma anchor_mode_scaling_witness :
  exists cs,
    anchor_counts (A := binary64) (str_of "Tag, wo?") = Ok cs
    /\ 0 < letters_seen (str_of "Tag, wo?")
    /\ _compute_rgb_anchor (A := binary64) (str_of "Tag, wo?")
       = Ok (fround (count_R cs *! (of_Z 255 /! fmax3 (count_R cs) (count_G cs) (count_B cs))),
             fround (count_G cs *! (of_Z 255 /! fmax3 (count_R cs) (count_G cs) (count_B cs))),
             fround (count_B cs *! (of_Z 255 /! fmax3 (count_R cs) (count_G cs) (count_B cs)))).
Proof.
  destruct (anchor_counts (A := binary64) (str_of "Tag, wo?")) as [cs|e] eqn:E;
    [|vm_compute in E; discriminate E].
  exists cs. split; [reflexivity|].
  assert (H : 0 < letters_seen (str_of "Tag, wo?")) by (vm_compute; reflexivity).
  split; [exact H|].
  exact (proj1 (proj2 (proj2 (proj2 (proj2 (anchor_mode_scaling (str_of "Tag, wo?") cs E) H))))).
Defined.

Example anchor_tag_wo :
  _compute_rgb_anchor (A := binary64) (str_of "Tag, wo?") = Ok (255, 102, 153).
Proof. vm_compute; reflexivity. Qed.

(** C7, as stated, fails twice.  The one-character text U+212A (Kelvin sign)
    holds no ASCII letter, yet its base colour in anchor mode is pure green.
    And in a text of 25 e, 12 a and one w the sums are 0.5, 25 and 12.5: the
    blue sum scaled by 255 / 25 is 127.5, which rounds to 128, and the code,
    which multiplies by the double 255.0 / 25.0, returns 127. *)
Lemma anchor_claim_counterexamples :
  letters_only (transliterate_de [8490]) = []
  /\ _compute_rgb_anchor (A := binary64) (transliterate_de [8490]) = Ok (0, 255, 0)
  /\ _compute_rgb_anchor (A := binary64) (repeat 101 25 ++ repeat 97 12 ++ [119])
     = Ok (5, 255, 127)
  /\ round_half_even ((25 # 2) * (255 / 25)) = 128.
Proof. repeat split; vm_compute; reflexivity. Qed.

Lemma anchor_bytes64 (t : str) (c : RGB) :
  _compute_rgb_anchor (A := binary64) t = Ok c -> bytes c.
Proof.
  unfold _compute_rgb_anchor.
  destruct (anchor_counts (A := binary64) t) as [cs|e] eqn:E; cbn [bind]; [|discriminate].
  destruct (anchor_counts_ok t cs E) as (qR & qG & qB & HR & HG & HB & Hs & Hn).
  destruct HR as (VR & OR & UR). destruct HG as (VG & OG & UG). destruct HB as (VB & OB & UB).
  destruct (fmax3_64 _ _ _ qR qG qB VR VG VB) as (qm & Vm & MR & MG & MB & Hatt).
  set (m := fmax3 _ _ _) in *.
  pose proof (of_Z64 0 ltac:(cbn; lia)) as Z0. change (inject_Z 0) with 0%Q in Z0.
  rewrite (feqb64 _ _ _ _ Vm Z0).
  destruct (Qeq_bool qm 0) eqn:Ne; [intros [= <-]; unfold bytes, byte; lia|].
  assert (R0 : (0 <= qR)%Q) by (destruct OR as [X|X]; [rewrite X|]; lra).
  assert (G0 : (0 <= qG)%Q) by (destruct OG as [X|X]; [rewrite X|]; lra).
  assert (B0 : (0 <= qB)%Q) by (destruct OB as [X|X]; [rewrite X|]; lra).
  assert (Lm : (1 # 2 <= qm)%Q).
  { apply not_true_iff_false in Ne. rewrite Qeq_bool_iff in Ne.
    destruct (0 <? letters_seen t).
    - destruct (Hs eq_refl) as [X|[X|X]]; lra.
    - destruct (Hn eq_refl) as (ER & EG & EB). exfalso. apply Ne.
      destruct Hatt as [[_ X]|[[_ X]|[_ X]]]; rewrite X; assumption. }
  assert (Um : (qm <= inject_Z (2 ^ 53))%Q)
    by (destruct Hatt as [[_ X]|[[_ X]|[_ X]]]; rewrite X; assumption).
  destruct (anchor_scale64 m qm Vm Lm Um) as (sc & Vs & S0 & SL & SU).
  intros [= <-]. unfold bytes. repeat split;
    eapply anchor_channel64; eauto.
Qed.

(** ** The number of matches *)

Lemma finditer_from_length {F} (env : Runtime F) (stem : str) (text : str) :
  forall prev skip,
    (List.length (finditer_from env stem prev skip text) <= List.length text)%nat.
Proof.
  induction text as [|c rest IH]; intros prev skip; cbn [finditer_from List.length]; [lia|].
  destruct skip as [|k].
  - destruct (xorb _ _).
    + destruct (match_here env stem (c :: rest)) as [[g len]|].
      * cbn [List.length]. specialize (IH (Some c) (Nat.pred len)). lia.
      * specialize (IH (Some c) O). lia.
    + specialize (IH (Some c) O). lia.
  - specialize (IH (Some c) k). lia.
Qed.

Lemma flat_map_length_le {X Y} (f : X -> list Y) (l : list X) (n : nat) :
  (forall x, List.length (f x) <= n)%nat ->
  (List.length (flat_map f l) <= List.length l * n)%nat.
Proof.
  intros H. induction l as [|x l IH]; cbn [flat_map List.length]; [lia|].
  rewrite length_app. specialize (H x). lia.
Qed.

Lemma all_matches_length {F} (env : Runtime F) (text : str) :
  (List.length (all_matches env text) <= 29 * List.length text)%nat.
Proof.
  unfold all_matches.
  change 29%nat with (List.length _COLOR_PATTERNS).
  apply flat_map_length_le. intros [k stem]. rewrite length_map.
  apply finditer_from_length.
Qed.

Lemma transliterate_length (text : str) :
  (List.length (transliterate_de text) <= List.length text * 2)%nat.
Proof.
  rewrite transliterate_de_flat_map. apply flat_map_length_le. intros c.
  unfold translit_image.
  repeat match goal with |- context [if ?b then _ else _] => destruct b end;
    cbn [List.length str_of map list_ascii_of_string]; lia.
Qed.

Lemma matches_of_text {F} (env : Runtime F) (text : str) :
  Z.of_nat (List.length text) <= MAX_TEXT ->
  Z.of_nat (List.length (all_matches env (transliterate_de text))) <= 2 ^ 45.
Proof.
  intros H. pose proof (all_matches_length env (transliterate_de text)) as H1.
  pose proof (transliterate_length text) as H2. unfold MAX_TEXT in H.
  assert (E : 2 ^ 45 = 64 * 2 ^ 39) by reflexivity. rewrite E.
  set (P := 2 ^ 39) in *. lia.
Qed.

(** ** The colour before the punctuation stage *)

Lemma blend_bytes64 (env : Runtime float) (c c' : RGB) (text : str) :
  Z.of_nat (List.length (all_matches env text)) <= 2 ^ 45 ->
  bytes c -> _blend_override (A := binary64) env c text = Ok c' -> bytes c'.
Proof.
  intros Hlen Hc. unfold _blend_override.
  destruct (override64 env text Hlen) as [E|(o & w & q & E & Ho & Hw & Q0 & Q1)];
    rewrite E; cbn [bind].
  - intros [= <-]. exact Hc.
  - destruct c as [[r g] b]. destruct o as [[o_r o_g] o_b]. intros [= <-].
    destruct Hc as (Hr & Hg & Hb). destruct Ho as (Hor & Hog & Hob).
    unfold bytes. repeat split; eapply blend_channel64; eauto.
Qed.

Lemma before_punctuation_bytes64 (env : Runtime float) (text : str) (cfg : ComputeConfig)
  (c : RGB) :
  Z.of_nat (List.length text) <= MAX_TEXT ->
  before_punctuation (A := binary64) env text cfg = Ok c -> bytes c.
Proof.
  intros Hlen. unfold before_punctuation.
  pose proof (matches_of_text env text Hlen) as Hm.
  destruct (mode cfg).
  - pose proof (freq_bytes64 (transliterate_de text) (denominator cfg)) as Hf.
    destruct (_compute_rgb_freq (transliterate_de text) (denominator cfg)) as [base n].
    cbn [fst] in Hf. cbn [bind]. apply blend_bytes64; [exact Hm|].
    apply length_floor_bytes64, Hf.
  - destruct (_compute_rgb_anchor (transliterate_de text)) as [base|e] eqn:E; cbn [bind];
      [|discriminate].
    apply blend_bytes64; [exact Hm|]. apply (anchor_bytes64 _ _ E).
Qed.

(** The channels of a result are bytes: with the punctuation stage on by its
    clamp, without it for texts of up to [MAX_TEXT] characters. *)
Lemma compute_color_bytes64 (env : Runtime float) (text : str) (cfg : ComputeConfig)
  (c : RGB) :
  punctuation_mods cfg = true \/ Z.of_nat (List.length text) <= MAX_TEXT ->
  rgb_of (compute_color (A := binary64) env text cfg) = Ok c -> bytes c.
Proof.
  intros Hyp. rewrite compute_color_stages.
  destruct (before_punctuation env text cfg) as [c0|e] eqn:E; cbn [bind]; [|discriminate].
  intros [= <-]. destruct (punctuation_mods cfg) eqn:Hp.
  - apply apply_punctuation_bytes, Hp.
  - destruct Hyp as [Hyp|Hyp]; [discriminate|].
    unfold _apply_punctuation. rewrite Hp. cbn [negb].
    apply (before_punctuation_bytes64 env text cfg c0 Hyp E).
Qed.

(** C9: the hex field of a returned result is the "#RRGGBB" encoding of its
    rgb field, two upper-case hexadecimal digits per channel: for every text
    when the punctuation stage is on, and for texts of up to [MAX_TEXT]
    characters when it is off. *)
Theorem hex_is_RRGGBB_of_rgb (env : Runtime float) (text : str) (cfg : ComputeConfig)
  (res : ComputeResult) :
  punctuation_mods cfg = true \/ Z.of_nat (List.length text) <= MAX_TEXT ->
  compute_color (A := binary64) env text cfg = Ok res ->
  bytes (rgb res) /\ hex res = RRGGBB (rgb res).
Proof.
  intros Hyp H.
  assert (Hb : bytes (rgb res)).
  { apply (compute_color_bytes64 env text cfg _ Hyp). unfold rgb_of. rewrite H. reflexivity. }
  split; [exact Hb|].
  assert (Hh : hex res = let '(r, g, b) := rgb res in rgb_to_hex r g b).
  { revert H. unfold compute_color.
    destruct (match mode cfg with ComputeMode.FREQ => _ | ComputeMode.ANCHOR => _ end)
      as [base|e]; cbn [bind]; [|discriminate].
    destruct (_blend_override env base (transliterate_de text)) as [c|e]; cbn [bind]; [|discriminate].
    destruct (_apply_punctuation c text cfg) as [[r g] b]. intros [= <-]. reflexivity. }
  rewrite Hh. destruct (rgb res) as [[r g] b]. destruct Hb as (Hr & Hg & Hb).
  unfold rgb_to_hex, RRGGBB. rewrite !format_02X_byte by assumption. reflexivity.
Qed.

Lemma hex_is_RRGGBB_of_rgb_witness :
  exists res,
    compute_color (A := binary64) plain_env (str_of "magenta") default_config = Ok res
    /\ bytes (rgb res) /\ hex res = RRGGBB (rgb res) /\ hex res = "#B23BB2"%string.
Proof.
  destruct (compute_color (A := binary64) plain_env (str_of "magenta") default_config)
    as [res|e] eqn:E; [|vm_compute in E; discriminate E].
  exists res. split; [reflexivity|].
  destruct (hex_is_RRGGBB_of_rgb plain_env (str_of "magenta") default_config res
              (or_introl eq_refl) E) as [Hb Hh].
  split; [exact Hb|]. split; [exact Hh|].
  vm_compute in E. injection E as <-. reflexivity.
Defined.

(** ** Multipliers equal to one *)

Lemma brightness_identity64 (c : RGB) :
  bytes c -> apply_brightness (A := binary64) c (of_Z 1) = c.
Proof.
  destruct c as [[r g] b]. intros (Hr & Hg & Hb). unfold apply_brightness.
  assert (P : forall ch, byte ch -> clamp_byte (fround (Arith := binary64) (of_Z ch *! of_Z 1)) = ch).
  { intros ch Hch. rewrite (fround64 _ (rnd (inject_Z ch * inject_Z 1))).
    - assert (E : (rnd (inject_Z ch * inject_Z 1) == inject_Z ch)%Q).
      { rewrite <- inject_Z_mult, Z.mul_1_r. apply rnd_integer. unfold byte in Hch. lia. }
      rewrite (round_half_even_integer _ _ E). apply clamp_byte_id, Hch.
    - unfold byte in Hch.
      apply (fmul64 _ _ _ _ 255); [apply of_Z64; lia | apply of_Z64; cbn; lia | | lia].
      rewrite <- inject_Z_mult, Z.mul_1_r. apply (Qabs_le_int _ 0 255); try lia;
        rewrite <- Zle_Qle; lia. }
  rewrite !P by assumption. reflexivity.
Qed.

Lemma saturation_identity64 (c : RGB) :
  bytes c -> apply_saturation (A := binary64) c (of_Z 1) = c.
Proof.
  destruct c as [[r g] b]. intros (Hr & Hg & Hb). unfold apply_saturation.
  set (mean := of_Z (r + g + b) /! of_Z 3).
  assert (Hs : 0 <= r + g + b <= 765) by (unfold byte in *; lia).
  assert (Vm : exists mu, is_val mean mu /\ (0 <= mu)%Q /\ (mu <= 255)%Q).
  { exists (rnd (inject_Z (r + g + b) / inject_Z 3)).
    assert (L : (0 <= inject_Z (r + g + b) / inject_Z 3)%Q).
    { apply Qle_shift_div_l; [reflexivity|]. rewrite Qmult_0_l.
      change 0%Q with (inject_Z 0). rewrite <- Zle_Qle. lia. }
    assert (U : (inject_Z (r + g + b) / inject_Z 3 <= 255)%Q).
    { apply Qle_shift_div_r; [reflexivity|]. change 255%Q with (inject_Z 255).
      rewrite <- inject_Z_mult, <- Zle_Qle. lia. }
    split; [|split].
    - apply (fdiv64 _ _ _ _ 255); [apply of_Z64; lia | apply of_Z64; cbn; lia | discriminate | | lia].
      apply (Qabs_le_int _ 0 255); try lia; assumption.
    - apply rnd_nonneg, L.
    - apply (rnd_le_int _ 255); [cbn; lia | exact U]. }
  destruct Vm as (mu & Vm & M0 & M1).
  pose proof (of_Z64 1 ltac:(cbn; lia)) as Z1. change (inject_Z 1) with 1%Q in Z1.
  assert (P : forall ch, byte ch ->
              clamp_byte (fround (Arith := binary64) (mean +! (of_Z ch -! mean) *! of_Z 1)) = ch).
  { intros ch Hch. destruct (byte_Q ch Hch) as [C0 C1]. set (C := inject_Z ch) in *.
    assert (Vc : is_val (of_Z (Arith := binary64) ch) C) by (apply of_Z64; unfold byte in Hch; lia).
    assert (A1 : (Qabs (C - mu) <= inject_Z 255)%Q)
      by (apply Qabs_int_bound; change (inject_Z 255) with 255%Q; lra).
    pose proof (fsub64 _ _ _ _ 255 Vc Vm A1 ltac:(lia)) as V1.
    destruct (rnd_error_le (C - mu) 8 (inject_Z 255) A1
                ltac:(change (p2 8) with 256%Q; change (inject_Z 255) with 255%Q; lra)
                ltac:(lia)) as [E1 E1'].
    set (d := rnd (C - mu)) in *.
    assert (A2 : (Qabs (d * 1) <= inject_Z 256)%Q)
      by (apply Qabs_int_bound; change (inject_Z 256) with 256%Q;
          pose proof (p2_small (8 - 53) ltac:(lia)); lra).
    pose proof (fmul64 _ _ _ _ 256 V1 Z1 A2 ltac:(lia)) as V2.
    destruct (rnd_error_le (d * 1) 8 (inject_Z 256) A2
                ltac:(change (p2 8) with 256%Q; change (inject_Z 256) with 256%Q; lra)
                ltac:(lia)) as [E2 E2'].
    set (p := rnd (d * 1)) in *.
    pose proof (p2_small (8 - 53) ltac:(lia)) as K1.
    assert (A3 : (Qabs (mu + p) <= inject_Z 512)%Q)
      by (apply Qabs_int_bound; change (inject_Z 512) with 512%Q; lra).
    pose proof (fadd64 _ _ _ _ 512 Vm V2 A3 ltac:(lia)) as V3.
    destruct (rnd_error_le (mu + p) 9 (inject_Z 512) A3
                ltac:(change (p2 9) with 512%Q; change (inject_Z 512) with 512%Q; lra)
                ltac:(lia)) as [E3 E3'].
    pose proof (p2_small (9 - 53) ltac:(lia)) as K2.
    rewrite (fround64 _ _ V3).
    rewrite (round_half_even_unique _ ch); [apply clamp_byte_id, Hch | fold C; lra | fold C; lra]. }
  rewrite !P by assumption. reflexivity.
Qed.

Lemma multipliers_plain64 (t : str) :
  ~ In 33 t -> ~ In 63 t ->
  _punctuation_multipliers (A := binary64) t = (of_Z 1, of_Z 1).
Proof.
  intros H1 H2. unfold _punctuation_multipliers.
  rewrite (punctuation_score_plain t H1 H2). vm_compute. reflexivity.
Qed.

Lemma apply_punctuation_plain64 (c : RGB) (t : str) (cfg : ComputeConfig) :
  bytes c -> ~ In 33 t -> ~ In 63 t -> _apply_punctuation (A := binary64) c t cfg = c.
Proof.
  intros Hc H1 H2. unfold _apply_punctuation.
  destruct (negb (punctuation_mods cfg)); [reflexivity|].
  rewrite (multipliers_plain64 t H1 H2).
  rewrite (saturation_identity64 c Hc), (brightness_identity64 c Hc).
  assert (E1 : (of_Z (Arith := binary64) 1 <! of_Z 1) = false) by (vm_compute; reflexivity).
  assert (E2 : (of_Z (Arith := binary64) 1 >! of_Z 1) = false) by (vm_compute; reflexivity).
  rewrite E1, E2. reflexivity.
Qed.

(** C10: for a text without '!' (33) and without '?' (63) the punctuation
    score is 0, both multipliers are the double 1.0, saturation and
    brightness at this multiplier leave every colour of bytes unchanged, and
    (for a text of up to [MAX_TEXT] characters) the colour that
    [compute_color] returns is the same with the punctuation switch on and
    off. *)
Theorem plain_text_ignores_punctuation_switch (env : Runtime float) (text : str)
  (cfg : ComputeConfig) :
  ~ In 33 text -> ~ In 63 text ->
  punctuation_score (A := binary64) text = 0
  /\ _punctuation_multipliers (A := binary64) text = (of_Z 1, of_Z 1)
  /\ (forall c, bytes c ->
        apply_saturation (A := binary64) c (snd (_punctuation_multipliers text)) = c
        /\ apply_brightness (A := binary64) c (fst (_punctuation_multipliers text)) = c)
  /\ (Z.of_nat (List.length text) <= MAX_TEXT ->
      rgb_of (compute_color (A := binary64) env text (with_punctuation true cfg))
      = rgb_of (compute_color (A := binary64) env text (with_punctuation false cfg))).
Proof.
  intros H1 H2.
  pose proof (multipliers_plain64 text H1 H2) as Hm.
  split; [apply punctuation_score_plain; assumption|].
  split; [exact Hm|]. rewrite Hm. cbn [fst snd].
  split; [intros c Hc; split; [apply saturation_identity64 | apply brightness_identity64]; assumption|].
  intros Hlen.
  rewrite !compute_color_stages, !before_punctuation_ignores_flag.
  destruct (before_punctuation env text cfg) as [c|e] eqn:Eb; cbn [bind]; [|reflexivity].
  apply (before_punctuation_bytes64 env text cfg c Hlen) in Eb.
  rewrite !apply_punctuation_plain64 by assumption. reflexivity.
Qed.

Lemma plain_text_ignores_punctuation_switch_witness :
  ~ In 33 (str_of "ich bin blau") /\ ~ In 63 (str_of "ich bin blau")
  /\ Z.of_nat (List.length (str_of "ich bin blau")) <= MAX_TEXT
  /\ rgb_of (compute_color (A := binary64) plain_env (str_of "ich bin blau")
               (with_punctuation true default_config))
     = rgb_of (compute_color (A := binary64) plain_env (str_of "ich bin blau")
                 (with_punctuation false default_config)).
Proof.
  assert (H33 : ~ In 33 (str_of "ich bin blau")) by (vm_compute; intuition discriminate).
  assert (H63 : ~ In 63 (str_of "ich bin blau")) by (vm_compute; intuition discriminate).
  assert (HL : Z.of_nat (List.length (str_of "ich bin blau")) <= MAX_TEXT)
    by (vm_compute; discriminate).
  split; [exact H33|]. split; [exact H63|]. split; [exact HL|].
  apply (plain_text_ignores_punctuation_switch plain_env (str_of "ich bin blau")
           default_config H33 H63). exact HL.
Defined.

(** * Further properties *)

(** ** Normalizer: idempotence and punctuation *)

Lemma translit_image_cases (c : char) :
  (accented c = true
   /\ In (translit_image c)
         [str_of "ae"; str_of "oe"; str_of "ue"; str_of "Ae"; str_of "Oe"; str_of "Ue";
          str_of "ss"])
  \/ (accented c = false /\ translit_image c = [c]).
Proof.
  unfold translit_image, accented. cbn [existsb].
  repeat match goal with
         | |- context [c =? ?k] => destruct (Z.eqb_spec c k) as [->|?]; [left; simpl; tauto|]
         end.
  right. split; reflexivity.
Qed.

Lemma translit_image_fixed (c : char) :
  flat_map translit_image (translit_image c) = translit_image c.
Proof.
  destruct (translit_image_cases c) as [[_ H]|[Hc H]].
  - cbn [In] in H. repeat (destruct H as [<-|H]; [reflexivity|]). contradiction.
  - rewrite H. cbn [flat_map]. rewrite H. reflexivity.
Qed.

(** X1: transliterating a text that is already transliterated changes
    nothing. *)
Theorem transliterate_de_idempotent (text : str) :
  transliterate_de (transliterate_de text) = transliterate_de text.
Proof.
  rewrite !transliterate_de_flat_map.
  induction text as [|c text IH]; [reflexivity|].
  cbn [flat_map]. rewrite flat_map_app, IH, translit_image_fixed. reflexivity.
Qed.

Lemma accented_not_space (c : char) : accented c = true -> isspace c = false.
Proof.
  unfold accented. cbn [existsb]. intros H.
  repeat (apply orb_prop in H; destruct H as [H|H];
          [apply Z.eqb_eq in H; subst; reflexivity|]).
  discriminate.
Qed.

Lemma count_char_app (c : char) (a b : str) :
  count_char c (a ++ b) = count_char c a + count_char c b.
Proof. unfold count_char. rewrite filter_app, length_app, Nat2Z.inj_add. reflexivity. Qed.

(** The count of a character that is neither replaced nor produced. *)
Lemma count_char_transliterate (c : char) (text : str) :
  accented c = false -> ~ In c (str_of "aeousAOU") ->
  count_char c (transliterate_de text) = count_char c text.
Proof.
  intros Ha Hl. rewrite transliterate_de_flat_map.
  induction text as [|x text IH]; [reflexivity|].
  cbn [flat_map]. rewrite count_char_app, IH.
  change (x :: text) with ([x] ++ text). rewrite (count_char_app c [x] text). f_equal.
  destruct (translit_image_cases x) as [[Hx H]|[Hx H]].
  - assert (Hcx : c <> x) by (intros ->; congruence).
    unfold count_char at 2. cbn [filter]. destruct (Z.eqb_spec c x); [contradiction|].
    cbn [In] in H.
    repeat (destruct H as [<-|H];
            [unfold count_char; cbn [filter str_of map list_ascii_of_string];
             repeat match goal with
                    | |- context [c =? ?k] =>
                        destruct (Z.eqb_spec c k) as [->|?];
                        [exfalso; apply Hl; vm_compute; tauto|]
                    end; reflexivity|]).
    contradiction.
  - rewrite H. reflexivity.
Qed.

Lemma rev_flat_map {X Y} (f : X -> list Y) (l : list X) :
  rev (flat_map f l) = flat_map (fun x => rev (f x)) (rev l).
Proof.
  induction l as [|x l IH]; [reflexivity|].
  cbn [flat_map rev]. rewrite rev_app_distr, IH, flat_map_app. cbn [flat_map].
  now rewrite app_nil_r.
Qed.

Lemma endswith_rstrip (t : str) (c : char) :
  endswith (rstrip t) c = match last_visible t with Some x => x =? c | None => false end.
Proof.
  unfold endswith, rstrip, last_visible. rewrite rev_involutive.
  destruct (lstrip (rev t)); reflexivity.
Qed.

Lemma last_visible_transliterate (c : char) (text : str) :
  accented c = false -> ~ In c (str_of "aeousAOU") ->
  match last_visible (transliterate_de text) with Some x => x =? c | None => false end
  = match last_visible text with Some x => x =? c | None => false end.
Proof.
  intros Ha Hl. unfold last_visible.
  rewrite transliterate_de_flat_map, rev_flat_map.
  induction (rev text) as [|x l IH]; [reflexivity|].
  cbn [flat_map lstrip].
  destruct (translit_image_cases x) as [[Hx H]|[Hx H]].
  - rewrite (accented_not_space x Hx).
    assert (Hcx : (x =? c) = false) by (apply Z.eqb_neq; intros ->; congruence).
    rewrite Hcx. cbn [In] in H.
    repeat (destruct H as [<-|H];
            [cbn [str_of map list_ascii_of_string rev app lstrip];
             match goal with
             | |- context [isspace ?k] => change (isspace k) with false
             end;
             cbn iota;
             match goal with
             | |- (?k =? c) = false =>
                 apply Z.eqb_neq; intros <-; apply Hl; vm_compute; tauto
             end|]).
    contradiction.
  - rewrite H. cbn [rev app lstrip]. destruct (isspace x); [exact IH | reflexivity].
Qed.

(** X2: transliteration neither adds nor removes an exclamation or question
    mark, and the punctuation score and the two multipliers computed from the
    transliterated text are those of the original text. *)
Theorem transliteration_keeps_punctuation {F} {A : Arith F} (text : str) :
  count_char 33 (transliterate_de text) = count_char 33 text
  /\ count_char 63 (transliterate_de text) = count_char 63 text
  /\ punctuation_score (A := A) (transliterate_de text) = punctuation_score (A := A) text
  /\ _punctuation_multipliers (A := A) (transliterate_de text)
     = _punctuation_multipliers (A := A) text.
Proof.
  assert (H33 : accented 33 = false /\ ~ In 33 (str_of "aeousAOU"))
    by (split; [reflexivity | vm_compute; intuition discriminate]).
  assert (H63 : accented 63 = false /\ ~ In 63 (str_of "aeousAOU"))
    by (split; [reflexivity | vm_compute; intuition discriminate]).
  destruct H33 as [A33 L33], H63 as [A63 L63].
  assert (Hs : punctuation_score (A := A) (transliterate_de text)
               = punctuation_score (A := A) text).
  { unfold punctuation_score.
    rewrite !endswith_rstrip, !count_char_transliterate by assumption.
    rewrite (last_visible_transliterate 33), (last_visible_transliterate 63) by assumption.
    reflexivity. }
  repeat split; try (apply count_char_transliterate; assumption); try exact Hs.
  unfold _punctuation_multipliers. rewrite Hs. reflexivity.
Qed.

(** ** Visible length and letters *)

Lemma visible_len_fold (t : str) (n : Z) :
  fold_left (fun count ch => if negb (isspace ch) then count + 1 else count) t n
  = n + Z.of_nat (List.length (filter (fun ch => negb (isspace ch)) t)).
Proof.
  revert n; induction t as [|c t IH]; intros n; cbn [fold_left filter].
  - cbn [List.length]. lia.
  - rewrite IH. destruct (negb (isspace c)); cbn [List.length]; lia.
Qed.

Lemma visible_len_filter (t : str) :
  visible_len t = Z.of_nat (List.length (filter (fun ch => negb (isspace ch)) t)).
Proof. unfold visible_len. rewrite visible_len_fold. lia. Qed.

Lemma visible_len_app (a b : str) : visible_len (a ++ b) = visible_len a + visible_len b.
Proof. rewrite !visible_len_filter, filter_app, length_app. lia. Qed.

Lemma visible_len_image (c : char) :
  visible_len (translit_image c) = visible_len [c] + (if accented c then 1 else 0).
Proof.
  destruct (translit_image_cases c) as [[Hc H]|[Hc H]]; rewrite Hc.
  - rewrite (visible_len_filter [c]). cbn [filter]. rewrite (accented_not_space c Hc).
    cbn [In] in H. repeat (destruct H as [<-|H]; [reflexivity|]). contradiction.
  - rewrite H. lia.
Qed.

(** X3: the visible length of the transliterated text is the visible length of
    the text plus the number of its accented letters; it lies between the
    visible length and twice the visible length, and the visible length is at
    most the length of the text. *)
Theorem visible_len_of_transliteration (text : str) :
  visible_len (transliterate_de text) = visible_len text + count_accented text
  /\ 0 <= visible_len text <= Z.of_nat (List.length text)
  /\ visible_len text <= visible_len (transliterate_de text) <= 2 * visible_len text.
Proof.
  assert (H1 : visible_len (transliterate_de text) = visible_len text + count_accented text).
  { rewrite transliterate_de_flat_map. unfold count_accented.
    induction text as [|c text IH]; [reflexivity|].
    cbn [flat_map filter]. rewrite visible_len_app, IH, visible_len_image.
    change (c :: text) with ([c] ++ text). rewrite (visible_len_app [c] text).
    destruct (accented c); cbn [List.length]; lia. }
  assert (H2 : 0 <= count_accented text <= visible_len text).
  { clear H1. unfold count_accented. rewrite visible_len_filter. split; [lia|].
    apply inj_le. induction text as [|c text IH]; [reflexivity|].
    cbn [filter]. destruct (accented c) eqn:E.
    - rewrite (accented_not_space c E). cbn [negb List.length]. lia.
    - destruct (negb (isspace c)); cbn [List.length]; lia. }
  split; [exact H1|]. split; [|lia].
  rewrite visible_len_filter. split; [lia|]. apply inj_le, filter_length_le.
Qed.

Lemma ascii_letter_not_space (c : char) : is_ascii_letter c = true -> isspace c = false.
Proof.
  unfold is_ascii_letter, is_ascii_upper, is_ascii_lower, isspace, in_range. intros H.
  repeat match goal with
         | |- context [?a <=? ?b] => destruct (Z.leb_spec a b); cbn [andb orb] in *
         | |- context [?a =? ?b] => destruct (Z.eqb_spec a b); cbn [andb orb] in *
         end; try reflexivity; try lia; try discriminate.
Qed.

Lemma filter_length_implies {X} (p q : X -> bool) (l : list X) :
  (forall x, p x = true -> q x = true) ->
  (List.length (filter p l) <= List.length (filter q l))%nat.
Proof.
  intros H. induction l as [|x l IH]; [reflexivity|]. cbn [filter].
  destruct (p x) eqn:E.
  - rewrite (H x E). cbn [List.length]. lia.
  - destruct (q x); cbn [List.length]; lia.
Qed.

Lemma letters_only_le_visible (text : str) :
  Z.of_nat (List.length (letters_only text)) <= visible_len text.
Proof.
  unfold letters_only. rewrite visible_len_filter. apply inj_le, filter_length_implies.
  intros c Hc. now rewrite (ascii_letter_not_space c Hc).
Qed.

(** ** Frequency mode *)

Lemma count_in_nonneg (set : str) (letters : list char) : 0 <= count_in set letters.
Proof. unfold count_in. lia. Qed.

Lemma count_in_le_length (set : str) (letters : list char) :
  count_in set letters <= Z.of_nat (List.length letters).
Proof. unfold count_in. apply inj_le, filter_length_le. Qed.

Lemma count_in_subset (set1 set2 : str) (letters : list char) :
  incl set1 set2 -> count_in set1 letters <= count_in set2 letters.
Proof.
  intros H. unfold count_in. apply inj_le, filter_length_implies.
  intros x Hx. apply existsb_exists in Hx. destruct Hx as (y & Hy & E).
  apply existsb_exists. exists y. split; [apply H, Hy | exact E].
Qed.

(** ** Length floor *)

(** X6: the target of the length floor lies between 80 and 200, never grows
    with the count, and strictly falls between counts 6 and 30. *)
Theorem length_floor_target_antitone (n m : Z) :
  80 <= _length_floor_target n <= 200
  /\ (n <= m -> _length_floor_target m <= _length_floor_target n)
  /\ (n < m -> 6 <= n -> m <= 30 -> _length_floor_target m < _length_floor_target n).
Proof.
  unfold _length_floor_target. cbn [short_visible_max long_visible_min bright_at_short
    bright_at_long linear_step LENGTH_FLOOR].
  destruct (Z.leb_spec n 6), (Z.geb_spec n 30), (Z.leb_spec m 6), (Z.geb_spec m 30); lia.
Qed.

Lemma length_floor_target_antitone_witness :
  7 <= 12 /\ _length_floor_target 12 <= _length_floor_target 7
  /\ _length_floor_target 12 < _length_floor_target 7.
Proof.
  destruct (length_floor_target_antitone 7 12) as (_ & H1 & H2).
  split; [lia|]. split; [apply H1; lia | apply H2; lia].
Defined.

(** ** Punctuation *)

Lemma count_char_nonneg (c : char) (t : str) : 0 <= count_char c t.
Proof. unfold count_char. lia. Qed.

Lemma count_char_present (c : char) (t : str) : In c t -> 1 <= count_char c t.
Proof.
  unfold count_char. intros H.
  assert (Hin : In c (filter (Z.eqb c) t)) by (apply filter_In; split; [exact H | apply Z.eqb_refl]).
  destruct (filter (Z.eqb c) t); [contradiction | cbn [List.length]; lia].
Qed.

Lemma endswith_present (c : char) (t : str) : endswith (rstrip t) c = true -> In c t.
Proof.
  unfold endswith, rstrip. rewrite rev_involutive. intros H.
  destruct (lstrip (rev t)) as [|x l] eqn:E; [discriminate|].
  apply Z.eqb_eq in H. subst x. apply in_rev, lstrip_incl. rewrite E. left. reflexivity.
Qed.

Lemma punctuation_score_bounds {F} {A : Arith F} (t : str) :
  -3 <= punctuation_score (A := A) t <= 3.
Proof.
  unfold punctuation_score. cbn [score_min score_max PUNCT].
  repeat match goal with
         | |- context [?a <? -3] => destruct (Z.ltb_spec a (-3))
         | |- context [?a >? 3] => destruct (Z.gtb_spec a 3)
         end; lia.
Qed.

(** X9: the punctuation score lies between -3 and 3; it is not negative
    without a question mark, not positive without an exclamation mark, at
    least 2 with an exclamation mark and no question mark, and at most -1 with
    a question mark and no exclamation mark. *)
Theorem punctuation_score_range {F} {A : Arith F} (t : str) :
  let score := punctuation_score (A := A) t in
  -3 <= score <= 3
  /\ (~ In 63 t -> 0 <= score)
  /\ (~ In 33 t -> score <= 0)
  /\ (In 33 t -> ~ In 63 t -> 2 <= score)
  /\ (In 63 t -> ~ In 33 t -> score <= -1).
Proof.
  cbv zeta. unfold punctuation_score.
  cbn [weight_exclamation weight_question end_bonus score_min score_max PUNCT].
  pose proof (count_char_nonneg 33 t) as E0. pose proof (count_char_nonneg 63 t) as Q0.
  assert (E1 : ~ In 33 t -> count_char 33 t = 0 /\ endswith (rstrip t) 33 = false)
    by (intros H; split; [now apply count_char_absent | now apply endswith_absent]).
  assert (Q1 : ~ In 63 t -> count_char 63 t = 0 /\ endswith (rstrip t) 63 = false)
    by (intros H; split; [now apply count_char_absent | now apply endswith_absent]).
  pose proof (count_char_present 33 t) as E2. pose proof (count_char_present 63 t) as Q2.
  set (ce := count_char 33 t) in *. set (cq := count_char 63 t) in *.
  destruct (endswith (rstrip t) 33) eqn:EE; destruct (endswith (rstrip t) 63) eqn:EQ;
    repeat match goal with
           | |- context [?a <? ?b] => destruct (Z.ltb_spec a b)
           | |- context [?a >? ?b] => destruct (Z.gtb_spec a b)
           end;
    (split; [lia|]); repeat split; intros;
    repeat match goal with
           | H : ~ In 33 t |- _ => destruct (E1 H) as [? ?]; clear E1 H
           | H : ~ In 63 t |- _ => destruct (Q1 H) as [? ?]; clear Q1 H
           | H : In 33 t |- _ => specialize (E2 H); clear H
           | H : In 63 t |- _ => specialize (Q2 H); clear H
           end; try discriminate; try lia.
Qed.

Lemma punctuation_score_range_witness :
  ~ In 63 (str_of "Hallo!") /\ In 33 (str_of "Hallo!")
  /\ 2 <= punctuation_score (A := binary64) (str_of "Hallo!")
  /\ 0 <= punctuation_score (A := binary64) (str_of "Hallo!").
Proof.
  assert (H63 : ~ In 63 (str_of "Hallo!")) by (vm_compute; intuition discriminate).
  assert (H33 : In 33 (str_of "Hallo!")) by (vm_compute; tauto).
  destruct (punctuation_score_range (A := binary64) (str_of "Hallo!")) as (_ & H1 & _ & H2 & _).
  split; [exact H63|]. split; [exact H33|]. split; [apply H2; assumption | apply H1; assumption].
Defined.

(** ** Anchor mode: letters and their anchors *)

Lemma letter_index_spec (c : char) :
  _letter_index c
  = if c =? 304 then Raise TypeError
    else if is_ascii_letter c then Ok (Some (ascii_lower c - 97))
    else if c =? 8490 then Ok (Some 10)
    else Ok None.
Proof.
  unfold _letter_index, py_lower, ascii_lower, is_ascii_letter, is_ascii_upper,
    is_ascii_lower, in_range.
  destruct (Z.eqb_spec c 304) as [->|H304]; [reflexivity|].
  destruct (Z.eqb_spec c 8490) as [->|H8490]; [reflexivity|].
  destruct (Z.leb_spec 65 c), (Z.leb_spec c 90); cbn [andb orb];
    cbn [str_leb str_of map list_ascii_of_string ord bind];
    change (Z.of_N (N_of_ascii "a")) with 97; change (Z.of_N (N_of_ascii "z")) with 122;
    repeat match goal with
           | |- context [?a <? ?b] => destruct (Z.ltb_spec a b); cbn [andb orb]
           | |- context [?a =? ?b] => destruct (Z.eqb_spec a b); cbn [andb orb]
           | |- context [?a <=? ?b] => destruct (Z.leb_spec a b); cbn [andb orb]
           end; cbn [ord bind]; try reflexivity; try lia.
Qed.

(** X12: the anchors of the alphabet indices: blue for a to d and x to z,
    green for e to l, red for m to v, and red together with blue, the only
    tie, for w. *)
Theorem nearest_anchor_keys_table (i : Z) :
  0 <= i <= 25 ->
  _nearest_anchor_keys i
  = if i <=? 3 then [B]
    else if i <=? 11 then [G]
    else if i <=? 21 then [R]
    else if i =? 22 then [R; B]
    else [B].
Proof.
  intros H.
  assert (Hi : In i (map Z.of_nat (seq 0 26))).
  { apply in_map_iff. exists (Z.to_nat i). split; [lia|]. apply in_seq. lia. }
  cbn [seq map Z.of_nat Pos.of_succ_nat Pos.succ] in Hi. cbn [In] in Hi.
  repeat (destruct Hi as [<-|Hi]; [reflexivity|]). contradiction.
Qed.

Lemma nearest_anchor_keys_table_witness :
  0 <= 22 <= 25 /\ _nearest_anchor_keys 22 = [R; B].
Proof. split; [lia | apply (nearest_anchor_keys_table 22); lia]. Defined.

(** ** Exceptions *)

Lemma anchor_step_cases {F} {A : Arith F} (cs : Counts) (ch : char) :
  (ch = 304 /\ anchor_step (A := A) cs ch = Raise TypeError)
  \/ (ch <> 304 /\ exists cs', anchor_step (A := A) cs ch = Ok cs').
Proof.
  unfold anchor_step. rewrite letter_index_spec.
  destruct (Z.eqb_spec ch 304) as [->|H]; [left; split; reflexivity|].
  right. split; [exact H|].
  destruct (is_ascii_letter ch); [eexists; reflexivity|].
  destruct (ch =? 8490); eexists; reflexivity.
Qed.

Lemma anchor_scan_cases {F} {A : Arith F} (t : str) (cs : Counts) :
  (In 304 t /\ for_each (anchor_step (A := A)) t cs = Raise TypeError)
  \/ (~ In 304 t /\ exists cs', for_each (anchor_step (A := A)) t cs = Ok cs').
Proof.
  revert cs. induction t as [|c t IH]; intros cs.
  - right. split; [intros []|]. eexists; reflexivity.
  - cbn [for_each]. destruct (anchor_step_cases cs c) as [[-> E]|[Hc [cs' E]]]; rewrite E.
    + left. split; [left; reflexivity | reflexivity].
    + cbn [bind]. destruct (IH cs') as [[Hin E']|[Hin E']].
      * left. split; [right; exact Hin | exact E'].
      * right. split; [|exact E']. intros [H|H]; [congruence | contradiction].
Qed.

Lemma compute_rgb_anchor_cases {F} {A : Arith F} (t : str) :
  (In 304 t /\ _compute_rgb_anchor (A := A) t = Raise TypeError)
  \/ (~ In 304 t /\ exists c, _compute_rgb_anchor (A := A) t = Ok c).
Proof.
  unfold _compute_rgb_anchor, anchor_counts.
  destruct (anchor_scan_cases (A := A) t
              {| count_R := of_Z 0; count_G := of_Z 0; count_B := of_Z 0 |})
    as [[Hin E]|[Hin [cs E]]]; rewrite E; cbn [bind].
  - left. split; [exact Hin | reflexivity].
  - right. split; [exact Hin|].
    destruct (_ ==! _); eexists; reflexivity.
Qed.

Lemma transliterate_keeps_dotted_I (text : str) :
  In 304 (transliterate_de text) <-> In 304 text.
Proof.
  rewrite transliterate_de_flat_map, in_flat_map. split.
  - intros (x & Hx & H). destruct (translit_image_cases x) as [[_ Hi]|[_ Hi]].
    + exfalso. cbn [In] in Hi.
      repeat (destruct Hi as [Hi'|Hi];
              [rewrite <- Hi' in H; vm_compute in H; intuition discriminate|]).
      contradiction.
    + rewrite Hi in H. destruct H as [<-|[]]. exact Hx.
  - intros H. exists 304. split; [exact H | left; reflexivity].
Qed.

Lemma accumulate_ok {F} {A : Arith F} (k : string) (acc : Sums) (g : option str) :
  known_key k = true -> exists acc', accumulate (A := A) k acc g = Ok acc'.
Proof.
  intros Hk. destruct (known_key_target k Hk) as [E _].
  unfold accumulate. cbn [dict_item OVERRIDE_SUFFIX_WEIGHTS BASE_WORD_SUFFIX_KEY str_of map
    list_ascii_of_string str_eqb bind].
  rewrite E. cbn [bind]. destruct (target_of k) as [[r g'] b]. eexists; reflexivity.
Qed.

Lemma accumulate_all_ok {F} {A : Arith F} (ms : list (string * option str)) (st : Sums) :
  Forall (fun m => known_key (fst m) = true) ms ->
  exists st',
    for_each (fun acc '(color_key, group1) => accumulate (A := A) color_key acc group1) ms st
    = Ok st'.
Proof.
  intros H. revert st. induction H as [|[k g] ms Hk _ IH]; intros st.
  - eexists; reflexivity.
  - cbn [for_each]. destruct (accumulate_ok (A := A) k st g Hk) as [acc' E].
    rewrite E. cbn [bind]. apply IH.
Qed.

Lemma find_override_ok {F} {A : Arith F} (env : Runtime F) (text : str) :
  exists found, find_override_and_weight (A := A) env text = Ok found.
Proof.
  unfold find_override_and_weight. rewrite nested_loops_flatten.
  destruct (accumulate_all_ok (A := A) _
              {| sum_red := of_Z 0; sum_green := of_Z 0; sum_blue := of_Z 0;
                 sum_weight := of_Z 0; match_count := 0 |}
              (all_matches_keys_known env text)) as [st E].
  unfold all_matches in E. rewrite E. cbn [bind].
  destruct (match_count st =? 0); [eexists; reflexivity|].
  cbn [dict_item OVERRIDE_SUFFIX_WEIGHTS BASE_WORD_SUFFIX_KEY str_of map
    list_ascii_of_string str_eqb bind].
  eexists; reflexivity.
Qed.

Lemma blend_override_ok {F} {A : Arith F} (env : Runtime F) (c : RGB) (text : str) :
  exists c', _blend_override (A := A) env c text = Ok c'.
Proof.
  unfold _blend_override. destruct (find_override_ok (A := A) env text) as [found E].
  rewrite E. cbn [bind]. destruct found as [[[[o_r o_g] o_b] w]|]; destruct c as [[r g] b];
    eexists; reflexivity.
Qed.

(** X13: for any arithmetic, compute_color raises (a TypeError) when the mode
    is ANCHOR and the text holds U+0130, and returns a result in frequency
    mode and for every text without U+0130 (the lookup of the environment
    returns or fails with an error the engine catches). *)
Theorem compute_color_raises_only_on_dotted_I {F} {A : Arith F} (env : Runtime F)
  (text : str) (cfg : ComputeConfig) :
  (mode cfg = ComputeMode.ANCHOR -> In 304 text ->
   compute_color (A := A) env text cfg = Raise TypeError)
  /\ (mode cfg = ComputeMode.FREQ \/ ~ In 304 text ->
      exists res, compute_color (A := A) env text cfg = Ok res).
Proof.
  unfold compute_color. split.
  - intros Hm Hin. rewrite Hm.
    destruct (compute_rgb_anchor_cases (A := A) (transliterate_de text)) as [[_ E]|[Hn _]].
    + rewrite E. reflexivity.
    + exfalso. apply Hn, transliterate_keeps_dotted_I, Hin.
  - intros H.
    assert (Hbase : exists base_rgb,
              match mode cfg with
              | ComputeMode.FREQ =>
                  let '(base_rgb, base_count) :=
                    _compute_rgb_freq (A := A) (transliterate_de text) (denominator cfg) in
                  Ok (_apply_length_floor base_rgb base_count cfg)
              | ComputeMode.ANCHOR => _compute_rgb_anchor (transliterate_de text)
              end = Ok base_rgb).
    { destruct (mode cfg).
      - destruct (_compute_rgb_freq _ _) as [c n]. eexists; reflexivity.
      - destruct H as [H|H]; [discriminate|].
        destruct (compute_rgb_anchor_cases (A := A) (transliterate_de text))
          as [[Hin _]|[_ E]]; [|exact E].
        exfalso. apply H, transliterate_keeps_dotted_I, Hin. }
    destruct Hbase as [base_rgb E]. rewrite E. cbn [bind].
    destruct (blend_override_ok (A := A) env base_rgb (transliterate_de text)) as [c' E'].
    rewrite E'. cbn [bind].
    destruct (_apply_punctuation c' text cfg) as [[r g] b]. eexists; reflexivity.
Qed.

Lemma compute_color_raises_only_on_dotted_I_witness :
  compute_color (A := binary64) plain_env (str_of "a" ++ [304]) anchor_config = Raise TypeError
  /\ exists res, compute_color (A := binary64) plain_env (str_of "a" ++ [304]) default_config
                 = Ok res.
Proof.
  destruct (compute_color_raises_only_on_dotted_I (A := binary64) plain_env
              (str_of "a" ++ [304]) anchor_config) as [H1 _].
  destruct (compute_color_raises_only_on_dotted_I (A := binary64) plain_env
              (str_of "a" ++ [304]) default_config) as [_ H2].
  split.
  - apply H1; [reflexivity | vm_compute; tauto].
  - apply H2. left. reflexivity.
Defined.

(** ** Anchor sums *)

Lemma letters_seen_split (t : str) :
  letters_seen t = Z.of_nat (List.length (letters_only t)) + count_char 8490 t.
Proof.
  unfold letters_seen, letters_only, count_char.
  induction t as [|c t IH]; [reflexivity|].
  cbn [filter]. rewrite anchor_letter_cases.
  destruct (is_ascii_letter c) eqn:E; cbn [orb].
  - assert (H : (8490 =? c) = false).
    { apply Z.eqb_neq. intros <-. discriminate. }
    rewrite H. cbn [List.length]. lia.
  - rewrite (Z.eqb_sym 8490 c). destruct (c =? 8490); cbn [List.length]; lia.
Qed.

(** ** Word boundaries *)

Lemma finditer_inside_word {F} (env : Runtime F) (stem : str) (prev : option char)
  (skip : nat) (text : str) :
  is_word_opt env prev = true ->
  Forall (fun c => is_word env c = true) text ->
  finditer_from env stem prev skip text = [].
Proof.
  intros Hp H. revert prev skip Hp.
  induction H as [|c text Hc _ IH]; intros prev skip Hp; [reflexivity|].
  cbn [finditer_from]. destruct skip as [|k].
  - rewrite Hp, Hc. cbn [xorb]. apply IH. exact Hc.
  - apply IH. exact Hc.
Qed.

(** X15: in a text that is one word, a colour pattern matches at most once,
    and only at the start of the word. *)
Theorem finditer_single_word {F} (env : Runtime F) (stem text : str) :
  text <> [] ->
  Forall (fun c => is_word env c = true) text ->
  finditer env stem text
  = match match_here env stem text with
    | Some (group1, _) => [group1]
    | None => []
    end.
Proof.
  intros Hne H. destruct text as [|c rest]; [contradiction|].
  inversion H as [|? ? Hc Hrest]; subst.
  unfold finditer. cbn [finditer_from is_word_opt]. rewrite Hc. cbn [xorb].
  destruct (match_here env stem (c :: rest)) as [[group1 len]|].
  - rewrite finditer_inside_word; [reflexivity | exact Hc | exact Hrest].
  - apply finditer_inside_word; [exact Hc | exact Hrest].
Qed.

Lemma finditer_single_word_witness :
  finditer (F := float) plain_env (str_of "rot") (str_of "Brot") = []
  /\ finditer (F := float) plain_env (str_of "blau") (str_of "blaugruen") = [None].
Proof.
  split.
  - rewrite (finditer_single_word plain_env (str_of "rot") (str_of "Brot"));
      [reflexivity | discriminate | repeat constructor].
  - rewrite (finditer_single_word plain_env (str_of "blau") (str_of "blaugruen"));
      [reflexivity | discriminate | repeat constructor].
Defined.

(** ** Colour names *)

Lemma hue_band_name_in {F} {A : Arith F} (bands : list (HueBand F)) (h : F) :
  In (hue_band_name bands h) (map band_name bands ++ [DEFAULT_HUE_NAME]).
Proof.
  induction bands as [|b bands IH]; [left; reflexivity|].
  cbn [hue_band_name map app]. destruct (_ && _); [left; reflexivity | right; exact IH].
Qed.

Lemma approx_color_name_local {F} {A : Arith F} (r g b : Z) :
  In (approx_color_name (A := A) r g b) LOCAL_NAMES.
Proof.
  unfold approx_color_name. destruct (rgb_to_hsv _ _ _) as [[h s] v].
  destruct (v <! _); [vm_compute; tauto|].
  destruct (_ && _); [vm_compute; tauto|].
  destruct (s <! _); [vm_compute; tauto|].
  pose proof (hue_band_name_in (HUE_BANDS (A := A)) (h *! DEGREES_FULL_CIRCLE)) as H.
  cbn [HUE_BANDS map band band_name app] in H. unfold DEFAULT_HUE_NAME in H.
  unfold LOCAL_NAMES. cbn [In] in *. tauto.
Qed.

(** X17: the display name is either a name the remote lookup returned with a
    distance of at most 20, or the name of the local heuristic, which is one
    of fourteen names. *)
Theorem display_name_origin {F} {A : Arith F} (env : Runtime F) (hex_code : string)
  (c : RGB) :
  let n := _resolve_display_name (A := A) env hex_code c in
  (exists lookup distance,
      pizza_lookup env = Some lookup /\ lookup hex_code = Info n distance
      /\ (distance <=! api_distance_max) = true)
  \/ (n = approx_color_name (A := A) (red_of c) (green_of c) (blue_of c)
      /\ In n LOCAL_NAMES).
Proof.
  cbv zeta. unfold _resolve_display_name. destruct c as [[r g] b].
  unfold red_of, green_of, blue_of. cbn [fst snd].
  destruct (pizza_lookup env) as [lookup|] eqn:El;
    [|right; split; [reflexivity | apply approx_color_name_local]].
  destruct (lookup hex_code) as [display_name distance|] eqn:Eh;
    [|right; split; [reflexivity | apply approx_color_name_local]].
  destruct (distance <=! api_distance_max) eqn:Ed;
    [|right; split; [reflexivity | apply approx_color_name_local]].
  left. exists lookup, distance. repeat split; assumption.
Qed.

(** ** Grays, on doubles *)

Lemma gray_axis_check :
  forallb (fun v => String.eqb (approx_color_name (A := binary64) v v v) (gray_name v))
          (map Z.of_nat (seq 0 256)) = true.
Proof. vm_compute. reflexivity. Qed.

(** X18: on doubles, a gray (v, v, v) is named black up to 30, white from 235,
    and gray in between: never by a hue. *)
Theorem gray_axis_names (v : Z) :
  byte v -> approx_color_name (A := binary64) v v v = gray_name v.
Proof.
  intros [H0 H1]. apply String.eqb_eq.
  apply (proj1 (forallb_forall _ _) gray_axis_check).
  apply in_map_iff. exists (Z.to_nat v). split; [lia|]. apply in_seq. lia.
Qed.

Lemma gray_axis_names_witness :
  byte 128 /\ approx_color_name (A := binary64) 128 128 128 = "gray"%string.
Proof.
  assert (H : byte 128) by (unfold byte; lia).
  split; [exact H | apply (gray_axis_names 128 H)].
Defined.

(** ** Saturation and brightness *)

Lemma clamp_byte_monotone (a b : Z) : a <= b -> clamp_byte a <= clamp_byte b.
Proof.
  intros H. unfold clamp_byte, MIN_BYTE, MAX_BYTE.
  destruct (Z.ltb_spec a 0), (Z.ltb_spec b 0), (Z.gtb_spec a 255), (Z.gtb_spec b 255); lia.
Qed.

Lemma per_channel_order_kept (f : Z -> Z) (r g b : Z) :
  (forall x y, x <= y -> f x <= f y) -> order_kept (r, g, b) (f r, f g, f b).
Proof.
  intros Hf p q Hp Hq. unfold channels in *. cbn [In] in Hp, Hq.
  destruct Hp as [<-|[<-|[<-|[]]]], Hq as [<-|[<-|[<-|[]]]];
    unfold red_of, green_of, blue_of; cbn [fst snd]; apply Hf.
Qed.

Lemma order_kept_trans (c1 c2 c3 : RGB) :
  order_kept c1 c2 -> order_kept c2 c3 -> order_kept c1 c3.
Proof. intros H1 H2 p q Hp Hq H. apply H2, H1; assumption. Qed.

Lemma order_kept_refl (c : RGB) : order_kept c c.
Proof. intros p q _ _ H. exact H. Qed.

(** ** Stripping *)

Lemma lstrip_id (t : str) : (forall c, In c t -> isspace c = false) -> lstrip t = t.
Proof.
  destruct t as [|c t]; [reflexivity|]. intros H. cbn [lstrip].
  rewrite (H c (or_introl eq_refl)). reflexivity.
Qed.

Lemma strip_id (t : str) : (forall c, In c t -> isspace c = false) -> strip t = t.
Proof.
  intros H. unfold strip, rstrip. rewrite (lstrip_id t H).
  rewrite lstrip_id; [apply rev_involutive|].
  intros c Hc. apply H, in_rev, Hc.
Qed.

Lemma lstrip_idempotent (t : str) : lstrip (lstrip t) = lstrip t.
Proof.
  induction t as [|c t IH]; [reflexivity|]. cbn [lstrip].
  destruct (isspace c) eqn:E; [exact IH|]. cbn [lstrip]. rewrite E. reflexivity.
Qed.

Lemma lstrip_snoc (l : str) (c : char) :
  isspace c = false -> lstrip (l ++ [c]) = lstrip l ++ [c].
Proof.
  intros Hc. induction l as [|x l IH]; cbn [app lstrip]; [rewrite Hc; reflexivity|].
  destruct (isspace x); [exact IH | reflexivity].
Qed.

Lemma lstrip_head (t : str) :
  lstrip t = [] \/ exists c u, lstrip t = c :: u /\ isspace c = false.
Proof.
  induction t as [|c t IH]; [left; reflexivity|]. cbn [lstrip].
  destruct (isspace c) eqn:E; [exact IH|]. right. exists c, t. split; [reflexivity | exact E].
Qed.

Lemma strip_trimmed (t : str) :
  lstrip (strip t) = strip t /\ lstrip (rev (strip t)) = rev (strip t).
Proof.
  unfold strip, rstrip. split.
  - destruct (lstrip_head t) as [E|(c & u & E & Hc)]; rewrite E; [reflexivity|].
    cbn [rev]. rewrite (lstrip_snoc _ c Hc), rev_app_distr. cbn [rev app lstrip].
    rewrite Hc. reflexivity.
  - rewrite rev_involutive. apply lstrip_idempotent.
Qed.

Lemma strip_of_trimmed (t : str) :
  lstrip t = t -> lstrip (rev t) = rev t -> strip t = t.
Proof.
  intros H1 H2. unfold strip, rstrip. rewrite H1, H2. apply rev_involutive.
Qed.

Lemma strip_idempotent (t : str) : strip (strip t) = strip t.
Proof. destruct (strip_trimmed t) as [H1 H2]. apply strip_of_trimmed; assumption. Qed.

(** ** Hex normal form *)

Lemma upper_hex_facts (c : char) :
  upper_hex c = true ->
  isspace c = false /\ c <> 35 /\ existsb (Z.eqb c) HEX_DIGITS = true /\ ascii_upper c = c.
Proof.
  unfold upper_hex, in_range. intros H.
  assert (Hr : 48 <= c <= 57 \/ 65 <= c <= 70).
  { destruct (Z.leb_spec 48 c), (Z.leb_spec c 57), (Z.leb_spec 65 c), (Z.leb_spec c 70);
      cbn [andb orb] in H; try discriminate; lia. }
  assert (Hc : In c (map Z.of_nat (seq 48 10 ++ seq 65 6))).
  { apply in_map_iff. exists (Z.to_nat c). split; [lia|]. apply in_app_iff.
    destruct Hr as [Hr|Hr]; [left | right]; apply in_seq; lia. }
  cbn [seq app map Z.of_nat Pos.of_succ_nat Pos.succ In] in Hc.
  repeat (destruct Hc as [<-|Hc]; [repeat split; (reflexivity || discriminate)|]).
  contradiction.
Qed.

Lemma hex_digit_upper (c : char) :
  existsb (Z.eqb c) HEX_DIGITS = true -> upper_hex (ascii_upper c) = true.
Proof.
  intros H. apply existsb_exists in H. destruct H as (d & Hd & E).
  apply Z.eqb_eq in E. subst d. vm_compute in Hd.
  repeat (destruct Hd as [<-|Hd]; [reflexivity|]). contradiction.
Qed.

Lemma normalize_hex_canonical (h : str) : canonical_hex h -> _normalize_hex h = Some h.
Proof.
  intros (digits & -> & Hlen & Hd).
  assert (Hns : forall c, In c digits -> isspace c = false).
  { intros c Hc. rewrite Forall_forall in Hd. apply (upper_hex_facts c (Hd c Hc)). }
  unfold _normalize_hex.
  rewrite (strip_id (35 :: digits)) by (intros c [<-|Hc]; [reflexivity | apply Hns, Hc]).
  cbv beta iota zeta.
  rewrite (strip_id digits Hns), Hlen. cbn [Nat.eqb negb orb].
  assert (Hex : existsb (fun ch => negb (existsb (Z.eqb ch) HEX_DIGITS)) digits = false).
  { clear Hlen Hns. induction Hd as [|c l Hc _ IH]; [reflexivity|]. cbn [existsb].
    destruct (upper_hex_facts c Hc) as (_ & _ & -> & _). exact IH. }
  rewrite Hex. do 2 f_equal.
  clear Hlen Hns Hex. induction Hd as [|c l Hc _ IH]; [reflexivity|]. cbn [map].
  destruct (upper_hex_facts c Hc) as (_ & _ & _ & ->). rewrite IH. reflexivity.
Qed.

Lemma normalize_hex_shape (h h' : str) : _normalize_hex h = Some h' -> canonical_hex h'.
Proof.
  unfold _normalize_hex.
  set (cleaned := strip match strip h with 35 :: rest => rest | _ => strip h end).
  destruct (Nat.eqb_spec (List.length cleaned) 6) as [Hlen|]; cbn [negb orb]; [|discriminate].
  destruct (existsb (fun ch => negb (existsb (Z.eqb ch) HEX_DIGITS)) cleaned) eqn:Hex;
    [discriminate|].
  intros E. injection E as <-. exists (map ascii_upper cleaned).
  split; [reflexivity|]. split; [rewrite length_map; exact Hlen|].
  apply Forall_forall. intros c Hc. apply in_map_iff in Hc. destruct Hc as (d & <- & Hd).
  apply hex_digit_upper.
  destruct (existsb (Z.eqb d) HEX_DIGITS) eqn:E'; [reflexivity|].
  exfalso. assert (Ht : existsb (fun ch => negb (existsb (Z.eqb ch) HEX_DIGITS)) cleaned = true).
  { apply existsb_exists. exists d. split; [exact Hd | rewrite E'; reflexivity]. }
  congruence.
Qed.

(** X22: what _normalize_hex returns is "#" followed by six upper-case
    hexadecimal digits, and normalising it again returns it unchanged. *)
Theorem normalize_hex_idempotent (h h' : str) :
  _normalize_hex h = Some h' -> canonical_hex h' /\ _normalize_hex h' = Some h'.
Proof.
  intros H. pose proof (normalize_hex_shape h h' H) as Hc.
  split; [exact Hc | apply normalize_hex_canonical, Hc].
Qed.

Lemma normalize_hex_idempotent_witness :
  _normalize_hex (str_of "  24b1e0 ") = Some (str_of "#24B1E0")
  /\ _normalize_hex (str_of "#24B1E0") = Some (str_of "#24B1E0").
Proof.
  assert (H : _normalize_hex (str_of "  24b1e0 ") = Some (str_of "#24B1E0")) by reflexivity.
  split; [exact H | apply (normalize_hex_idempotent _ _ H)].
Defined.

(** ** The hex code of the engine is in normal form *)

Lemma str_of_app (a b : string) : str_of (a ++ b) = str_of a ++ str_of b.
Proof.
  unfold str_of. induction a as [|x a IH]; [reflexivity|].
  cbn [String.append list_ascii_of_string map app]. rewrite IH. reflexivity.
Qed.

Lemma hex_char_upper (d : Z) :
  0 <= d < 16 -> upper_hex (Z.of_N (N_of_ascii (hex_char d))) = true.
Proof.
  intros H.
  assert (Hd : In d (map Z.of_nat (seq 0 16))).
  { apply in_map_iff. exists (Z.to_nat d). split; [lia|]. apply in_seq. lia. }
  cbn [seq map Z.of_nat Pos.of_succ_nat Pos.succ In] in Hd.
  repeat (destruct Hd as [<-|Hd]; [reflexivity|]). contradiction.
Qed.

Lemma two_hex_digits_upper (c : Z) :
  byte c ->
  exists x y, str_of (two_hex_digits c) = [x; y] /\ upper_hex x = true /\ upper_hex y = true.
Proof.
  intros [H0 H1]. unfold two_hex_digits. eexists _, _. split; [reflexivity|].
  split; apply hex_char_upper.
  - split; [apply Z.div_pos; lia | apply Z.div_lt_upper_bound; lia].
  - apply Z.mod_pos_bound. lia.
Qed.

Lemma rgb_to_hex_canonical (r g b : Z) :
  bytes (r, g, b) -> canonical_hex (str_of (rgb_to_hex r g b)).
Proof.
  intros (Hr & Hg & Hb). unfold rgb_to_hex.
  rewrite !format_02X_byte by assumption.
  destruct (two_hex_digits_upper r Hr) as (r1 & r2 & Er & R1 & R2).
  destruct (two_hex_digits_upper g Hg) as (g1 & g2 & Eg & G1 & G2).
  destruct (two_hex_digits_upper b Hb) as (b1 & b2 & Eb & B1 & B2).
  exists [r1; r2; g1; g2; b1; b2]. split.
  - change (str_of (String "#" ?s)) with (35 :: str_of s).
    unfold str_of at 1. cbn [list_ascii_of_string map]. fold (str_of (two_hex_digits r ++ two_hex_digits g ++ two_hex_digits b)).
    rewrite !str_of_app, Er, Eg, Eb. reflexivity.
  - split; [reflexivity|]. repeat constructor; assumption.
Qed.

(** ** Text for the speech backend *)

(** X24: the text prepared for the speech backend always holds an alphanumeric
    character, has no white space at its ends, is left unchanged by a second
    preparation, and is either the stripped input or the placeholder. *)
Theorem prepare_text_for_gtts_speakable (uni_alnum : char -> bool) (text : str) :
  let out := _prepare_text_for_gtts uni_alnum text in
  existsb (isalnum uni_alnum) out = true
  /\ strip out = out
  /\ _prepare_text_for_gtts uni_alnum out = out
  /\ (out = strip text \/ out = str_of "Hallo.").
Proof.
  cbv zeta.
  assert (Hfix : forall out, existsb (isalnum uni_alnum) out = true -> strip out = out ->
                   _prepare_text_for_gtts uni_alnum out = out).
  { intros out Ha Hs. unfold _prepare_text_for_gtts. rewrite Hs, Ha.
    destruct out; [discriminate | reflexivity]. }
  assert (Hcases : (_prepare_text_for_gtts uni_alnum text = strip text
                    /\ existsb (isalnum uni_alnum) (strip text) = true)
                   \/ _prepare_text_for_gtts uni_alnum text = str_of "Hallo.").
  { unfold _prepare_text_for_gtts.
    destruct (negb (Nat.eqb (List.length (strip text)) 0)
              && existsb (isalnum uni_alnum) (strip text)) eqn:E; [|right; reflexivity].
    apply andb_prop in E. left. split; [reflexivity | apply E]. }
  destruct Hcases as [[E Ha]|E]; rewrite E.
  - split; [exact Ha|]. split; [apply strip_idempotent|].
    split; [apply Hfix; [exact Ha | apply strip_idempotent] | left; reflexivity].
  - split; [reflexivity|]. split; [reflexivity|].
    split; [apply Hfix; reflexivity | right; reflexivity].
Qed.

(** ** ASCII case: one character *)

Ltac char_cases c :=
  unfold ascii_lower, is_ascii_letter, is_ascii_upper, is_ascii_lower, is_ascii_digit,
    in_range in *;
  destruct (Z.leb_spec 65 c), (Z.leb_spec c 90); cbn [andb orb] in *.

Ltac bool_cases :=
  repeat match goal with
         | |- context [?a <=? ?b] => destruct (Z.leb_spec a b); cbn [andb orb negb xorb] in *
         | |- context [?a <? ?b] => destruct (Z.ltb_spec a b); cbn [andb orb negb xorb] in *
         | |- context [?a =? ?b] => destruct (Z.eqb_spec a b); cbn [andb orb negb xorb] in *
         end; try reflexivity; try lia.

Lemma ascii_lower_idempotent (c : char) : ascii_lower (ascii_lower c) = ascii_lower c.
Proof. char_cases c; bool_cases. Qed.

Lemma isspace_lower (c : char) : isspace (ascii_lower c) = isspace c.
Proof. unfold isspace. char_cases c; bool_cases. Qed.

Lemma letter_lower (c : char) : is_ascii_letter (ascii_lower c) = is_ascii_letter c.
Proof. char_cases c; bool_cases. Qed.

Lemma is_word_lower {F} (env : Runtime F) (c : char) :
  is_word env (ascii_lower c) = is_word env c.
Proof. unfold is_word. char_cases c; bool_cases. Qed.

Lemma ascii_lower_cases (c : char) :
  (65 <= c <= 90 /\ ascii_lower c = c + 32) \/ ascii_lower c = c.
Proof. char_cases c; try (right; reflexivity). left. split; [lia | reflexivity]. Qed.

Lemma ci_match_lower {F} (env : Runtime F) (p c : char) :
  ci_match env p (ascii_lower c) = ci_match env p c.
Proof.
  unfold ci_match. rewrite ascii_lower_idempotent.
  destruct (ascii_lower_cases c) as [[Hc E]|E]; rewrite E; [|reflexivity].
  destruct (Z.ltb_spec (c + 32) 128), (Z.ltb_spec c 128); try reflexivity; lia.
Qed.

Lemma py_lower_lower (c : char) : py_lower (ascii_lower c) = py_lower c.
Proof. unfold py_lower. char_cases c; bool_cases. Qed.

Lemma eqb_lower (k c : char) :
  is_ascii_upper k = false -> is_ascii_upper (k - 32) = false ->
  (k =? ascii_lower c) = (k =? c).
Proof. intros H1 H2. char_cases c; bool_cases. Qed.

Lemma rgb_member_lower (set : str) (c : char) :
  In set [str_of "rR"; str_of "gG"; str_of "bB"; str_of "rRgGbB"] ->
  existsb (Z.eqb (ascii_lower c)) set = existsb (Z.eqb c) set.
Proof.
  intros H. cbn [In] in H.
  repeat (destruct H as [<-|H];
          [cbn [str_of map list_ascii_of_string existsb];
           repeat match goal with
                  | |- context [Z.of_N (N_of_ascii ?a)] =>
                      let v := eval vm_compute in (Z.of_N (N_of_ascii a)) in
                      change (Z.of_N (N_of_ascii a)) with v
                  end;
           char_cases c; bool_cases|]).
  contradiction.
Qed.

Lemma letter_index_lower (c : char) : _letter_index (ascii_lower c) = _letter_index c.
Proof.
  rewrite !letter_index_spec, ascii_lower_idempotent, letter_lower.
  char_cases c; bool_cases.
Qed.

(** X11: _letter_index raises TypeError on U+0130, gives the alphabet index of
    an ASCII letter, 10 for the Kelvin sign and None for every other
    character; it gives the same result for a character and for its ASCII
    lower-case form. *)
Theorem letter_index_cases (c : char) :
  _letter_index c
  = (if c =? 304 then Raise TypeError
     else if is_ascii_letter c then Ok (Some (ascii_lower c - 97))
     else if c =? 8490 then Ok (Some 10)
     else Ok None)
  /\ _letter_index (ascii_lower c) = _letter_index c.
Proof. split; [apply letter_index_spec | apply letter_index_lower]. Qed.

Lemma translit_image_lower (c : char) :
  fold_case (translit_image (ascii_lower c)) = fold_case (translit_image c).
Proof.
  destruct (translit_image_cases c) as [[Hc _]|[Hc E]].
  - assert (El : ascii_lower c = c).
    { unfold accented in Hc. cbn [existsb] in Hc. char_cases c; try reflexivity.
      exfalso. revert Hc. bool_cases. }
    rewrite El. reflexivity.
  - rewrite E. assert (Hl : accented (ascii_lower c) = false).
    { unfold accented in *. cbn [existsb] in *. revert Hc. char_cases c; try tauto.
      intros _. bool_cases. }
    destruct (translit_image_cases (ascii_lower c)) as [[Hc' _]|[_ E']]; [congruence|].
    rewrite E'. unfold fold_case. cbn [map]. rewrite ascii_lower_idempotent. reflexivity.
Qed.

(** ** ASCII case: lists *)

Lemma filter_map_comm {X Y} (p : Y -> bool) (f : X -> Y) (l : list X) :
  filter p (map f l) = map f (filter (fun x => p (f x)) l).
Proof.
  induction l as [|x l IH]; [reflexivity|]. cbn [map filter].
  destruct (p (f x)); cbn [map]; rewrite IH; reflexivity.
Qed.

Lemma fold_case_idempotent (t : str) : fold_case (fold_case t) = fold_case t.
Proof.
  unfold fold_case. rewrite map_map. apply map_ext. intros c. apply ascii_lower_idempotent.
Qed.

Lemma length_fold_case (t : str) : List.length (fold_case t) = List.length t.
Proof. apply length_map. Qed.

Lemma visible_len_fold_case (t : str) : visible_len (fold_case t) = visible_len t.
Proof.
  rewrite !visible_len_filter. unfold fold_case. rewrite filter_map_comm, length_map.
  do 2 f_equal. apply filter_ext. intros c. rewrite isspace_lower. reflexivity.
Qed.

Lemma letters_only_fold_case (t : str) : letters_only (fold_case t) = fold_case (letters_only t).
Proof.
  unfold letters_only, fold_case. rewrite filter_map_comm. f_equal.
  apply filter_ext. intros c. apply letter_lower.
Qed.

Lemma count_in_fold_case (set : str) (l : list char) :
  In set [str_of "rR"; str_of "gG"; str_of "bB"; str_of "rRgGbB"] ->
  count_in set (fold_case l) = count_in set l.
Proof.
  intros H. unfold count_in, fold_case. rewrite filter_map_comm, length_map.
  do 2 f_equal. apply filter_ext. intros c. apply rgb_member_lower, H.
Qed.

Lemma compute_rgb_freq_fold_case {F} {A : Arith F} (t : str) (den : Denominator.t) :
  _compute_rgb_freq (A := A) (fold_case t) den = _compute_rgb_freq (A := A) t den.
Proof.
  unfold _compute_rgb_freq.
  rewrite !letters_only_fold_case, visible_len_fold_case.
  destruct den; cbv beta iota zeta;
    rewrite !count_in_fold_case by (cbn [In]; tauto);
    rewrite ?length_fold_case; reflexivity.
Qed.

Lemma anchor_scan_fold_case {F} {A : Arith F} (t : str) (cs : Counts) :
  for_each (anchor_step (A := A)) (fold_case t) cs = for_each (anchor_step (A := A)) t cs.
Proof.
  revert cs. induction t as [|c t IH]; intros cs; [reflexivity|].
  cbn [fold_case map for_each]. fold (fold_case t).
  assert (E : anchor_step (A := A) cs (ascii_lower c) = anchor_step (A := A) cs c)
    by (unfold anchor_step; rewrite letter_index_lower; reflexivity).
  rewrite E. destruct (anchor_step cs c); cbn [bind]; [apply IH | reflexivity].
Qed.

Lemma compute_rgb_anchor_fold_case {F} {A : Arith F} (t : str) :
  _compute_rgb_anchor (A := A) (fold_case t) = _compute_rgb_anchor (A := A) t.
Proof. unfold _compute_rgb_anchor, anchor_counts. rewrite anchor_scan_fold_case. reflexivity. Qed.

(** ** ASCII case: the patterns *)

Lemma match_literal_fold_case {F} (env : Runtime F) (pat t : str) :
  match_literal env pat (fold_case t) = option_map fold_case (match_literal env pat t).
Proof.
  revert t. induction pat as [|p pat IH]; intros t; [reflexivity|].
  destruct t as [|c t]; [reflexivity|].
  cbn [fold_case map match_literal]. fold (fold_case t).
  rewrite ci_match_lower. destruct (ci_match env p c); [apply IH | reflexivity].
Qed.

Lemma match_group_fold_case {F} (env : Runtime F) (alts : list str) (t : str) :
  match_group env alts (fold_case t)
  = (option_map fold_case (fst (match_group env alts t)),
     fold_case (snd (match_group env alts t))).
Proof.
  induction alts as [|alt alts IH]; [reflexivity|].
  cbn [match_group]. rewrite match_literal_fold_case.
  destruct (match_literal env alt t) as [rest|]; cbn [option_map fst snd].
  - unfold fold_case. rewrite firstn_map. reflexivity.
  - exact IH.
Qed.

Lemma word_run_fold_case {F} (env : Runtime F) (t : str) :
  word_run env (fold_case t) = word_run env t.
Proof.
  induction t as [|c t IH]; [reflexivity|].
  cbn [fold_case map word_run]. fold (fold_case t). rewrite is_word_lower, IH. reflexivity.
Qed.

Lemma match_here_fold_case {F} (env : Runtime F) (stem t : str) :
  match_here env stem (fold_case t)
  = option_map (fun m => (option_map fold_case (fst m), snd m)) (match_here env stem t).
Proof.
  unfold match_here. rewrite match_literal_fold_case.
  destruct (match_literal env stem t) as [after_stem|]; [|reflexivity].
  cbn [option_map]. rewrite match_group_fold_case.
  destruct (match_group env SUFFIX_ALTERNATIVES after_stem) as [group1 after_group].
  cbn [fst snd option_map]. rewrite word_run_fold_case.
  unfold fold_case. rewrite !length_map. reflexivity.
Qed.

Lemma finditer_from_fold_case {F} (env : Runtime F) (stem : str) (prev : option char)
  (skip : nat) (t : str) :
  finditer_from env stem (option_map ascii_lower prev) skip (fold_case t)
  = map (option_map fold_case) (finditer_from env stem prev skip t).
Proof.
  revert prev skip. induction t as [|c t IH]; intros prev skip; [reflexivity|].
  cbn [fold_case map]. fold (fold_case t). cbn [finditer_from].
  destruct skip as [|k]; [|apply (IH (Some c))].
  assert (Hp : is_word_opt env (option_map ascii_lower prev) = is_word_opt env prev)
    by (destruct prev; [apply is_word_lower | reflexivity]).
  rewrite Hp, is_word_lower.
  destruct (xorb (is_word_opt env prev) (is_word env c)); [|apply (IH (Some c))].
  change (ascii_lower c :: fold_case t) with (fold_case (c :: t)).
  rewrite match_here_fold_case.
  destruct (match_here env stem (c :: t)) as [[group1 len]|]; cbn [option_map fst snd].
  - cbn [map]. f_equal. apply (IH (Some c)).
  - apply (IH (Some c)).
Qed.

Lemma finditer_fold_case {F} (env : Runtime F) (stem t : str) :
  finditer env stem (fold_case t) = map (option_map fold_case) (finditer env stem t).
Proof. apply (finditer_from_fold_case env stem None O t). Qed.

Lemma str_lower_fold_case (t : str) : str_lower (fold_case t) = str_lower t.
Proof.
  unfold str_lower, fold_case. induction t as [|c t IH]; [reflexivity|].
  cbn [map flat_map]. rewrite py_lower_lower, IH. reflexivity.
Qed.

Lemma accumulate_fold_case {F} {A : Arith F} (k : string) (acc : Sums) (g : option str) :
  accumulate (A := A) k acc (option_map fold_case g) = accumulate (A := A) k acc g.
Proof.
  destruct g as [t|]; [|reflexivity]. unfold accumulate. cbn [option_map].
  rewrite str_lower_fold_case. reflexivity.
Qed.

Lemma for_each_ext {X S} (body1 body2 : S -> X -> result S) (l : list X) (st : S) :
  (forall s x, body1 s x = body2 s x) -> for_each body1 l st = for_each body2 l st.
Proof.
  intros H. revert st. induction l as [|x l IH]; intros st; [reflexivity|].
  cbn [for_each]. rewrite H. destruct (body2 st x); cbn [bind]; [apply IH | reflexivity].
Qed.

Lemma find_override_fold_case {F} {A : Arith F} (env : Runtime F) (t : str) :
  find_override_and_weight (A := A) env (fold_case t)
  = find_override_and_weight (A := A) env t.
Proof.
  unfold find_override_and_weight.
  rewrite (for_each_ext
             (fun acc '(color_key, stem) =>
                for_each (accumulate (A := A) color_key) (finditer env stem (fold_case t)) acc)
             (fun acc '(color_key, stem) =>
                for_each (accumulate (A := A) color_key) (finditer env stem t) acc));
    [reflexivity|].
  intros s [k stem]. rewrite finditer_fold_case, for_each_map.
  apply for_each_ext. intros s' g. apply accumulate_fold_case.
Qed.

Lemma blend_override_fold_case {F} {A : Arith F} (env : Runtime F) (c : RGB) (t : str) :
  _blend_override (A := A) env c (fold_case t) = _blend_override (A := A) env c t.
Proof. unfold _blend_override. rewrite find_override_fold_case. reflexivity. Qed.

(** ** ASCII case: punctuation *)

Lemma lstrip_fold_case (t : str) : lstrip (fold_case t) = fold_case (lstrip t).
Proof.
  induction t as [|c t IH]; [reflexivity|].
  cbn [fold_case map lstrip]. fold (fold_case t). rewrite isspace_lower.
  destruct (isspace c); [exact IH | reflexivity].
Qed.

Lemma punctuation_score_fold_case {F} {A : Arith F} (t : str) :
  punctuation_score (A := A) (fold_case t) = punctuation_score (A := A) t.
Proof.
  assert (Hcount : forall k, is_ascii_upper k = false -> is_ascii_upper (k - 32) = false ->
                     count_char k (fold_case t) = count_char k t).
  { intros k H1 H2. unfold count_char, fold_case. rewrite filter_map_comm, length_map.
    do 2 f_equal. apply filter_ext. intros c. apply eqb_lower; assumption. }
  assert (Hend : forall k, is_ascii_upper k = false -> is_ascii_upper (k - 32) = false ->
                   endswith (rstrip (fold_case t)) k = endswith (rstrip t) k).
  { intros k H1 H2. rewrite !endswith_rstrip. unfold last_visible, fold_case.
    rewrite <- map_rev. fold (fold_case (rev t)). rewrite lstrip_fold_case.
    destruct (lstrip (rev t)) as [|x l]; [reflexivity|]. cbn [fold_case map].
    rewrite !(Z.eqb_sym _ k). apply eqb_lower; assumption. }
  unfold punctuation_score.
  rewrite !Hcount, !Hend by reflexivity. reflexivity.
Qed.

Lemma apply_punctuation_fold_case {F} {A : Arith F} (c : RGB) (t : str) (cfg : ComputeConfig) :
  _apply_punctuation (A := A) c (fold_case t) cfg = _apply_punctuation (A := A) c t cfg.
Proof.
  unfold _apply_punctuation, _punctuation_multipliers.
  rewrite punctuation_score_fold_case. reflexivity.
Qed.

(** ** ASCII case: the whole pipeline *)

Lemma transliterate_fold_case (t : str) :
  fold_case (transliterate_de (fold_case t)) = fold_case (transliterate_de t).
Proof.
  rewrite !transliterate_de_flat_map. unfold fold_case at 2.
  induction t as [|c t IH]; [reflexivity|].
  cbn [map flat_map]. unfold fold_case in *. rewrite !map_app, IH.
  f_equal. apply translit_image_lower.
Qed.

Lemma compute_color_folded {F} {A : Arith F} (env : Runtime F) (t : str)
  (cfg : ComputeConfig) :
  compute_color (A := A) env t cfg
  = (base_rgb <-
       match mode cfg with
       | ComputeMode.FREQ =>
           let '(base_rgb, base_count) :=
             _compute_rgb_freq (A := A) (fold_case (transliterate_de t)) (denominator cfg) in
           Ok (_apply_length_floor base_rgb base_count cfg)
       | ComputeMode.ANCHOR => _compute_rgb_anchor (fold_case (transliterate_de t))
       end ;;
     with_override <- _blend_override env base_rgb (fold_case (transliterate_de t)) ;;
     let with_punct := _apply_punctuation with_override (fold_case t) cfg in
     let '(r, g, b) := with_punct in
     let hex_code := rgb_to_hex r g b in
     let display_name := _resolve_display_name env hex_code with_punct in
     Ok {| rgb := with_punct; hex := hex_code; name := display_name |}).
Proof.
  unfold compute_color.
  rewrite compute_rgb_freq_fold_case, compute_rgb_anchor_fold_case.
  destruct (match mode cfg with
            | ComputeMode.FREQ => _
            | ComputeMode.ANCHOR => _
            end) as [base|e]; [|reflexivity].
  cbn [bind]. rewrite blend_override_fold_case.
  destruct (_blend_override env base (transliterate_de t)) as [c|e]; [|reflexivity].
  cbn [bind]. rewrite apply_punctuation_fold_case. reflexivity.
Qed.

(** X25: for any arithmetic and environment, two texts that differ only in the
    case of ASCII letters give the same result (or the same exception). *)
Theorem compute_color_ignores_ascii_case {F} {A : Arith F} (env : Runtime F)
  (t1 t2 : str) (cfg : ComputeConfig) :
  fold_case t1 = fold_case t2 ->
  compute_color (A := A) env t1 cfg = compute_color (A := A) env t2 cfg.
Proof.
  intros H. rewrite !compute_color_folded.
  assert (HT : fold_case (transliterate_de t1) = fold_case (transliterate_de t2))
    by (rewrite <- (transliterate_fold_case t1), <- (transliterate_fold_case t2), H;
        reflexivity).
  rewrite H, HT. reflexivity.
Qed.

Lemma compute_color_ignores_ascii_case_witness :
  fold_case (str_of "Ich bin BLAU!") = fold_case (str_of "ich bin blau!")
  /\ compute_color (A := binary64) plain_env (str_of "Ich bin BLAU!") default_config
     = compute_color (A := binary64) plain_env (str_of "ich bin blau!") default_config.
Proof.
  assert (H : fold_case (str_of "Ich bin BLAU!") = fold_case (str_of "ich bin blau!"))
    by reflexivity.
  split; [exact H|].
  apply (compute_color_ignores_ascii_case plain_env _ _ default_config H).
Defined.

(** ** Hex codes tell colours apart *)

Lemma hex_char_injective (d d' : Z) :
  0 <= d < 16 -> 0 <= d' < 16 -> hex_char d = hex_char d' -> d = d'.
Proof.
  intros H H'.
  assert (Hd : In d (map Z.of_nat (seq 0 16))).
  { apply in_map_iff. exists (Z.to_nat d). split; [lia|]. apply in_seq. lia. }
  assert (Hd' : In d' (map Z.of_nat (seq 0 16))).
  { apply in_map_iff. exists (Z.to_nat d'). split; [lia|]. apply in_seq. lia. }
  cbn [seq map Z.of_nat Pos.of_succ_nat Pos.succ In] in Hd, Hd'.
  repeat (destruct Hd as [<-|Hd];
          [repeat (destruct Hd' as [<-|Hd'];
                   [solve [reflexivity | intros E; vm_compute in E; discriminate]|]);
           contradiction|]).
  contradiction.
Qed.

Lemma two_hex_digits_injective (c c' : Z) :
  byte c -> byte c' -> two_hex_digits c = two_hex_digits c' -> c = c'.
Proof.
  intros [H0 H1] [H0' H1'] E. unfold two_hex_digits in E.
  injection E as E1 E2.
  assert (Hq : 0 <= c / 16 < 16)
    by (split; [apply Z.div_pos; lia | apply Z.div_lt_upper_bound; lia]).
  assert (Hq' : 0 <= c' / 16 < 16)
    by (split; [apply Z.div_pos; lia | apply Z.div_lt_upper_bound; lia]).
  pose proof (Z.mod_pos_bound c 16 ltac:(lia)) as Hm.
  pose proof (Z.mod_pos_bound c' 16 ltac:(lia)) as Hm'.
  apply hex_char_injective in E1; [|assumption..].
  apply hex_char_injective in E2; [|assumption..].
  rewrite (Z.div_mod c 16), (Z.div_mod c' 16) by lia. rewrite E1, E2. reflexivity.
Qed.

(** X27: two colours with channels in [0, 255] that have the same hex code are
    the same colour. *)
Theorem rgb_to_hex_injective (r g b r' g' b' : Z) :
  bytes (r, g, b) -> bytes (r', g', b') ->
  rgb_to_hex r g b = rgb_to_hex r' g' b' -> (r, g, b) = (r', g', b').
Proof.
  intros (Hr & Hg & Hb) (Hr' & Hg' & Hb'). unfold rgb_to_hex.
  rewrite !format_02X_byte by assumption. intros E.
  injection E as E1 E2 E3 E4 E5 E6.
  assert (R : two_hex_digits r = two_hex_digits r')
    by (unfold two_hex_digits; rewrite E1, E2; reflexivity).
  assert (G : two_hex_digits g = two_hex_digits g')
    by (unfold two_hex_digits; rewrite E3, E4; reflexivity).
  assert (B' : two_hex_digits b = two_hex_digits b')
    by (unfold two_hex_digits; rewrite E5, E6; reflexivity).
  apply two_hex_digits_injective in R, G, B'; try assumption.
  subst. reflexivity.
Qed.

Lemma rgb_to_hex_injective_witness :
  bytes (18, 52, 86) /\ rgb_to_hex 18 52 86 = "#123456"%string
  /\ (18, 52, 86) = (18, 52, 86).
Proof.
  assert (H : bytes (18, 52, 86)) by (unfold bytes, byte; lia).
  split; [exact H|]. split; [reflexivity|].
  apply (rgb_to_hex_injective 18 52 86 18 52 86 H H). reflexivity.
Defined.
